(** * Kariba / MOISMCTS: a shallow embedding of [src/kariba_moismcts.py]

    The development follows the layout of the Python module:
    - numpy and Python primitives used by the module ([np_sum], [np_iop], ...);
    - [Kariba]: the rules engine (class [Kariba]);
    - [is_equivalent_node], [Node], [Tree]: the per-player information-set tree;
    - [Simulators] and [moismcts]: the coordinator and the search driver.

    Python objects that are mutated in place are modelled by explicit state
    passing.  The nodes of a tree form an object graph with parent pointers;
    they live in an arena ([Tree.nodes]) and a node is identified with its
    index in the arena.  Exceptions are values of [result].  Randomness
    ([np.random.choice], [random.shuffle]) is drawn from an explicit source
    [rng]; the floating point comparison of UCB scores is a parameter.

    Card counts are numpy/Python integers; they are bounded by the number of
    cards of the game and are modelled by [Z]. *)

From stdpp Require Import gmap strings list fin_maps.
From Stdlib Require Import ZArith Lia.

(** ** Exceptions and results *)

Inductive exn :=
| KeyError
| IndexError
| TypeError
| AttributeError
| ZeroDivisionError
| ValueError (msg : string).

(** [Stuck] is not a Python outcome.  The model returns it when the step
    budget of a loop is used up, and for a node reference that denotes no
    node of the arena.  Neither happens on the trees the module builds when
    the budget is large enough. *)
Inductive result (A : Type) :=
| Ok (a : A)
| Raise (e : exn)
| Stuck.
Arguments Ok {A} a.
Arguments Raise {A} e.
Arguments Stuck {A}.

#[global] Instance result_ret : MRet result := λ A a, Ok a.
#[global] Instance result_bind : MBind result := λ A B f m,
  match m with
  | Ok a => f a
  | Raise e => Raise e
  | Stuck => Stuck
  end.
#[global] Instance result_fmap : FMap result := λ A B f m,
  match m with
  | Ok a => Ok (f a)
  | Raise e => Raise e
  | Stuck => Stuck
  end.

Definition is_Ok {A} (r : result A) : Prop := ∃ a, r = Ok a.

(** ** Python and numpy primitives *)

Abbreviation vec := (list Z).

(** [d[k]] on a dict. *)
Definition dict_get {V} (d : gmap string V) (k : string) : result V :=
  match d !! k with
  | Some v => Ok v
  | None => Raise KeyError
  end.

(** [l[i]] on a list or a one-dimensional array: negative indices count from
    the end. *)
Definition py_getitem {A} (l : list A) (i : Z) : result A :=
  let j := if (i <? 0)%Z then (i + Z.of_nat (length l))%Z else i in
  if (j <? 0)%Z then Raise IndexError
  else match l !! Z.to_nat j with
       | Some x => Ok x
       | None => Raise IndexError
       end.

(** [range(lo, hi)]. *)
Definition py_range (lo hi : Z) : list Z :=
  (λ k, (lo + Z.of_nat k)%Z) <$> seq 0 (Z.to_nat (hi - lo)).

(** [max(l)] of a list; the module only calls it on a list that ends
    with [-1]. *)
Definition py_max (l : list Z) : Z :=
  match l with
  | [] => 0%Z
  | x :: l' => foldr Z.max x l'
  end.

(** [np.sum(v)], as the exact sum.  On the 64-bit integer arrays of the
    module numpy adds modulo [2^64]; the two agree whenever the exact sum is
    a 64-bit integer ([in_int64]). *)
Definition np_sum (v : vec) : Z := foldr Z.add 0%Z v.

(** The values of a signed 64-bit integer. *)
Definition in_int64 (z : Z) : Prop := (- 2 ^ 63 ≤ z < 2 ^ 63)%Z.

(** The keys of [{k: ... for k in l}], in the order of the dict: every
    name once, at the place of its first occurrence. *)
Fixpoint dict_keys (l : list string) : list string :=
  match l with
  | [] => []
  | k :: l' => k :: filter (λ k', k' ≠ k) (dict_keys l')
  end.

Definition np_zeros (n : nat) : vec := replicate n 0%Z.

Definition shape_error : exn :=
  ValueError "operands could not be broadcast together".

(** [a op= b] on one-dimensional arrays: the shapes agree, or [b] has one
    element that is broadcast; the shape of [a] cannot change. *)
Definition np_iop (f : Z → Z → Z) (a b : vec) : result vec :=
  if decide (length a = length b) then Ok (zip_with f a b)
  else match b with
       | [y] => Ok ((λ x, f x y) <$> a)
       | _ => Raise shape_error
       end.

(** [a op b] on one-dimensional arrays, with broadcasting on either side. *)
Definition np_op (f : Z → Z → Z) (a b : vec) : result vec :=
  if decide (length a = length b) then Ok (zip_with f a b)
  else match a, b with
       | _, [y] => Ok ((λ x, f x y) <$> a)
       | [x], _ => Ok ((λ y, f x y) <$> b)
       | _, _ => Raise shape_error
       end.

(** [v.nonzero()[0]]: the indices of the nonzero entries, increasing. *)
Definition np_nonzero (v : vec) : list nat :=
  filter (λ i, v !!! i ≠ 0%Z) (seq 0 (length v)).

(** [np.argmax(l)]: the first index of a maximal element. *)
Fixpoint argmax_from (best : Z) (besti : nat) (i : nat) (l : list Z) : nat :=
  match l with
  | [] => besti
  | x :: l' =>
      if (best <? x)%Z then argmax_from x i (S i) l'
      else argmax_from best besti (S i) l'
  end.

Definition np_argmax (l : list Z) : result nat :=
  match l with
  | [] => Raise (ValueError "attempt to get an argmax of an empty sequence")
  | x :: l' => Ok (argmax_from x 0 1 l')
  end.

(** Modelled from the spec: [util.one_hot(idx, n_dim)], the "one-hot
    construction" of the vector collaborator: the count vector of length
    [n_dim] that holds one card of species [idx]. *)
Definition one_hot (idx : nat) (n_dim : nat) : vec :=
  <[idx := 1%Z]> (np_zeros n_dim).

(** [n * v]. *)
Definition np_scale (n : Z) (v : vec) : vec := Z.mul n <$> v.

(** ** The random source

    A source is an infinite sequence of naturals; every random decision of
    the module consumes entries from its front. *)

Definition rng := nat → nat.

Definition rng_next (r : rng) : nat * rng := (r 0, λ i, r (S i)).

(** Walk along the weights [w]: the index whose cumulative weight first
    exceeds [u]. *)
Fixpoint pick_weighted (w : list Z) (u : Z) (i : nat) : nat :=
  match w with
  | [] => i
  | x :: w' =>
      if (u <? Z.abs x)%Z then i else pick_weighted w' (u - Z.abs x)%Z (S i)
  end.

(** [np.random.choice(range(n), p = w / d)], with the checks numpy makes on
    [p].  [w / d] is a float array: division by the numpy integer [0] does
    not raise, it yields [nan] and [inf] entries, which [choice] rejects.
    An index is drawn with probability [w_i / d], here by the value [u]
    of the random source. *)
Definition np_random_choice_p (n : nat) (w : vec) (d : Z) (u : nat) : result nat :=
  if decide (n = 0) then Raise (ValueError "a must be non-empty")
  else if decide (length w ≠ n) then Raise (ValueError "a and p must have same size")
  else if decide (d = 0%Z) then
    if decide (Exists (λ x, x = 0%Z) w)
    then Raise (ValueError "probabilities contain NaN")
    else Raise (ValueError "probabilities are not non-negative")
  else if decide (Exists (λ x, (x * d < 0)%Z) w)
    then Raise (ValueError "probabilities are not non-negative")
  else Ok (pick_weighted w (Z.of_nat u mod Z.abs d)%Z 0).

(** [np.random.choice(l)]: a uniform element of a list. *)
Definition np_random_choice {A} (l : list A) (u : nat) : result A :=
  match l !! (u mod length l) with
  | Some x => Ok x
  | None => Raise (ValueError "a must be non-empty")
  end.

(** [random.shuffle(l)]: Fisher-Yates from the last position down. *)
Definition swap {A} (l : list A) (i j : nat) : list A :=
  match l !! i, l !! j with
  | Some x, Some y => <[i := y]> (<[j := x]> l)
  | _, _ => l
  end.

Fixpoint shuffle_from {A} (i : nat) (l : list A) (r : rng) : list A * rng :=
  match i with
  | 0 => (l, r)
  | S i' =>
      let '(u, r') := rng_next r in
      shuffle_from i' (swap l i (u mod (S i))) r'
  end.

Definition random_shuffle {A} (l : list A) (r : rng) : list A * rng :=
  shuffle_from (length l - 1) l r.

(** ** Events *)

Inductive event_kind := kind_deck_draw | kind_action.

Record Event := mkEvent {
  kind : event_kind;
  who : string;
  cards : vec;
}.

#[global] Instance event_kind_eq_dec : EqDecision event_kind.
Proof. solve_decision. Defined.
#[global] Instance Event_eq_dec : EqDecision Event.
Proof. solve_decision. Defined.

(** ** class Kariba *)

Module Kariba.

Record t := mk {
  n_species : nat;
  max_n_hand : Z;
  whose_turn_ : Z;
  player_names : list string;
  deck : vec;
  field : vec;
  hands : gmap string (list Z);
  scoreboard : gmap string Z;
}.

Definition n_players (self : t) : Z := Z.of_nat (length (player_names self)).

Definition with_deck (self : t) (d : vec) : t :=
  mk (n_species self) (max_n_hand self) (whose_turn_ self) (player_names self)
     d (field self) (hands self) (scoreboard self).
Definition with_field (self : t) (f : vec) : t :=
  mk (n_species self) (max_n_hand self) (whose_turn_ self) (player_names self)
     (deck self) f (hands self) (scoreboard self).
Definition with_hands (self : t) (h : gmap string (list Z)) : t :=
  mk (n_species self) (max_n_hand self) (whose_turn_ self) (player_names self)
     (deck self) (field self) h (scoreboard self).
Definition with_scoreboard (self : t) (s : gmap string Z) : t :=
  mk (n_species self) (max_n_hand self) (whose_turn_ self) (player_names self)
     (deck self) (field self) (hands self) s.
Definition with_whose_turn_ (self : t) (i : Z) : t :=
  mk (n_species self) (max_n_hand self) i (player_names self)
     (deck self) (field self) (hands self) (scoreboard self).

(** [__init__]: the arguments [field] and [hands] of the Python constructor
    are not used by its body; the field and the hands always start empty. *)
Definition init (deck : option vec) (whose_turn_ : Z) (player_names : list string)
    (n_species : nat) (max_n_hand : Z) : t :=
  mk n_species max_n_hand whose_turn_ player_names
     (match deck with
      | None => np_scale (Z.max 3 (Z.of_nat n_species)) (replicate n_species 1%Z)
      | Some d => d
      end)
     (np_zeros n_species)
     (list_to_map ((λ p, (p, np_zeros n_species)) <$> player_names))
     (list_to_map ((λ p, (p, 0%Z)) <$> player_names)).

Definition whose_turn (self : t) : result string :=
  py_getitem (player_names self) (whose_turn_ self).

Definition who_next_turn_ (self : t) : result Z :=
  if decide (n_players self = 0%Z) then Raise ZeroDivisionError
  else Ok ((whose_turn_ self + 1) `mod` n_players self)%Z.

(** [any([np.sum(self.hands[player]) == 0 for player in self.player_names])] *)
Definition any_empty_hand (self : t) : result bool :=
  l ← mapM (λ player, h ← dict_get (hands self) player;
                      Ok (bool_decide (np_sum h = 0%Z))) (player_names self);
  Ok (existsb id l).

Definition is_final (self : t) : result bool :=
  if decide (np_sum (deck self) = 0%Z) then any_empty_hand self else Ok false.

(** Modelled from the spec: [util.keywithmaxval(d)], the "mapping argmax"
    collaborator: the first key, in the order of the dict, that holds the
    maximal value.  The scoreboard is filled in the order of
    [player_names]. *)
Fixpoint keywithmaxval_from (d : gmap string Z) (best : string) (bestv : Z)
    (keys : list string) : string :=
  match keys with
  | [] => best
  | k :: keys' =>
      match d !! k with
      | Some v => if (bestv <? v)%Z then keywithmaxval_from d k v keys'
                  else keywithmaxval_from d best bestv keys'
      | None => keywithmaxval_from d best bestv keys'
      end
  end.

Definition keywithmaxval (d : gmap string Z) (keys : list string) : result string :=
  match keys with
  | [] => Raise (ValueError "max() arg is an empty sequence")
  | k :: keys' =>
      v ← dict_get d k;
      Ok (keywithmaxval_from d k v keys')
  end.

Definition leading_player (self : t) : result string :=
  keywithmaxval (scoreboard self) (player_names self).

Definition next_turn (self : t) : result t :=
  i ← who_next_turn_ self;
  Ok (with_whose_turn_ self i).

(** [sum([self.deck] + [hand for player_, hand in self.hands.items()
                         if player_ != player])] *)
Definition jungle (self : t) (player : string) : result vec :=
  foldl (λ acc h, a ← acc; np_op Z.add a h) (Ok (deck self))
        (snd <$> filter (λ kv, kv.1 ≠ player) (map_to_list (hands self))).

(** The species chased away by [action_animal]; [-1] when there is none. *)
Definition fear_animal (self_n_species : nat) (field : vec) (action_animal : nat) : Z :=
  if decide (action_animal = 0) then (Z.of_nat self_n_species - 1)%Z
  else py_max ((Z.of_nat <$> filter (λ idx, idx < action_animal) (np_nonzero field))
               ++ [(-1)%Z]).

Definition apply_deck_draw (self : t) (event : Event) : result t :=
  deck' ← np_iop Z.sub (deck self) (cards event);
  hand ← dict_get (hands self) (who event);
  hand' ← np_iop Z.add hand (cards event);
  Ok (with_hands (with_deck self deck') (<[who event := hand']> (hands self))).

Definition apply_action (self : t) (event : Event) : result t :=
  hand ← dict_get (hands self) (who event);
  hand' ← np_iop Z.sub hand (cards event);
  field' ← np_iop Z.add (field self) (cards event);
  let self := with_field (with_hands self (<[who event := hand']> (hands self))) field' in
  action_animal ← py_getitem (np_nonzero (cards event)) 0;
  count ← py_getitem field' (Z.of_nat action_animal);
  if (3 <=? count)%Z then
    let fear := fear_animal (n_species self) field' action_animal in
    if (0 <=? fear)%Z then
      turn ← whose_turn self;
      score ← dict_get (scoreboard self) turn;
      chased ← py_getitem field' fear;
      Ok (with_field (with_scoreboard self (<[turn := (score + chased)%Z]> (scoreboard self)))
                     (<[Z.to_nat fear := 0%Z]> field'))
    else Ok self
  else Ok self.

Definition apply_event (self : t) (event : Event) : result t :=
  match kind event with
  | kind_deck_draw => apply_deck_draw self event
  | kind_action => apply_action self event
  end.

(** [allowed_actions]: for every species, every count from one up to the
    number held. *)
Definition allowed_actions (self : t) (player : string) : result (list Event) :=
  hand ← dict_get (hands self) player;
  cards_list ← mapM (λ idx,
      held ← py_getitem hand (Z.of_nat idx);
      Ok ((λ n, np_scale n (one_hot idx (n_species self))) <$> py_range 1 (held + 1)))
    (seq 0 (n_species self));
  Ok (mkEvent kind_action player <$> concat cards_list).

(** One pass of the loop of [random_card_draw]. *)
Definition draw_one (self : t) (cs : vec) (r : rng) : result (vec * rng) :=
  w ← np_op Z.sub (deck self) cs;
  let '(u, r') := rng_next r in
  idx ← np_random_choice_p (n_species self) w (np_sum w) u;
  cs' ← np_iop Z.add cs (one_hot idx (n_species self));
  Ok (cs', r').

Fixpoint draw_loop (self : t) (n : nat) (cs : vec) (r : rng) : result (vec * rng) :=
  match n with
  | 0 => Ok (cs, r)
  | S n' => '(cs', r') ← draw_one self cs r; draw_loop self n' cs' r'
  end.

Definition n_to_draw (self : t) (n_hand : Z) : Z :=
  Z.min (max_n_hand self - n_hand) (np_sum (deck self)).

Definition random_card_draw (self : t) (r : rng) : result (Event * rng) :=
  turn ← whose_turn self;
  hand ← dict_get (hands self) turn;
  let n := n_to_draw self (np_sum hand) in
  '(cs, r') ← draw_loop self (Z.to_nat n) (np_zeros (n_species self)) r;
  Ok (mkEvent kind_deck_draw turn cs, r').

End Kariba.

(** ** class Node

    A node refers to its parent and to its children by their index in the
    arena of the tree.  The attributes [action] and [w] exist on post-action
    nodes only; reading an absent attribute raises [AttributeError].  The
    exploration constant [c] is the float [sqrt 2] on every node and is part
    of the parameter [ucb_argmax] below. *)

Module Node.

Record t := mk {
  player : string;
  parent : option nat;
  children : list nat;
  whose_turn : string;
  hand : vec;
  field : vec;
  jungle : vec;
  n : Z;
  is_root_node : bool;
  is_post_action_node : bool;
  untried_actions : option (list Event);
  action : option Event;
  w : option Z;
}.

Definition with_children (self : t) (c : list nat) : t :=
  mk (player self) (parent self) c (whose_turn self) (hand self) (field self)
     (jungle self) (n self) (is_root_node self) (is_post_action_node self)
     (untried_actions self) (action self) (w self).
Definition with_untried_actions (self : t) (u : option (list Event)) : t :=
  mk (player self) (parent self) (children self) (whose_turn self) (hand self)
     (field self) (jungle self) (n self) (is_root_node self)
     (is_post_action_node self) u (action self) (w self).
Definition with_stats (self : t) (n' : Z) (w' : option Z) : t :=
  mk (player self) (parent self) (children self) (whose_turn self) (hand self)
     (field self) (jungle self) n' (is_root_node self)
     (is_post_action_node self) (untried_actions self) (action self) w'.

(** [__init__]; [game] is the snapshot ([copy.deepcopy]) the caller passes. *)
Definition init (game : Kariba.t) (player : string) (event : option Event)
    (parent : option nat) : result t :=
  turn ← Kariba.whose_turn game;
  hand ← dict_get (Kariba.hands game) player;
  jungle ← Kariba.jungle game player;
  let post :=
    match event with
    | Some e => bool_decide (kind e = kind_action) && bool_decide (who e = player)
    | None => false
    end in
  Ok (mk player parent [] turn hand (Kariba.field game) jungle 0%Z
         (bool_decide (parent = None)) post None
         (if post then event else None)
         (if post then Some 0%Z else None)).

(** The body of [backpropagate] on one node, without the call on the parent. *)
Definition visit (self : t) (winner : string) : result t :=
  if is_post_action_node self then
    match w self with
    | Some w0 =>
        Ok (with_stats self (n self + 1)%Z
              (Some (w0 + (if bool_decide (winner = player self) then 1 else 0))%Z))
    | None => Raise AttributeError
    end
  else Ok (with_stats self (n self + 1)%Z (w self)).

End Node.

(** [is_equivalent_node]; the second conjunct compares [node_a] with itself,
    as the source does. *)
Definition is_equivalent_node (node_a node_b : Node.t) : bool :=
  bool_decide (Node.player node_a = Node.player node_b)
  && bool_decide (Node.is_post_action_node node_a = Node.is_post_action_node node_a)
  && bool_decide (Node.hand node_a = Node.hand node_b)
  && bool_decide (Node.field node_a = Node.field node_b)
  && bool_decide (Node.jungle node_a = Node.jungle node_b).

(** ** class Tree

    [self.game] is the game object of the coordinator (it is assigned by
    reference in [__init__] and again in [Simulators.reset_game]); the
    methods that read it take the coordinator's game as the argument
    [game]. *)

Module Tree.

Record t := mk {
  player : string;
  nodes : list Node.t;
  root_node : nat;
  current_node : nat;
  is_on_rollout_policy : bool;
}.

Definition with_nodes (self : t) (l : list Node.t) : t :=
  mk (player self) l (root_node self) (current_node self) (is_on_rollout_policy self).
Definition with_current_node (self : t) (i : nat) : t :=
  mk (player self) (nodes self) (root_node self) i (is_on_rollout_policy self).
Definition with_is_on_rollout_policy (self : t) (b : bool) : t :=
  mk (player self) (nodes self) (root_node self) (current_node self) b.

Definition get_node (l : list Node.t) (i : nat) : result Node.t :=
  match l !! i with
  | Some x => Ok x
  | None => Stuck
  end.

Definition init (game : Kariba.t) (player : string) : result t :=
  root ← Node.init game player None None;
  Ok (mk player [root] 0 0 false).

(** The loop of [apply_event] over [[self.current_node, *children]]: the
    first node that is equivalent to [new_node]. *)
Fixpoint find_equivalent (l : list Node.t) (new_node : Node.t)
    (candidates : list nat) : result (option nat) :=
  match candidates with
  | [] => Ok None
  | i :: rest =>
      existing_node ← get_node l i;
      if is_equivalent_node existing_node new_node then Ok (Some i)
      else find_equivalent l new_node rest
  end.

Definition apply_event (self : t) (game : Kariba.t) (event : Event) : result t :=
  if is_on_rollout_policy self then Ok self
  else
    new_node ← Node.init game (player self) (Some event) (Some (current_node self));
    cur ← get_node (nodes self) (current_node self);
    found ← find_equivalent (nodes self) new_node (current_node self :: Node.children cur);
    match found with
    | Some i => Ok (with_current_node self i)
    | None =>
        let fresh := length (nodes self) in
        let cur' := Node.with_children cur (Node.children cur ++ [fresh]) in
        Ok (mk (player self)
               (<[current_node self := cur']> (nodes self) ++ [new_node])
               (root_node self) fresh true)
    end.

(** [Node.backpropagate] from node [i] up to the root.  The recursion follows
    the parent references; [fuel] bounds their number. *)
Fixpoint backpropagate_from (fuel : nat) (l : list Node.t) (i : nat)
    (winner : string) : result (list Node.t) :=
  match fuel with
  | 0 => Stuck
  | S fuel' =>
      node ← get_node l i;
      node' ← Node.visit node winner;
      let l' := <[i := node']> l in
      match Node.parent node with
      | Some p => backpropagate_from fuel' l' p winner
      | None => Ok l'
      end
  end.

Definition backpropagate (self : t) (winner : string) : result t :=
  l ← backpropagate_from (length (nodes self)) (nodes self) (current_node self) winner;
  Ok (with_nodes self l).

(** [select_action(return_best_action=True)]: the action of the child of
    the current node with the highest number of visits. *)
Definition select_best_action (self : t) : result Event :=
  cur ← get_node (nodes self) (current_node self);
  visits ← mapM (λ c, child ← get_node (nodes self) c; Ok (Node.n child)) (Node.children cur);
  i ← np_argmax visits;
  c ← py_getitem (Node.children cur) (Z.of_nat i);
  child ← get_node (nodes self) c;
  match Node.action child with
  | Some e => Ok e
  | None => Raise AttributeError
  end.

Section Select.

(** The UCB score [w / n + c * sqrt (2 * log parent.n / n)] is a float.  The
    index that [np.argmax] returns on the scores of the children is the
    parameter [ucb_argmax]; it receives [(w, n, parent.n)] of each child. *)
Variable ucb_argmax : list (Z * Z * Z) → nat.

(** [child.ucb]: [None] on a neutral node (the property returns nothing),
    [ZeroDivisionError] from [self.w / self.n] when the child has no visit. *)
Definition ucb (l : list Node.t) (child : Node.t) : result (option (Z * Z * Z)) :=
  if Node.is_post_action_node child then
    match Node.w child with
    | None => Raise AttributeError
    | Some w0 =>
        if decide (Node.n child = 0%Z) then Raise ZeroDivisionError
        else match Node.parent child with
             | None => Raise AttributeError
             | Some p => par ← get_node l p; Ok (Some (w0, Node.n child, Node.n par))
             end
    end
  else Ok None.

(** [np.argmax] on the list of scores.  With a [None] among several scores
    the comparison of numpy raises [TypeError]. *)
Definition argmax_ucb (scores : list (option (Z * Z * Z))) : result nat :=
  match scores with
  | [] => Raise (ValueError "attempt to get an argmax of an empty sequence")
  | [None] => Ok 0
  | _ =>
      match mapM id scores with
      | Some l => Ok (ucb_argmax l)
      | None => Raise TypeError
      end
  end.

(** [select_action(return_best_action=False)]. *)
Definition select_action (self : t) (game : Kariba.t) (r : rng)
    : result (Event * t * rng) :=
  if is_on_rollout_policy self then
    acts ← Kariba.allowed_actions game (player self);
    let '(u, r') := rng_next r in
    e ← np_random_choice acts u;
    Ok (e, self, r')
  else
    cur ← get_node (nodes self) (current_node self);
    '(cur, r) ←
      match Node.untried_actions cur, Node.children cur with
      | None, [] =>
          acts ← Kariba.allowed_actions game (player self);
          let '(acts', r') := random_shuffle acts r in
          Ok (Node.with_untried_actions cur (Some acts'), r')
      | _, _ => Ok (cur, r)
      end;
    match Node.untried_actions cur with
    | None => Raise TypeError
    | Some untried =>
        match last untried with
        | Some e =>
            let cur' := Node.with_untried_actions cur (Some (removelast untried)) in
            Ok (e, with_nodes self (<[current_node self := cur']> (nodes self)), r)
        | None =>
            let self := with_nodes self (<[current_node self := cur]> (nodes self)) in
            scores ← mapM (λ c, child ← get_node (nodes self) c; ucb (nodes self) child)
                          (Node.children cur);
            i ← argmax_ucb scores;
            c ← py_getitem (Node.children cur) (Z.of_nat i);
            child ← get_node (nodes self) c;
            match Node.action child with
            | Some e => Ok (e, self, r)
            | None => Raise AttributeError
            end
        end
    end.

End Select.

End Tree.

(** ** class Simulators

    [tree_dict] is filled in the order of [player_names]; [self.trees] is
    the view [tree_dict.values()] of the same trees. *)

Module Simulators.

Record t := mk {
  reset_state : Kariba.t;
  game : Kariba.t;
  tree_dict : list (string * Tree.t);
}.

Definition with_game (self : t) (g : Kariba.t) : t :=
  mk (reset_state self) g (tree_dict self).
Definition with_tree_dict (self : t) (d : list (string * Tree.t)) : t :=
  mk (reset_state self) (game self) d.

(** [d[k]] and [d[k] = v] on the dict of trees. *)
Fixpoint lookup_tree (d : list (string * Tree.t)) (k : string) : result Tree.t :=
  match d with
  | [] => Raise KeyError
  | (k', v) :: d' => if decide (k' = k) then Ok v else lookup_tree d' k
  end.

Fixpoint update_tree (d : list (string * Tree.t)) (k : string) (v : Tree.t)
    : list (string * Tree.t) :=
  match d with
  | [] => []
  | (k', v') :: d' =>
      if decide (k' = k) then (k', v) :: d' else (k', v') :: update_tree d' k v
  end.

(** Apply a method to every tree of the dict, in order. *)
Definition each_tree (f : Tree.t → result Tree.t) (d : list (string * Tree.t))
    : result (list (string * Tree.t)) :=
  mapM (λ kv, v ← f kv.2; Ok (kv.1, v)) d.

(** [__init__]: the dict comprehension builds a tree for every name of
    [player_names]; a repeated name keeps one entry, at the place of its
    first occurrence, and the trees built for it are equal. *)
Definition init (game : Kariba.t) : result t :=
  d ← mapM (λ player, tree ← Tree.init game player; Ok (player, tree))
           (dict_keys (Kariba.player_names game));
  Ok (mk game game d).

Definition whose_turn (self : t) : result string := Kariba.whose_turn (game self).

Definition random_card_draw (self : t) (r : rng) : result (Event * rng) :=
  Kariba.random_card_draw (game self) r.

Definition reset_tree (tree : Tree.t) : Tree.t :=
  Tree.mk (Tree.player tree) (Tree.nodes tree) (Tree.root_node tree)
          (Tree.root_node tree) false.

Definition reset_game (self : t) : t :=
  mk (reset_state self) (reset_state self)
     (prod_map id reset_tree <$> tree_dict self).

Definition apply_event (self : t) (event : Event) : result t :=
  game' ← Kariba.apply_event (game self) event;
  d ← each_tree (λ tree, Tree.apply_event tree game' event) (tree_dict self);
  Ok (mk (reset_state self) game' d).

Definition next_turn (self : t) : result t :=
  game' ← Kariba.next_turn (game self);
  Ok (with_game self game').

Definition backpropagate (self : t) (winner : string) : result t :=
  d ← each_tree (λ tree, Tree.backpropagate tree winner) (tree_dict self);
  Ok (with_tree_dict self d).

Section Select.

Variable ucb_argmax : list (Z * Z * Z) → nat.

Definition select_action (self : t) (r : rng) : result (Event * t * rng) :=
  turn ← whose_turn self;
  tree ← lookup_tree (tree_dict self) turn;
  '(e, tree', r') ← Tree.select_action ucb_argmax tree (game self) r;
  Ok (e, with_tree_dict self (update_tree (tree_dict self) turn tree'), r').

Definition select_best_action (self : t) : result Event :=
  turn ← whose_turn self;
  tree ← lookup_tree (tree_dict self) turn;
  Tree.select_best_action tree.

End Select.

End Simulators.

(** ** moismcts *)

Section Search.

Variable ucb_argmax : list (Z * Z * Z) → nat.

(** One turn of a simulated game: the body of the [while] loop. *)
Definition play_turn (simulators : Simulators.t) (r : rng)
    : result (Simulators.t * rng) :=
  '(draw, r) ← Simulators.random_card_draw simulators r;
  simulators ← Simulators.apply_event simulators draw;
  '(act, simulators, r) ← Simulators.select_action ucb_argmax simulators r;
  simulators ← Simulators.apply_event simulators act;
  simulators ← Simulators.next_turn simulators;
  Ok (simulators, r).

(** [while not simulators.game.is_final: ...], at most [fuel] turns. *)
Fixpoint play_game (fuel : nat) (simulators : Simulators.t) (r : rng)
    : result (Simulators.t * rng) :=
  final ← Kariba.is_final (Simulators.game simulators);
  if final : bool then Ok (simulators, r)
  else match fuel with
       | 0 => Stuck
       | S fuel' =>
           '(simulators, r) ← play_turn simulators r;
           play_game fuel' simulators r
       end.

(** One pass of the [for] loop. *)
Definition iteration (fuel : nat) (simulators : Simulators.t) (r : rng)
    : result (Simulators.t * rng) :=
  '(simulators, r) ← play_game fuel simulators r;
  winner ← Kariba.leading_player (Simulators.game simulators);
  simulators ← Simulators.backpropagate simulators winner;
  Ok (Simulators.reset_game simulators, r).

Fixpoint iterations (fuel : nat) (n : nat) (simulators : Simulators.t) (r : rng)
    : result (Simulators.t * rng) :=
  match n with
  | 0 => Ok (simulators, r)
  | S n' =>
      '(simulators, r) ← iteration fuel simulators r;
      iterations fuel n' simulators r
  end.

(** [moismcts(root_state, n)]; [fuel] bounds the turns of each simulated
    game. *)
Definition moismcts (fuel : nat) (root_state : Kariba.t) (n : nat) (r : rng)
    : result Event :=
  simulators ← Simulators.init root_state;
  '(simulators, _) ← iterations fuel n simulators r;
  Simulators.select_best_action simulators.

End Search.

(** ** Sample runs *)

Definition const_rng (k : nat) : rng := λ _, k.
Definition list_rng (l : list nat) : rng := λ i, nth i l 0.

(** The root of the end-to-end scenario: two species, two players, hand
    capacity two, deck [[4,4]]. *)
Definition root44 : Kariba.t :=
  Kariba.init (Some [4; 4]%Z) 0 ["player0"; "player1"] 2 2.


(** A position after the deal: [player0] holds a full hand, [player1] one
    card, the deck the remaining five. *)
Definition dealt : Kariba.t :=
  Kariba.with_hands (Kariba.with_deck root44 [2; 3]%Z)
    (<["player0" := [1; 1]%Z]> (<["player1" := [1; 0]%Z]> ∅)).

Definition play0 : Event := mkEvent kind_action "player0" [1; 0]%Z.
Definition draw1 : Event := mkEvent kind_deck_draw "player1" [0; 1]%Z.
Definition draw_nothing : Event := mkEvent kind_deck_draw "player0" [0; 0]%Z.

(** ** Notions used by the statements *)

(** [i] is the first position of a maximal element of [l]. *)
Definition is_first_max (l : list Z) (i : nat) : Prop :=
  ∃ x, l !! i = Some x
       ∧ (∀ j y, l !! j = Some y → (y ≤ x)%Z)
       ∧ (∀ j y, j < i → l !! j = Some y → (y < x)%Z).

(** The visit counts of the children [cs], read in the arena [l]. *)
Definition visits_of (l : list Node.t) (cs : list nat) (vs : list Z) : Prop :=
  Forall2 (λ c v, ∃ child, l !! c = Some child ∧ Node.n child = v) cs vs.

(** The tree of [player0] after one iteration from [root44]: the only event
    at the root was the first draw, so the child of the root is neutral. *)
Definition tree_after_draw : Tree.t :=
  Tree.mk "player0"
    [Node.mk "player0" None [1] "player0" [0; 0]%Z [0; 0]%Z [4; 4]%Z 1 true false
             None None None;
     Node.mk "player0" (Some 0) [] "player0" [2; 0]%Z [0; 0]%Z [2; 4]%Z 1 false false
             None None None]
    0 0 false.

(** The tree of [player0] built on [dealt]. *)
Definition dealt_root_node : Node.t :=
  Node.mk "player0" None [] "player0" [1; 1]%Z [0; 0]%Z [3; 3]%Z 0 true false
          None None None.
Definition dealt_tree : Tree.t := Tree.mk "player0" [dealt_root_node] 0 0 false.

(** Every count vector of the state has one entry per species. *)
Definition shaped (g : Kariba.t) : Prop :=
  length (Kariba.deck g) = Kariba.n_species g
  ∧ length (Kariba.field g) = Kariba.n_species g
  ∧ ∀ p h, Kariba.hands g !! p = Some h → length h = Kariba.n_species g.

(** The players of [player_names] are the keys of [hands] and of
    [scoreboard] (as [__init__] sets them up) and the turn index denotes one
    of them. *)
Definition seated (g : Kariba.t) : Prop :=
  (∀ p, p ∈ Kariba.player_names g ↔ is_Some (Kariba.hands g !! p))
  ∧ (∀ p, p ∈ Kariba.player_names g ↔ is_Some (Kariba.scoreboard g !! p))
  ∧ (0 ≤ Kariba.whose_turn_ g < Kariba.n_players g)%Z.

(** The cards [cs] are all of species [a]. *)
Definition single_species (n_species : nat) (cs : vec) (a : nat) : Prop :=
  length cs = n_species
  ∧ (∃ k, cs !! a = Some k ∧ k ≠ 0%Z)
  ∧ ∀ j y, j ≠ a → cs !! j = Some y → y = 0%Z.

(** [f] is the nearest species below [a] with cards on the field. *)
Definition nearest_lower_nonzero (field : vec) (a f : nat) : Prop :=
  f < a
  ∧ (∃ x, field !! f = Some x ∧ x ≠ 0%Z)
  ∧ ∀ g y, f < g < a → field !! g = Some y → y = 0%Z.

Definition no_lower_nonzero (field : vec) (a : nat) : Prop :=
  ∀ g y, g < a → field !! g = Some y → y = 0%Z.


(** The hand-to-field move of an action, without any chase. *)
Definition moved_state (g : Kariba.t) (who : string) (hand cs : vec) : Kariba.t :=
  Kariba.with_field
    (Kariba.with_hands g (<[who := zip_with Z.sub hand cs]> (Kariba.hands g)))
    (zip_with Z.add (Kariba.field g) cs).

(** The quantity that the game conserves: cards in the deck, on the field,
    in the hands, and cards scored. *)
Definition hands_total (h : gmap string (list Z)) : Z :=
  map_fold (λ _ v acc, (np_sum v + acc)%Z) 0%Z h.
Definition scores_total (s : gmap string Z) : Z :=
  map_fold (λ _ v acc, (v + acc)%Z) 0%Z s.

(** The steps that change the game during a simulated game. *)
Inductive game_step :=
| step_event (e : Event)
| step_next_turn.

Definition run_step (g : Kariba.t) (s : game_step) : result Kariba.t :=
  match s with
  | step_event e => Kariba.apply_event g e
  | step_next_turn => Kariba.next_turn g
  end.

Fixpoint run_steps (g : Kariba.t) (l : list game_step) : result Kariba.t :=
  match l with
  | [] => Ok g
  | s :: l' => g' ← run_step g s; run_steps g' l'
  end.



(** [a ≤ b] entry by entry. *)
Definition vec_le (a b : vec) : Prop := Forall2 Z.le a b.

(** A state whose deck is used up while [player0] holds one card. *)
Definition depleted : Kariba.t :=
  Kariba.mk 2 2 0 ["player0"; "player1"] [0; 0]%Z [3; 3]%Z
    (<["player0" := [1; 0]%Z]> (<["player1" := [0; 1]%Z]> ∅))
    (<["player0" := 0%Z]> (<["player1" := 0%Z]> ∅)).

(** How a tree [t] stands in a simulated game that it began as [t0]: it is
    still selecting and has the nodes it began with, or it is rolling out
    and has one node more. *)
Definition game_progress (t0 t : Tree.t) : Prop :=
  (Tree.is_on_rollout_policy t = false
   ∧ length (Tree.nodes t) = length (Tree.nodes t0))
  ∨ (Tree.is_on_rollout_policy t = true
     ∧ length (Tree.nodes t) = S (length (Tree.nodes t0))).

(** Two dicts of trees with the same players, related tree by tree. *)
Definition all_trees (R : Tree.t → Tree.t → Prop) (d d' : list (string * Tree.t)) : Prop :=
  Forall2 (λ kv kv', kv'.1 = kv.1 ∧ R kv.2 kv'.2) d d'.

Definition all_selecting (d : list (string * Tree.t)) : Prop :=
  Forall (λ kv, Tree.is_on_rollout_policy kv.2 = false) d.

(** The size and the mode of every tree. *)
Definition tree_sizes (s : Simulators.t) : list (string * nat * bool) :=
  (λ kv, (kv.1, length (Tree.nodes kv.2), Tree.is_on_rollout_policy kv.2))
    <$> Simulators.tree_dict s.

(** The argmax over UCB scores that answers the first child; on a single
    child every argmax does. *)
Definition first_child : list (Z * Z * Z) → nat := λ _, 0.

(** The coordinator built on [root44]. *)
Definition root44_node (player : string) : Node.t :=
  Node.mk player None [] "player0" [0; 0]%Z [0; 0]%Z [4; 4]%Z 0 true false
          None None None.
Definition sims_root44 : Simulators.t :=
  Simulators.mk root44 root44
    [("player0", Tree.mk "player0" [root44_node "player0"] 0 0 false);
     ("player1", Tree.mk "player1" [root44_node "player1"] 0 0 false)].

(** ** The search from a dealt position

    The notions below describe the states that [moismcts] goes through when
    it starts from a position in which the first draw is empty. *)

(** [allowed_actions] as a function of the hand. *)
Definition actions_of_hand (n_species : nat) (player : string) (hand : vec) : list Event :=
  mkEvent kind_action player <$>
    concat ((λ idx, (λ n, np_scale n (one_hot idx n_species))
                      <$> py_range 1 (hand !!! idx + 1)) <$> seq 0 n_species).

(** The jungle of [p], entry by entry. *)
Definition others_at (hands : gmap string (list Z)) (p : string) (i : nat) : Z :=
  map_fold (λ q h acc, if decide (q = p) then acc else (h !!! i + acc)%Z) 0%Z hands.

Definition jungle_vec (g : Kariba.t) (p : string) : vec :=
  (λ i, (Kariba.deck g !!! i + others_at (Kariba.hands g) p i)%Z)
    <$> seq 0 (Kariba.n_species g).

(** What every player knows of a state: whose turn it is and how many cards
    the deck and each hand hold. *)
Record sizes := mkSizes {
  sz_turn : Z;
  sz_deck : Z;
  sz_hands : gmap string Z;
}.

Definition sizes_of (g : Kariba.t) : sizes :=
  mkSizes (Kariba.whose_turn_ g) (np_sum (Kariba.deck g)) (np_sum <$> Kariba.hands g).

Definition hand_size (z : sizes) (q : string) : Z := default 0%Z (sz_hands z !! q).

Definition total_size (z : sizes) : Z := (sz_deck z + scores_total (sz_hands z))%Z.

Definition turn_name (g0 : Kariba.t) (z : sizes) : string :=
  default ""%string (Kariba.player_names g0 !! Z.to_nat (sz_turn z)).

(** The number of cards that the player on turn draws. *)
Definition draw_count (g0 : Kariba.t) (z : sizes) : Z :=
  Z.max 0 (Z.min (Kariba.max_n_hand g0 - hand_size z (turn_name g0 z)) (sz_deck z)).

(** The sizes after the draw, after an action with [k] cards, and after the
    change of turn. *)
Definition after_draw (g0 : Kariba.t) (z : sizes) : sizes :=
  mkSizes (sz_turn z) (sz_deck z - draw_count g0 z)
    (<[turn_name g0 z := (hand_size z (turn_name g0 z) + draw_count g0 z)%Z]> (sz_hands z)).

Definition played (g0 : Kariba.t) (z : sizes) (k : Z) : sizes :=
  mkSizes (sz_turn z) (sz_deck z)
    (<[turn_name g0 z := (hand_size z (turn_name g0 z) - k)%Z]> (sz_hands z)).

Definition turned (g0 : Kariba.t) (z : sizes) : sizes :=
  mkSizes ((sz_turn z + 1) `mod` Z.of_nat (length (Kariba.player_names g0)))
    (sz_deck z) (sz_hands z).

(** A state of a game that started from [g0]. *)
Definition game_ok (g0 g : Kariba.t) : Prop :=
  Kariba.n_species g = Kariba.n_species g0
  ∧ Kariba.max_n_hand g = Kariba.max_n_hand g0
  ∧ Kariba.player_names g = Kariba.player_names g0
  ∧ shaped g ∧ seated g
  ∧ Forall (λ x, 0 ≤ x)%Z (Kariba.deck g)
  ∧ ∀ q h, Kariba.hands g !! q = Some h → Forall (λ x, 0 ≤ x)%Z h.

(** The cards that can still be played. *)
Definition cards_in_play (g : Kariba.t) : Z :=
  (np_sum (Kariba.deck g) + hands_total (Kariba.hands g))%Z.

(** A root with distinct players, a hand capacity of at least one card, that
    is not final, and on which the player on turn has no card to draw (the
    hand is at capacity or the deck is empty). *)
Definition dealt_root (g0 : Kariba.t) : Prop :=
  game_ok g0 g0
  ∧ NoDup (Kariba.player_names g0)
  ∧ (1 ≤ Kariba.max_n_hand g0)%Z
  ∧ Kariba.is_final g0 = Ok false
  ∧ draw_count g0 (sizes_of g0) = 0%Z.

(** *** What a tree records about the game

    The nodes of a tree do not store the sizes of the deck and of the other
    hands, but the path to a node determines them.  The invariant of a tree
    assigns to every node its [ghost]: the sizes of the state in which the
    cursor reaches the node, and whether the next event is then the draw or
    the action of the player on turn. *)

Inductive phase := ph_draw | ph_act.

#[global] Instance phase_eq_dec : EqDecision phase.
Proof. solve_decision. Defined.

Abbreviation ghost := (sizes * phase)%type.

(** The sizes in which the next action takes place. *)
Definition act_sizes (g0 : Kariba.t) (G : ghost) : sizes :=
  match G.2 with
  | ph_act => G.1
  | ph_draw => after_draw g0 G.1
  end.



Definition ghost_ok (g0 : Kariba.t) (G : ghost) : Prop :=
  (∀ q, q ∈ Kariba.player_names g0 ↔ is_Some (sz_hands G.1 !! q))
  ∧ (0 ≤ sz_turn G.1 < Z.of_nat (length (Kariba.player_names g0)))%Z.














(** The arena [l'] is [l] but for the statistics [n] and [w] of its nodes;
    no count of visits went down and no reward was lost. *)
Definition stats_ext (l l' : list Node.t) : Prop :=
  length l' = length l
  ∧ ∀ i nd, l !! i = Some nd →
      ∃ n' w', l' !! i = Some (Node.with_stats nd n' w')
               ∧ (Node.n nd ≤ n')%Z ∧ (is_Some (Node.w nd) → is_Some w').

(** Two dicts of trees with the same players, related tree by tree by a
    relation that may depend on the player. *)
Definition trees_rel (R : string → Tree.t → Tree.t → Prop)
    (d d' : list (string * Tree.t)) : Prop :=
  Forall2 (λ kv kv', kv'.1 = kv.1 ∧ R kv.1 kv.2 kv'.2) d d'.


(** The nodes from [i] up to the root, along the parent references; [fuel]
    bounds their number. *)
Fixpoint path_to_root (fuel : nat) (l : list Node.t) (i : nat) : list nat :=
  match fuel with
  | 0 => []
  | S fuel' =>
      i :: match l !! i with
           | Some nd =>
               match Node.parent nd with
               | Some p => path_to_root fuel' l p
               | None => []
               end
           | None => []
           end
  end.

(** The parent of a node comes before it in the arena, and a post-action
    node has a reward: so it is in every arena that [Tree.apply_event]
    builds. *)
Definition linked (l : list Node.t) : Prop :=
  ∀ j nd, l !! j = Some nd →
    match Node.parent nd with Some k => k < j | None => True end
    ∧ (Node.is_post_action_node nd = true → is_Some (Node.w nd)).

(** The nodes of [l] are in [l'] with the statistics [n] and [w] they have
    in [l]. *)
Definition same_stats (l l' : list Node.t) : Prop :=
  ∀ j nd, l !! j = Some nd →
    ∃ nd', l' !! j = Some nd' ∧ Node.n nd' = Node.n nd ∧ Node.w nd' = Node.w nd.

(** The reward of a node counts visits of the node: it lies between zero
    and [n]. *)
Definition stats_ok (nd : Node.t) : Prop :=
  (0 ≤ Node.n nd)%Z ∧ ∀ w, Node.w nd = Some w → (0 ≤ w ≤ Node.n nd)%Z.

(** What a simulated game keeps of a tree [t0]. *)
Definition game_keeps (t0 t : Tree.t) : Prop :=
  same_stats (Tree.nodes t0) (Tree.nodes t)
  ∧ (Forall stats_ok (Tree.nodes t0) → Forall stats_ok (Tree.nodes t)).

(** What [k] iterations of the search make of a tree [t0]: [k] more visits
    of its root, and rewards that still count visits. *)
Definition visited_times (k : Z) (t0 t : Tree.t) : Prop :=
  (∀ root, Tree.nodes t0 !! 0 = Some root →
     ∃ root', Tree.nodes t !! 0 = Some root' ∧ Node.n root' = (Node.n root + k)%Z)
  ∧ (Forall stats_ok (Tree.nodes t0) → Forall stats_ok (Tree.nodes t)).

(** The links of a tree are consistent: the arena is [linked], every child
    of a node is a node of the arena whose parent is that node, and the
    cursor and the root denote nodes. *)
Definition tree_wf (t : Tree.t) : Prop :=
  linked (Tree.nodes t)
  ∧ (∀ j nd c, Tree.nodes t !! j = Some nd → c ∈ Node.children nd →
       ∃ ndc, Tree.nodes t !! c = Some ndc ∧ Node.parent ndc = Some j)
  ∧ Tree.current_node t < length (Tree.nodes t)
  ∧ Tree.root_node t < length (Tree.nodes t).
(** * Properties *)

(** ** The result monad *)

Lemma bind_Ok {A B} (f : A → result B) (m : result A) (b : B) :
  m ≫= f = Ok b ↔ ∃ a, m = Ok a ∧ f a = Ok b.
Proof.
  destruct m as [a|e|]; simpl; split.
  - eauto.
  - by intros (a' & [= <-] & ?).
  - done.
  - by intros (? & ? & ?).
  - done.
  - by intros (? & ? & ?).
Qed.

Lemma bind_ret_l {A B} (a : A) (f : A → result B) : Ok a ≫= f = f a.
Proof. done. Qed.

Lemma bind_Ok_l {A B} (f : A → result B) (m : result A) (a : A) :
  m = Ok a → m ≫= f = f a.
Proof. by intros ->. Qed.

Lemma mapM_Ok {A B} (f : A → result B) (l : list A) (k : list B) :
  mapM f l = Ok k ↔ Forall2 (λ x y, f x = Ok y) l k.
Proof.
  revert k. induction l as [|x l IH]; intros k; simpl.
  - split; [intros [= <-]; constructor | by inversion 1].
  - split.
    + intros (y & Hy & H)%bind_Ok. apply bind_Ok in H as (k' & Hk & [= <-]).
      constructor; [done | by apply IH].
    + inversion 1 as [|? y ? k' Hy Hk]; subst.
      rewrite Hy. simpl. apply IH in Hk. by rewrite Hk.
Qed.

(** Invert [H : (x ← m; k) = Ok b], naming the intermediate value. *)
Ltac inv_bind H x Hx :=
  apply bind_Ok in H as (x & Hx & H).

Lemma dict_get_Ok {V} (d : gmap string V) k v : dict_get d k = Ok v ↔ d !! k = Some v.
Proof. unfold dict_get. destruct (d !! k); naive_solver. Qed.

Lemma py_getitem_nat {A} (l : list A) (i : nat) (x : A) :
  py_getitem l (Z.of_nat i) = Ok x ↔ l !! i = Some x.
Proof.
  unfold py_getitem.
  destruct (Z.ltb_spec (Z.of_nat i) 0); [lia|].
  destruct (Z.ltb_spec (Z.of_nat i) 0); [lia|].
  rewrite Nat2Z.id. destruct (l !! i); naive_solver.
Qed.

Lemma py_getitem_nonneg {A} (l : list A) (i : Z) (x : A) :
  (0 ≤ i)%Z → py_getitem l i = Ok x ↔ l !! Z.to_nat i = Some x.
Proof.
  intros Hi. rewrite <- (Z2Nat.id i) at 1 by done. apply py_getitem_nat.
Qed.

(** ** Count vectors *)

Lemma np_iop_same_length f (a b : vec) :
  length a = length b → np_iop f a b = Ok (zip_with f a b).
Proof. intros H. unfold np_iop. by rewrite decide_True. Qed.

Lemma np_op_same_length f (a b : vec) :
  length a = length b → np_op f a b = Ok (zip_with f a b).
Proof. intros H. unfold np_op. by rewrite decide_True. Qed.


Lemma np_sum_cons x (v : vec) : np_sum (x :: v) = (x + np_sum v)%Z.
Proof. done. Qed.

#[global] Arguments np_sum : simpl never.

Lemma np_sum_app (u v : vec) : np_sum (u ++ v) = (np_sum u + np_sum v)%Z.
Proof.
  induction u as [|x u IH]; [done|].
  rewrite <- app_comm_cons, !np_sum_cons, IH. lia.
Qed.

Lemma np_sum_zeros n : np_sum (np_zeros n) = 0%Z.
Proof.
  induction n as [|n IH]; [done|].
  change (np_zeros (S n)) with (0%Z :: np_zeros n). rewrite np_sum_cons. lia.
Qed.

Lemma np_sum_zip_add (a b : vec) :
  length a = length b → np_sum (zip_with Z.add a b) = (np_sum a + np_sum b)%Z.
Proof.
  revert b. induction a as [|x a IH]; intros [|y b] [=]; [done|].
  cbn [zip_with]. rewrite !np_sum_cons, IH by done. lia.
Qed.

Lemma np_sum_zip_sub (a b : vec) :
  length a = length b → np_sum (zip_with Z.sub a b) = (np_sum a - np_sum b)%Z.
Proof.
  revert b. induction a as [|x a IH]; intros [|y b] [=]; [done|].
  cbn [zip_with]. rewrite !np_sum_cons, IH by done. lia.
Qed.

Lemma np_sum_fmap_add (a : vec) y :
  np_sum ((λ x, x + y)%Z <$> a) = (np_sum a + Z.of_nat (length a) * y)%Z.
Proof.
  induction a as [|x a IH]; [simpl; lia|].
  rewrite fmap_cons, !np_sum_cons, IH. simpl length. lia.
Qed.


Lemma np_sum_insert (v : vec) i x y :
  v !! i = Some x → np_sum (<[i := y]> v) = (np_sum v - x + y)%Z.
Proof.
  revert i. induction v as [|z v IH]; intros [|i] H; simplify_eq/=.
  - rewrite !np_sum_cons. lia.
  - rewrite !np_sum_cons, (IH i) by done. lia.
Qed.

(** What [a += b] and [a -= b] do to the sum, whatever the shape of [b]. *)
Lemma np_iop_add_sum (a b c : vec) :
  np_iop Z.add a b = Ok c →
  ∃ k, np_sum c = (np_sum a + k)%Z ∧
       ∀ a' c', length a' = length a → np_iop Z.add a' b = Ok c' →
                np_sum c' = (np_sum a' + k)%Z.
Proof.
  unfold np_iop. case_decide as Hl.
  - intros [= <-]. exists (np_sum b). split; [by apply np_sum_zip_add|].
    intros a' c' Hl'. rewrite decide_True by congruence.
    intros [= <-]. apply np_sum_zip_add. congruence.
  - destruct b as [|y [|??]]; try done. intros [= <-].
    exists (Z.of_nat (length a) * y)%Z. split; [apply np_sum_fmap_add|].
    intros a' c' Hl'. rewrite decide_False by (simpl in *; congruence).
    intros [= <-]. rewrite np_sum_fmap_add. by rewrite Hl'.
Qed.


(** ** Information-set equivalence *)

(** What [is_equivalent_node] decides: the post-action flag plays no part. *)
Lemma is_equivalent_node_true (a b : Node.t) :
  is_equivalent_node a b = true ↔
  Node.player a = Node.player b ∧ Node.hand a = Node.hand b
  ∧ Node.field a = Node.field b ∧ Node.jungle a = Node.jungle b.
Proof.
  unfold is_equivalent_node.
  rewrite !andb_true_iff, !bool_decide_eq_true. tauto.
Qed.

Lemma is_equivalent_node_refl (a : Node.t) : is_equivalent_node a a = true.
Proof. by apply is_equivalent_node_true. Qed.

(** C3 (the code departs from the claim).  [player0] plays a card, which
    gives a post-action node in the tree of [player0]; then [player1] draws a
    card, which gives a neutral candidate with the same hand, field and
    jungle.  The two nodes differ in [is_post_action_node], and
    [is_equivalent_node] answers [True]. *)
Theorem is_equivalent_node_ignores_post_action_flag :
  (g1 ← Kariba.apply_event dealt play0;
   post ← Node.init g1 "player0" (Some play0) (Some 0);
   g2 ← Kariba.next_turn g1;
   g3 ← Kariba.apply_event g2 draw1;
   neutral ← Node.init g3 "player0" (Some draw1) (Some 1);
   Ok (Node.is_post_action_node post, Node.is_post_action_node neutral,
       is_equivalent_node post neutral))
  = Ok (true, false, true).
Proof. vm_compute. reflexivity. Qed.

(** ** [select_action(return_best_action=True)] *)

Lemma is_first_max_snoc_lt (p : list Z) besti best x :
  is_first_max p besti → p !! besti = Some best → (best < x)%Z →
  is_first_max (p ++ [x]) (length p).
Proof.
  intros (b & Hb & Hmax & Hfirst) Hbest Hlt.
  rewrite Hb in Hbest. injection Hbest as ->.
  exists x. split; [by rewrite lookup_app_r, Nat.sub_diag|].
  split.
  - intros j y Hj. apply lookup_app_Some in Hj as [Hj|[_ Hj]].
    + specialize (Hmax _ _ Hj). lia.
    + apply list_lookup_singleton_Some in Hj as [_ ->]. lia.
  - intros j y Hji Hj. rewrite lookup_app_l in Hj by done.
    specialize (Hmax _ _ Hj). lia.
Qed.

Lemma is_first_max_snoc_ge (p : list Z) besti best x :
  is_first_max p besti → p !! besti = Some best → (x ≤ best)%Z →
  is_first_max (p ++ [x]) besti.
Proof.
  intros (b & Hb & Hmax & Hfirst) Hbest Hle.
  rewrite Hb in Hbest. injection Hbest as ->.
  exists best. split; [by apply lookup_app_l_Some|].
  split.
  - intros j y Hj. apply lookup_app_Some in Hj as [Hj|[_ Hj]].
    + eauto.
    + apply list_lookup_singleton_Some in Hj as [_ ->]. lia.
  - intros j y Hji Hj. apply lookup_lt_Some in Hb.
    rewrite lookup_app_l in Hj by lia. eauto.
Qed.

Lemma argmax_from_first_max (l p : list Z) best besti :
  is_first_max p besti → p !! besti = Some best →
  is_first_max (p ++ l) (argmax_from best besti (length p) l).
Proof.
  revert p best besti. induction l as [|x l IH]; intros p best besti Hp Hbest.
  - by rewrite app_nil_r.
  - simpl. rewrite (cons_middle x p l), app_assoc.
    replace (S (length p)) with (length (p ++ [x])) by (rewrite length_app; simpl; lia).
    destruct (Z.ltb_spec best x).
    + apply IH; [by eapply is_first_max_snoc_lt|].
      by rewrite lookup_app_r, Nat.sub_diag.
    + apply IH; [by eapply is_first_max_snoc_ge|].
      by apply lookup_app_l_Some.
Qed.

Lemma np_argmax_first_max (l : list Z) i : np_argmax l = Ok i → is_first_max l i.
Proof.
  destruct l as [|x l]; [done|]. intros [= <-].
  apply (argmax_from_first_max l [x] x 0); [|done].
  exists x. split; [done|]. split.
  - intros [|j] y Hj; simpl in Hj.
    + injection Hj as ->. lia.
    + by rewrite lookup_nil in Hj.
  - intros j y Hj. lia.
Qed.

Lemma is_first_max_unique (l : list Z) i j :
  is_first_max l i → is_first_max l j → i = j.
Proof.
  intros (x & Hx & Hmx & Hfx) (y & Hy & Hmy & Hfy).
  destruct (Nat.lt_trichotomy i j) as [Hlt|[->|Hlt]]; [|done|].
  - specialize (Hfy _ _ Hlt Hx). specialize (Hmx _ _ Hy). lia.
  - specialize (Hfx _ _ Hlt Hy). specialize (Hmy _ _ Hx). lia.
Qed.

Lemma get_node_Ok (l : list Node.t) i nd :
  Tree.get_node l i = Ok nd ↔ l !! i = Some nd.
Proof. unfold Tree.get_node. destruct (l !! i); split; congruence. Qed.

Lemma mapM_visits (l : list Node.t) (cs : list nat) (vs : list Z) :
  visits_of l cs vs →
  mapM (λ c, child ← Tree.get_node l c; Ok (Node.n child)) cs = Ok vs.
Proof.
  intros H. apply mapM_Ok. eapply Forall2_impl; [exact H|].
  intros c v (child & Hc & <-). apply get_node_Ok in Hc. by rewrite Hc.
Qed.

(** A node built for a deck-draw event, or for the root, has no [action];
    a node has one exactly when it is a post-action node. *)
Lemma Node_init_action game player event parent nd :
  Node.init game player event parent = Ok nd →
  (Node.is_post_action_node nd = true ↔ is_Some (Node.action nd))
  ∧ (∀ e, event = Some e → kind e = kind_deck_draw → Node.action nd = None)
  ∧ (event = None → Node.action nd = None).
Proof.
  unfold Node.init. intros H.
  inv_bind H turn Hturn. inv_bind H hand Hhand. inv_bind H jungle Hjungle.
  injection H as <-. simpl. repeat split.
  - destruct event as [e|]; simpl; [|done].
    destruct (bool_decide (kind e = kind_action) && bool_decide (who e = player)); naive_solver.
  - destruct event as [e|]; simpl; [|by intros [? ?]].
    destruct (bool_decide (kind e = kind_action) && bool_decide (who e = player)); [done|by intros [? ?]].
  - intros e -> Hk. simpl. rewrite Hk. done.
  - by intros ->.
Qed.

(** C9.  With [return_best_action] the tree reads the children of its
    current node, wherever the cursor is.  The call raises when there is no
    child; otherwise it looks at the first child with the highest visit
    count and returns its [action], which only a post-action node has: on a
    neutral node, such as one created for a deck draw, the read fails. *)
Theorem select_best_action_reads_cursor (t : Tree.t) (cur : Node.t) (vs : list Z) :
  Tree.nodes t !! Tree.current_node t = Some cur →
  visits_of (Tree.nodes t) (Node.children cur) vs →
  (Node.children cur = [] →
     Tree.select_best_action t
     = Raise (ValueError "attempt to get an argmax of an empty sequence"))
  ∧ (∀ i c child,
       is_first_max vs i → Node.children cur !! i = Some c →
       Tree.nodes t !! c = Some child →
       Tree.select_best_action t
       = match Node.action child with
         | Some e => Ok e
         | None => Raise AttributeError
         end)
  ∧ (Node.children cur ≠ [] →
     (∀ c child, c ∈ Node.children cur → Tree.nodes t !! c = Some child →
                 Node.action child = None) →
     Tree.select_best_action t = Raise AttributeError).
Proof.
  intros Hcur Hvs.
  assert (Hbest : ∀ i c child,
       is_first_max vs i → Node.children cur !! i = Some c →
       Tree.nodes t !! c = Some child →
       Tree.select_best_action t
       = match Node.action child with
         | Some e => Ok e
         | None => Raise AttributeError
         end).
  { intros i c child Hi Hc Hchild. unfold Tree.select_best_action.
    apply get_node_Ok in Hcur, Hchild.
    rewrite (bind_Ok_l _ _ _ Hcur), (bind_Ok_l _ _ _ (mapM_visits _ _ _ Hvs)).
    destruct (np_argmax vs) as [i'| |] eqn:Harg.
    - apply np_argmax_first_max in Harg.
      rewrite (is_first_max_unique _ _ _ Harg Hi). cbn [mbind result_bind].
      apply py_getitem_nat in Hc.
      by rewrite (bind_Ok_l _ _ _ Hc), (bind_Ok_l _ _ _ Hchild).
    - destruct vs; [|done]. destruct Hi as (? & Hx & _). by rewrite lookup_nil in Hx.
    - by destruct vs. }
  split; [|split]; [|exact Hbest|].
  - intros Hnil. unfold Tree.select_best_action.
    apply get_node_Ok in Hcur.
    rewrite (bind_Ok_l _ _ _ Hcur), (bind_Ok_l _ _ _ (mapM_visits _ _ _ Hvs)).
    rewrite Hnil in Hvs. by inversion Hvs.
  - intros Hne Hneutral.
    destruct (np_argmax vs) as [i| |] eqn:Harg.
    + pose proof (np_argmax_first_max _ _ Harg) as Hi.
      destruct Hi as (x & Hx & _).
      destruct (Forall2_lookup_r _ _ _ _ _ Hvs Hx) as (c & Hc & child & Hchild & _).
      rewrite (Hbest i c child); [|by apply np_argmax_first_max|done|done].
      rewrite (Hneutral c child); [done| |done].
      apply list_elem_of_lookup. eauto.
    + destruct vs; [|done]. inversion Hvs as [Hnil|]. by rewrite <- Hnil in Hne.
    + by destruct vs.
Qed.

Example tree_after_draw_run :
  (s ← Simulators.init root44;
   '(s, _) ← iterations (λ _, 0) 100 1 s (const_rng 0);
   Simulators.lookup_tree (Simulators.tree_dict s) "player0")
  = Ok tree_after_draw.
Proof. vm_compute. reflexivity. Qed.

Lemma select_best_action_reads_cursor_witness :
  Tree.select_best_action tree_after_draw = Raise AttributeError.
Proof.
  refine (proj2 (proj2 (select_best_action_reads_cursor tree_after_draw
            (Node.mk "player0" None [1] "player0" [0; 0]%Z [0; 0]%Z [4; 4]%Z 1
                     true false None None None) [1%Z] _ _)) _ _).
  - reflexivity.
  - repeat constructor. eexists. split; reflexivity.
  - discriminate.
  - intros c child Hc Hchild. simpl in Hc.
    apply list_elem_of_singleton in Hc. subst c.
    injection Hchild as <-. reflexivity.
Defined.

(** ** [Tree.apply_event] on an event that shows nothing new *)

Lemma find_equivalent_head (l : list Node.t) new_node i rest nd :
  l !! i = Some nd → is_equivalent_node nd new_node = true →
  Tree.find_equivalent l new_node (i :: rest) = Ok (Some i).
Proof.
  intros Hi Heq. simpl. apply get_node_Ok in Hi.
  rewrite (bind_Ok_l _ _ _ Hi). by rewrite Heq.
Qed.

Lemma with_current_node_id (t : Tree.t) : Tree.with_current_node t (Tree.current_node t) = t.
Proof. by destruct t. Qed.

(** A candidate that is equivalent to the current node leaves the tree as
    it is. *)
Lemma Tree_apply_event_match_self (t : Tree.t) (game : Kariba.t) (event : Event)
    (cur new_node : Node.t) :
  Tree.is_on_rollout_policy t = false →
  Tree.nodes t !! Tree.current_node t = Some cur →
  Node.init game (Tree.player t) (Some event) (Some (Tree.current_node t)) = Ok new_node →
  is_equivalent_node cur new_node = true →
  Tree.apply_event t game event = Ok t.
Proof.
  intros Hmode Hcur Hnew Heq. unfold Tree.apply_event. rewrite Hmode.
  rewrite (bind_Ok_l _ _ _ Hnew).
  pose proof Hcur as Hget. apply get_node_Ok in Hget.
  rewrite (bind_Ok_l _ _ _ Hget).
  rewrite (bind_Ok_l _ _ _ (find_equivalent_head _ _ _ _ _ Hcur Heq)).
  by rewrite with_current_node_id.
Qed.

(** C10.  The tree is selecting and the game, after the event, shows to the
    owner of the tree the hand, field and jungle of the current node.  Then
    the candidate matches the current node itself: [apply_event] leaves the
    tree as it is (same cursor, same nodes, still selecting). *)
Theorem apply_event_same_view (t : Tree.t) (game : Kariba.t) (event : Event)
    (cur : Node.t) (turn : string) :
  Tree.is_on_rollout_policy t = false →
  Tree.nodes t !! Tree.current_node t = Some cur →
  Node.player cur = Tree.player t →
  Kariba.whose_turn game = Ok turn →
  Kariba.hands game !! Tree.player t = Some (Node.hand cur) →
  Kariba.field game = Node.field cur →
  Kariba.jungle game (Tree.player t) = Ok (Node.jungle cur) →
  Tree.apply_event t game event = Ok t.
Proof.
  intros Hmode Hcur Hplayer Hturn Hhand Hfield Hjungle.
  destruct (Node.init game (Tree.player t) (Some event) (Some (Tree.current_node t)))
    as [new_node| |] eqn:Hnew.
  - apply (Tree_apply_event_match_self t game event cur new_node); [done..|].
    unfold Node.init in Hnew. apply dict_get_Ok in Hhand.
    rewrite (bind_Ok_l _ _ _ Hturn), (bind_Ok_l _ _ _ Hhand),
      (bind_Ok_l _ _ _ Hjungle) in Hnew.
    injection Hnew as <-. apply is_equivalent_node_true. simpl. by rewrite Hfield.
  - unfold Node.init in Hnew. apply dict_get_Ok in Hhand.
    by rewrite (bind_Ok_l _ _ _ Hturn), (bind_Ok_l _ _ _ Hhand),
      (bind_Ok_l _ _ _ Hjungle) in Hnew.
  - unfold Node.init in Hnew. apply dict_get_Ok in Hhand.
    by rewrite (bind_Ok_l _ _ _ Hturn), (bind_Ok_l _ _ _ Hhand),
      (bind_Ok_l _ _ _ Hjungle) in Hnew.
Qed.

Lemma apply_event_same_view_witness :
  Kariba.apply_event dealt draw_nothing = Ok dealt
  ∧ Tree.apply_event dealt_tree dealt draw_nothing = Ok dealt_tree.
Proof.
  split; [vm_compute; reflexivity|].
  apply (apply_event_same_view dealt_tree dealt draw_nothing dealt_root_node "player0");
    reflexivity.
Defined.

(** ** [Simulators.reset_game] *)

(** C6.  After [reset_game] the live game is the reset snapshot; every tree
    keeps its player, its root and all its nodes, with their visit and win
    counts, has its cursor on the root and is selecting. *)
Theorem reset_game_keeps_statistics (s : Simulators.t) :
  Simulators.game (Simulators.reset_game s) = Simulators.reset_state s
  ∧ Simulators.reset_state (Simulators.reset_game s) = Simulators.reset_state s
  ∧ Forall2 (λ old new,
       new.1 = old.1
       ∧ Tree.player new.2 = Tree.player old.2
       ∧ Tree.nodes new.2 = Tree.nodes old.2
       ∧ Tree.root_node new.2 = Tree.root_node old.2
       ∧ Tree.current_node new.2 = Tree.root_node old.2
       ∧ Tree.is_on_rollout_policy new.2 = false)
     (Simulators.tree_dict s) (Simulators.tree_dict (Simulators.reset_game s)).
Proof.
  split; [done|]. split; [done|].
  unfold Simulators.reset_game. simpl.
  induction (Simulators.tree_dict s) as [|[p t] d IH]; [constructor|].
  rewrite fmap_cons. constructor; [|exact IH]. by repeat split.
Qed.

(** ** The chase effect *)


Lemma filter_seq_first (P : nat → Prop) `{!∀ i, Decision (P i)} (s n a : nat) :
  s ≤ a < s + n → P a → (∀ j, s ≤ j < a → ¬ P j) →
  ∃ rest, filter P (seq s n) = a :: rest.
Proof.
  revert s. induction n as [|n IH]; intros s Hs Ha Hlow; [lia|].
  simpl. destruct (decide (s = a)) as [->|Hne].
  - rewrite filter_cons_True by done. eauto.
  - rewrite filter_cons_False by (apply Hlow; lia).
    apply IH; [lia|done|]. intros j Hj. apply Hlow. lia.
Qed.

Lemma np_nonzero_single_species n (cs : vec) a :
  single_species n cs a → py_getitem (np_nonzero cs) 0 = Ok a.
Proof.
  intros (Hlen & (k & Hk & Hk0) & Hother).
  destruct (filter_seq_first (λ i, cs !!! i ≠ 0%Z) 0 (length cs) a) as [rest Hrest].
  - apply lookup_lt_Some in Hk. lia.
  - by rewrite (list_lookup_total_correct _ _ _ Hk).
  - intros j Hj Hne. apply lookup_lt_Some in Hk.
    destruct (lookup_lt_is_Some_2 cs j) as [y Hy]; [lia|].
    rewrite (list_lookup_total_correct _ _ _ Hy) in Hne.
    apply Hne. eapply Hother; [|done]. lia.
  - unfold np_nonzero. by rewrite Hrest.
Qed.

Lemma py_max_spec (l : list Z) :
  l ≠ [] → py_max l ∈ l ∧ ∀ x, x ∈ l → (x ≤ py_max l)%Z.
Proof.
  destruct l as [|x l]; [done|]. intros _. simpl.
  induction l as [|y l IH]; simpl.
  - split; [by apply list_elem_of_singleton|].
    intros z ->%list_elem_of_singleton. lia.
  - destruct IH as [Hin Hmax]. split.
    + destruct (Z.max_spec y (foldr Z.max x l)) as [[_ ->]|[_ ->]].
      * apply elem_of_cons in Hin as [Hin|Hin].
        -- rewrite Hin. apply list_elem_of_here.
        -- do 2 apply list_elem_of_further. done.
      * apply list_elem_of_further, list_elem_of_here.
    + intros z Hz. apply elem_of_cons in Hz as [->|Hz].
      * specialize (Hmax x (list_elem_of_here _ _)). lia.
      * apply elem_of_cons in Hz as [->|Hz]; [lia|].
        specialize (Hmax z (list_elem_of_further _ _ _ Hz)). lia.
Qed.



(** Below a species there is a nearest one with cards on the field, or
    none at all. *)
Lemma lower_nonzero_cases (field : vec) a :
  (∃ f, nearest_lower_nonzero field a f) ∨ no_lower_nonzero field a.
Proof.
  induction a as [|a IH].
  - right. intros g y Hg. lia.
  - destruct (field !! a) as [x|] eqn:Hx.
    + destruct (decide (x = 0%Z)) as [->|Hx0].
      * destruct IH as [(f & Hfa & Hf & Hbetween)|Hnone].
        -- left. exists f. split; [lia|]. split; [done|].
           intros g y Hg Hy. destruct (decide (g = a)) as [->|]; [congruence|].
           eapply Hbetween; [|done]. lia.
        -- right. intros g y Hg Hy. destruct (decide (g = a)) as [->|]; [congruence|].
           eapply Hnone; [|done]. lia.
      * left. exists a. split; [lia|]. split; [eauto|]. intros g y Hg. lia.
    + destruct IH as [(f & Hfa & Hf & Hbetween)|Hnone].
      * left. exists f. split; [lia|]. split; [done|].
        intros g y Hg Hy. destruct (decide (g = a)) as [->|]; [congruence|].
        eapply Hbetween; [|done]. lia.
      * right. intros g y Hg Hy. destruct (decide (g = a)) as [->|]; [congruence|].
        eapply Hnone; [|done]. lia.
Qed.

Lemma shaped_intro (g : Kariba.t) :
  length (Kariba.deck g) = Kariba.n_species g →
  length (Kariba.field g) = Kariba.n_species g →
  map_Forall (λ _ h, length h = Kariba.n_species g) (Kariba.hands g) →
  shaped g.
Proof. intros Hd Hf Hh. repeat split; [done..|]. intros p h Hp. by apply (Hh p h). Qed.

(** The action on a state whose vectors have the right shape, after the
    move of the cards. *)
Lemma apply_action_unfold (g : Kariba.t) (e : Event) (a : nat) (hand : vec) (count : Z) :
  shaped g →
  kind e = kind_action →
  Kariba.hands g !! who e = Some hand →
  single_species (Kariba.n_species g) (cards e) a →
  let moved := moved_state g (who e) hand (cards e) in
  Kariba.field moved !! a = Some count →
  Kariba.apply_event g e =
    if (3 <=? count)%Z then
      let fear := Kariba.fear_animal (Kariba.n_species g) (Kariba.field moved) a in
      if (0 <=? fear)%Z then
        turn ← Kariba.whose_turn g;
        score ← dict_get (Kariba.scoreboard g) turn;
        chased ← py_getitem (Kariba.field moved) fear;
        Ok (Kariba.with_field
              (Kariba.with_scoreboard moved
                 (<[turn := (score + chased)%Z]> (Kariba.scoreboard g)))
              (<[Z.to_nat fear := 0%Z]> (Kariba.field moved)))
      else Ok moved
    else Ok moved.
Proof.
  intros (Hdeck & Hfield & Hhands) Hkind Hhand Hsingle moved Hcount.
  pose proof Hsingle as (Hlen & _).
  unfold Kariba.apply_event, Kariba.apply_action. rewrite Hkind.
  pose proof (Hhands _ _ Hhand) as Hhl.
  apply dict_get_Ok in Hhand. rewrite (bind_Ok_l _ _ _ Hhand).
  rewrite (np_iop_same_length Z.sub hand (cards e)) by lia.
  rewrite (np_iop_same_length Z.add (Kariba.field g) (cards e)) by lia.
  rewrite !bind_ret_l.
  rewrite (bind_Ok_l _ _ _ (np_nonzero_single_species _ _ _ Hsingle)).
  apply py_getitem_nat in Hcount.
  change (zip_with Z.add (Kariba.field g) (cards e)) with (Kariba.field moved).
  rewrite (bind_Ok_l _ _ _ Hcount).
  destruct (3 <=? count)%Z; [|done].
  cbn zeta. simpl Kariba.n_species.
  by destruct (0 <=? _)%Z.
Qed.



(** ** Card conservation *)


Lemma scores_total_insert (m : gmap string Z) k (v v' : Z) :
  m !! k = Some v →
  scores_total (<[k := v']> m) = (scores_total m - v + v')%Z.
Proof.
  intros Hk. unfold scores_total.
  rewrite (map_fold_delete_L _ _ k v m); [|intros; lia|done].
  rewrite <- (insert_delete_eq m).
  rewrite map_fold_insert_L; [lia|intros; lia|apply lookup_delete_eq].
Qed.

Lemma shaped_insert_hand (g : Kariba.t) p (h : vec) :
  shaped g → length h = Kariba.n_species g →
  shaped (Kariba.with_hands g (<[p := h]> (Kariba.hands g))).
Proof.
  intros (Hd & Hf & Hh) Hlen. repeat split; [done..|].
  intros q h' Hq. simpl in Hq.
  apply lookup_insert_Some in Hq as [[_ <-]|[_ Hq]]; [done|by eapply Hh].
Qed.







(** ** Drawing cards *)

Lemma length_one_hot idx n : length (one_hot idx n) = n.
Proof. unfold one_hot, np_zeros. by rewrite length_insert, length_replicate. Qed.

Lemma np_sum_one_hot idx n : idx < n → np_sum (one_hot idx n) = 1%Z.
Proof.
  intros H. unfold one_hot. rewrite (np_sum_insert _ _ 0%Z).
  - rewrite np_sum_zeros. lia.
  - by apply lookup_replicate_2.
Qed.

Lemma one_hot_lookup idx n j :
  j < n → one_hot idx n !! j = Some (if decide (idx = j) then 1%Z else 0%Z).
Proof.
  intros Hj. unfold one_hot, np_zeros. case_decide as Hd.
  - subst. apply list_lookup_insert_eq. by rewrite length_replicate.
  - rewrite list_lookup_insert_ne by done. by apply lookup_replicate_2.
Qed.

Lemma np_sum_abs_same_sign (w : vec) (d : Z) :
  Forall (λ x, ¬ (x * d < 0)%Z) w → d ≠ 0%Z → np_sum w = d →
  np_sum (Z.abs <$> w) = Z.abs d.
Proof.
  intros Hsign Hd <-.
  assert (Hcases : Forall (λ x, 0 ≤ x)%Z w ∨ Forall (λ x, x ≤ 0)%Z w).
  { destruct (Z.lt_trichotomy (np_sum w) 0) as [Hlt|[Heq|Hgt]]; [|done|].
    - right. eapply Forall_impl; [exact Hsign|]. intros x Hx. simpl in Hx. nia.
    - left. eapply Forall_impl; [exact Hsign|]. intros x Hx. simpl in Hx. nia. }
  clear Hsign Hd. destruct Hcases as [H|H].
  - assert (np_sum (Z.abs <$> w) = np_sum w ∧ (0 ≤ np_sum w)%Z) as [-> ?]; [|lia].
    induction H as [|x w Hx Hw [IH1 IH2]]; [done|].
    rewrite fmap_cons, !np_sum_cons. lia.
  - assert (np_sum (Z.abs <$> w) = (- np_sum w)%Z ∧ (np_sum w ≤ 0)%Z) as [-> ?]; [|lia].
    induction H as [|x w Hx Hw [IH1 IH2]]; [done|].
    rewrite fmap_cons, !np_sum_cons. lia.
Qed.

Lemma pick_weighted_spec (w : vec) (u : Z) (i : nat) :
  (0 ≤ u < np_sum (Z.abs <$> w))%Z →
  ∃ j x, pick_weighted w u i = i + j ∧ w !! j = Some x ∧ x ≠ 0%Z.
Proof.
  revert u i. induction w as [|y w IH]; intros u i Hu.
  - change (np_sum (Z.abs <$> [])) with 0%Z in Hu. lia.
  - rewrite fmap_cons, np_sum_cons in Hu. simpl.
    destruct (Z.ltb_spec u (Z.abs y)).
    + exists 0, y. split; [lia|]. split; [done|]. lia.
    + destruct (IH (u - Z.abs y)%Z (S i)) as (j & x & Hj & Hx & Hx0); [lia|].
      exists (S j), x. split; [lia|]. done.
Qed.

Lemma np_random_choice_p_Ok n (w : vec) u idx :
  np_random_choice_p n w (np_sum w) u = Ok idx →
  length w = n ∧ np_sum w ≠ 0%Z ∧ ∃ x, w !! idx = Some x ∧ x ≠ 0%Z.
Proof.
  unfold np_random_choice_p.
  destruct (decide (n = 0)) as [|Hn]; [done|].
  destruct (decide (length w ≠ n)) as [|Hlen]; [done|].
  destruct (decide (np_sum w = 0%Z)) as [|Hd]; [by case_decide|].
  destruct (decide (Exists (λ x, (x * np_sum w < 0)%Z) w)) as [|Hsign]; [done|].
  intros [= <-]. split; [by destruct (decide (length w = n))|]. split; [done|].
  apply Forall_Exists_neg in Hsign.
  destruct (pick_weighted_spec w (Z.of_nat u `mod` Z.abs (np_sum w)) 0)
    as (j & x & -> & Hx & Hx0).
  - rewrite (np_sum_abs_same_sign w (np_sum w)) by done.
    apply Z.mod_pos_bound. lia.
  - eauto.
Qed.

Lemma zip_with_add_one_hot_lookup (cs : vec) idx j c :
  cs !! j = Some c →
  zip_with Z.add cs (one_hot idx (length cs)) !! j
  = Some (c + (if decide (idx = j) then 1 else 0))%Z.
Proof.
  intros Hj. apply lookup_zip_with_Some. exists c, (if decide (idx = j) then 1%Z else 0%Z).
  split; [done|]. split; [done|]. apply one_hot_lookup. by eapply lookup_lt_Some.
Qed.

(** What a successful pass of the drawing loop does. *)
Lemma draw_one_Ok (g : Kariba.t) (cs cs' : vec) (r r' : rng) :
  length (Kariba.deck g) = Kariba.n_species g →
  length cs = Kariba.n_species g →
  Kariba.draw_one g cs r = Ok (cs', r') →
  ∃ idx c d, cs !! idx = Some c ∧ Kariba.deck g !! idx = Some d ∧ d ≠ c
    ∧ cs' = zip_with Z.add cs (one_hot idx (length cs))
    ∧ np_sum (zip_with Z.sub (Kariba.deck g) cs) ≠ 0%Z
    ∧ r' = (rng_next r).2.
Proof.
  intros Hd Hc H. unfold Kariba.draw_one in H.
  rewrite np_op_same_length, bind_ret_l in H by lia.
  destruct (rng_next r) as [u r1] eqn:Hr.
  inv_bind H idx Hidx. inv_bind H cs1 Hcs1. injection H as <- <-.
  apply np_random_choice_p_Ok in Hidx as (Hlw & Hsum & x & Hx & Hx0).
  apply lookup_zip_with_Some in Hx as (d & c & -> & Hdi & Hci).
  rewrite np_iop_same_length in Hcs1 by (rewrite length_one_hot; lia).
  injection Hcs1 as <-.
  exists idx, c, d. rewrite Hc. repeat split; try done. lia.
Qed.

Lemma draw_one_sum (g : Kariba.t) (cs cs' : vec) (r r' : rng) :
  length (Kariba.deck g) = Kariba.n_species g →
  length cs = Kariba.n_species g →
  Kariba.draw_one g cs r = Ok (cs', r') →
  length cs' = Kariba.n_species g ∧ np_sum cs' = (np_sum cs + 1)%Z.
Proof.
  intros Hd Hc H.
  destruct (draw_one_Ok g cs cs' r r' Hd Hc H) as (idx & c & d & Hci & _ & _ & -> & _).
  split.
  - rewrite length_zip_with, length_one_hot. lia.
  - rewrite np_sum_zip_add by (by rewrite length_one_hot).
    rewrite np_sum_one_hot; [done|]. by eapply lookup_lt_Some.
Qed.

Lemma draw_loop_sum (g : Kariba.t) (n : nat) (cs cs' : vec) (r r' : rng) :
  length (Kariba.deck g) = Kariba.n_species g →
  length cs = Kariba.n_species g →
  Kariba.draw_loop g n cs r = Ok (cs', r') →
  length cs' = Kariba.n_species g ∧ np_sum cs' = (np_sum cs + Z.of_nat n)%Z.
Proof.
  intros Hd. revert cs r. induction n as [|n IH]; intros cs r Hc H.
  - injection H as <- <-. split; [done|lia].
  - simpl in H. inv_bind H p Hp. destruct p as [cs1 r1].
    destruct (draw_one_sum g cs cs1 r r1 Hd Hc Hp) as [Hl1 Hs1].
    destruct (IH cs1 r1 Hl1 H) as [Hl Hs]. split; [done|lia].
Qed.

(** The denominator of the sampling distribution of a pass that runs. *)
Lemma draw_denominator_positive (g : Kariba.t) (n_hand : Z) (i : nat) (cs : vec) (r r' : rng) :
  length (Kariba.deck g) = Kariba.n_species g →
  i < Z.to_nat (Kariba.n_to_draw g n_hand) →
  Kariba.draw_loop g i (np_zeros (Kariba.n_species g)) r = Ok (cs, r') →
  np_op Z.sub (Kariba.deck g) cs = Ok (zip_with Z.sub (Kariba.deck g) cs)
  ∧ (0 < np_sum (zip_with Z.sub (Kariba.deck g) cs))%Z.
Proof.
  intros Hd Hi H.
  destruct (draw_loop_sum g i (np_zeros (Kariba.n_species g)) cs r r' Hd) as [Hl Hs];
    [by unfold np_zeros; rewrite length_replicate|done|].
  rewrite np_sum_zeros in Hs. split; [apply np_op_same_length; lia|].
  rewrite np_sum_zip_sub by lia. unfold Kariba.n_to_draw in Hi. lia.
Qed.

Lemma vec_le_lookup (a b : vec) i x y :
  vec_le a b → a !! i = Some x → b !! i = Some y → (x ≤ y)%Z.
Proof. intros H Ha Hb. by eapply (Forall2_lookup_lr _ a b i x y). Qed.

Lemma vec_le_intro (a b : vec) :
  length a = length b →
  (∀ i x y, a !! i = Some x → b !! i = Some y → (x ≤ y)%Z) → vec_le a b.
Proof. intros Hl H. by apply Forall2_same_length_lookup_2. Qed.

Lemma vec_le_sum (a b : vec) : vec_le a b → (np_sum a ≤ np_sum b)%Z.
Proof. induction 1; [done|]. rewrite !np_sum_cons. lia. Qed.

(** A pass of the loop succeeds as long as the pool holds a card. *)
Lemma draw_one_total (g : Kariba.t) (cs : vec) (r : rng) :
  length (Kariba.deck g) = Kariba.n_species g →
  vec_le cs (Kariba.deck g) →
  (np_sum cs < np_sum (Kariba.deck g))%Z →
  ∃ cs' r', Kariba.draw_one g cs r = Ok (cs', r')
    ∧ vec_le cs cs' ∧ vec_le cs' (Kariba.deck g).
Proof.
  intros Hd Hle Hlt.
  pose proof (Forall2_length _ _ _ Hle) as Hc.
  assert (Hw : Forall (λ x, 0 ≤ x)%Z (zip_with Z.sub (Kariba.deck g) cs)).
  { apply Forall_lookup. intros i x Hx.
    apply lookup_zip_with_Some in Hx as (d & c & -> & Hdi & Hci).
    pose proof (vec_le_lookup _ _ _ _ _ Hle Hci Hdi). lia. }
  assert (Hsum : (0 < np_sum (zip_with Z.sub (Kariba.deck g) cs))%Z)
    by (rewrite np_sum_zip_sub by lia; lia).
  destruct (Kariba.draw_one g cs r) as [[cs' r']| |] eqn:H.
  - exists cs', r'. split; [done|].
    destruct (draw_one_Ok g cs cs' r r') as (idx & c & d & Hci & Hdi & Hne & -> & _);
      [lia..|done|].
    pose proof (vec_le_lookup _ _ _ _ _ Hle Hci Hdi) as Hcd.
    split; apply vec_le_intro.
    + rewrite length_zip_with, length_one_hot. lia.
    + intros i x y Hx Hy. rewrite (zip_with_add_one_hot_lookup _ _ _ _ Hx) in Hy.
      injection Hy as <-. case_decide; lia.
    + rewrite length_zip_with, length_one_hot. lia.
    + intros i x y Hx Hy.
      destruct (lookup_lt_is_Some_2 cs i) as [ci Hi];
        [apply lookup_lt_Some in Hy; lia|].
      rewrite (zip_with_add_one_hot_lookup _ _ _ _ Hi) in Hx. injection Hx as <-.
      pose proof (vec_le_lookup _ _ _ _ _ Hle Hi Hy).
      case_decide; [|lia]. subst i. simplify_eq. lia.
  - exfalso. unfold Kariba.draw_one in H.
    rewrite np_op_same_length, bind_ret_l in H by lia. simpl in H.
    unfold np_random_choice_p in H.
    rewrite decide_False in H.
    2:{ intros Hn. rewrite Hn in Hd. apply nil_length_inv in Hd.
        rewrite Hd in Hlt, Hle. inversion Hle; subst. by simpl in Hlt. }
    rewrite decide_False in H by (rewrite length_zip_with; lia).
    rewrite decide_False in H by lia.
    rewrite decide_False in H.
    2:{ intros Hex. apply Exists_exists in Hex as (x & Hx & Hneg).
        rewrite Forall_forall in Hw. specialize (Hw x Hx). simpl in Hw. nia. }
    simpl in H. rewrite np_iop_same_length in H; [done|].
    rewrite length_one_hot. lia.
  - exfalso. unfold Kariba.draw_one in H.
    rewrite np_op_same_length, bind_ret_l in H by lia. simpl in H.
    destruct (np_random_choice_p _ _ _ _) as [idx| |] eqn:Hidx; [|done|].
    + simpl in H. rewrite np_iop_same_length in H; [done|].
      rewrite length_one_hot. lia.
    + unfold np_random_choice_p in Hidx. repeat case_decide; done.
Qed.

Lemma vec_le_trans (a b c : vec) : vec_le a b → vec_le b c → vec_le a c.
Proof.
  intros Hab Hbc. apply vec_le_intro.
  - rewrite (Forall2_length _ _ _ Hab). by apply (Forall2_length _ _ _ Hbc).
  - intros i x z Hx Hz.
    destruct (lookup_lt_is_Some_2 b i) as [y Hy].
    { rewrite <- (Forall2_length _ _ _ Hab). by eapply lookup_lt_Some. }
    pose proof (vec_le_lookup _ _ _ _ _ Hab Hx Hy).
    pose proof (vec_le_lookup _ _ _ _ _ Hbc Hy Hz). lia.
Qed.

Lemma draw_loop_total (g : Kariba.t) (n : nat) (cs : vec) (r : rng) :
  length (Kariba.deck g) = Kariba.n_species g →
  vec_le cs (Kariba.deck g) →
  (np_sum cs + Z.of_nat n ≤ np_sum (Kariba.deck g))%Z →
  ∃ cs' r', Kariba.draw_loop g n cs r = Ok (cs', r')
    ∧ vec_le cs cs' ∧ vec_le cs' (Kariba.deck g).
Proof.
  intros Hd. revert cs r. induction n as [|n IH]; intros cs r Hle Hn.
  - exists cs, r. split; [done|]. split; [|done].
    apply vec_le_intro; [done|]. intros i x y Hx Hy. simplify_eq. lia.
  - destruct (draw_one_total g cs r Hd Hle) as (cs1 & r1 & H1 & Hle1 & Hle1'); [lia|].
    pose proof (Forall2_length _ _ _ Hle) as Hc.
    destruct (draw_one_sum g cs cs1 r r1 Hd) as [_ Hs1]; [lia|done|].
    destruct (IH cs1 r1 Hle1') as (cs' & r' & H & Hle2 & Hle2'); [lia|].
    exists cs', r'. simpl. rewrite H1. simpl. split; [done|].
    split; [by eapply vec_le_trans|done].
Qed.

(** C8.  The player on turn holds at most the hand capacity.  Before each of
    the [n_to_draw] passes of the loop of [random_card_draw], the cards drawn
    so far leave a pool [deck - cards] with a strictly positive sum: the
    division that yields the sampling distribution has a nonzero
    denominator, and the pass does not fail with the [nan] probabilities of a
    division by zero. *)
Theorem draw_denominators_positive (g : Kariba.t) (turn : string) (hand : vec) :
  shaped g →
  Kariba.whose_turn g = Ok turn →
  Kariba.hands g !! turn = Some hand →
  (np_sum hand ≤ Kariba.max_n_hand g)%Z →
  ∀ (i : nat) (cs : vec) (r r' : rng),
    i < Z.to_nat (Kariba.n_to_draw g (np_sum hand)) →
    Kariba.draw_loop g i (np_zeros (Kariba.n_species g)) r = Ok (cs, r') →
    ∃ w, np_op Z.sub (Kariba.deck g) cs = Ok w
      ∧ (0 < np_sum w)%Z
      ∧ Kariba.draw_one g cs r' ≠ Raise (ValueError "probabilities contain NaN").
Proof.
  intros (Hd & _ & _) _ _ _ i cs r r' Hi H.
  destruct (draw_denominator_positive g (np_sum hand) i cs r r' Hd Hi H) as [Hw Hpos].
  exists (zip_with Z.sub (Kariba.deck g) cs). split; [done|]. split; [done|].
  unfold Kariba.draw_one. rewrite Hw, bind_ret_l. simpl.
  unfold np_random_choice_p.
  destruct (decide (Kariba.n_species g = 0)); [done|].
  destruct (decide (length _ ≠ _)); [done|].
  destruct (decide (np_sum _ = 0%Z)); [lia|].
  destruct (decide (Exists _ _)); [done|]. simpl.
  destruct (draw_loop_sum g i (np_zeros (Kariba.n_species g)) cs r r' Hd) as [Hl _];
    [by unfold np_zeros; rewrite length_replicate|done|].
  by rewrite np_iop_same_length by (rewrite length_one_hot; lia).
Qed.

Lemma shaped_root44 : shaped root44.
Proof.
  apply shaped_intro; [reflexivity..|].
  apply (bool_decide_unpack _). vm_compute. exact I.
Defined.

Lemma draw_denominators_positive_witness :
  ∃ w, np_op Z.sub (Kariba.deck root44) [1; 0]%Z = Ok w ∧ (0 < np_sum w)%Z.
Proof.
  destruct (draw_denominators_positive root44 "player0" [0; 0]%Z shaped_root44
              eq_refl eq_refl ltac:(vm_compute; discriminate)
              1 [1; 0]%Z (const_rng 0) (rng_next (const_rng 0)).2)
    as (w & Hw & Hpos & _).
  - vm_compute. lia.
  - reflexivity.
  - exists w. split; assumption.
Defined.



(** One pass of the drawing loop on an empty pool: the division yields
    [nan] probabilities and numpy raises its [ValueError].
    [random_card_draw] makes no such pass: on a state whose deck is used up
    it returns an empty draw. *)
Lemma draw_on_empty_pool_raises_ValueError :
  Kariba.draw_one depleted [0; 0]%Z (const_rng 0)
  = Raise (ValueError "probabilities contain NaN")
  ∧ Kariba.draw_loop depleted 1 (np_zeros 2) (const_rng 0)
    = Raise (ValueError "probabilities contain NaN")
  ∧ fst <$> Kariba.random_card_draw depleted (const_rng 0)
    = Ok (mkEvent kind_deck_draw "player0" [0; 0]%Z).
Proof. repeat split; vm_compute; reflexivity. Qed.

(** ** One expansion per simulated game *)

Lemma Tree_apply_event_rollout (t : Tree.t) g e :
  Tree.is_on_rollout_policy t = true → Tree.apply_event t g e = Ok t.
Proof. intros H. unfold Tree.apply_event. by rewrite H. Qed.

Lemma find_equivalent_Some (l : list Node.t) new_node cands i :
  Tree.find_equivalent l new_node cands = Ok (Some i) →
  i ∈ cands ∧ ∃ nd, l !! i = Some nd ∧ is_equivalent_node nd new_node = true.
Proof.
  induction cands as [|c cands IH]; [done|]. simpl. intros H.
  inv_bind H nd Hnd. apply get_node_Ok in Hnd.
  destruct (is_equivalent_node nd new_node) eqn:Heq.
  - injection H as <-. split; [apply list_elem_of_here|eauto].
  - destruct (IH H) as [Hin Hnd']. split; [by apply list_elem_of_further|done].
Qed.

(** The two outcomes of [apply_event] on a selecting tree. *)
Lemma Tree_apply_event_selecting (t t' : Tree.t) g e :
  Tree.is_on_rollout_policy t = false →
  Tree.apply_event t g e = Ok t' →
  ∃ cur new_node,
    Tree.nodes t !! Tree.current_node t = Some cur
    ∧ Node.init g (Tree.player t) (Some e) (Some (Tree.current_node t)) = Ok new_node
    ∧ ((∃ i nd, t' = Tree.with_current_node t i
          ∧ i ∈ Tree.current_node t :: Node.children cur
          ∧ Tree.nodes t !! i = Some nd
          ∧ is_equivalent_node nd new_node = true)
       ∨ (Tree.find_equivalent (Tree.nodes t) new_node
            (Tree.current_node t :: Node.children cur) = Ok None
          ∧ t' = Tree.mk (Tree.player t)
                  (<[Tree.current_node t :=
                       Node.with_children cur (Node.children cur ++ [length (Tree.nodes t)])]>
                     (Tree.nodes t) ++ [new_node])
                  (Tree.root_node t) (length (Tree.nodes t)) true)).
Proof.
  intros Hmode H. unfold Tree.apply_event in H. rewrite Hmode in H.
  inv_bind H new_node Hnew. inv_bind H cur Hcur. inv_bind H found Hfound.
  apply get_node_Ok in Hcur. exists cur, new_node. split; [done|]. split; [done|].
  destruct found as [i|].
  - left. injection H as <-.
    destruct (find_equivalent_Some _ _ _ _ Hfound) as (Hin & nd & Hnd & Heq).
    by exists i, nd.
  - right. by injection H as <-.
Qed.

Lemma Tree_apply_event_progress (t0 t t' : Tree.t) g e :
  game_progress t0 t → Tree.apply_event t g e = Ok t' → game_progress t0 t'.
Proof.
  intros [[Hmode Hlen]|[Hmode Hlen]] H.
  - destruct (Tree_apply_event_selecting t t' g e Hmode H)
      as (cur & new_node & Hcur & Hnew & [(i & nd & -> & _)|[_ ->]]).
    + by left.
    + right. split; [done|]. simpl. rewrite length_app, length_insert. simpl. lia.
  - rewrite Tree_apply_event_rollout in H by done. injection H as <-. by right.
Qed.

(** [select_action] touches the untried actions of the current node only. *)
Lemma Tree_select_action_frame ucb (t t' : Tree.t) g r e r' :
  Tree.select_action ucb t g r = Ok (e, t', r') →
  t' = t
  ∨ ∃ cur u, Tree.nodes t !! Tree.current_node t = Some cur
      ∧ Tree.is_on_rollout_policy t = false
      ∧ t' = Tree.with_nodes t
               (<[Tree.current_node t := Node.with_untried_actions cur u]> (Tree.nodes t)).
Proof.
  unfold Tree.select_action. destruct (Tree.is_on_rollout_policy t) eqn:Hmode.
  - intros H. inv_bind H acts Hacts. destruct (rng_next r) as [u r1].
    inv_bind H e' He. injection H as <- <- <-. by left.
  - intros H. inv_bind H cur Hcur. apply get_node_Ok in Hcur.
    inv_bind H p Hp. destruct p as [cur1 r1].
    assert (∃ u, cur1 = Node.with_untried_actions cur u) as [u1 ->].
    { assert (Hid : cur = Node.with_untried_actions cur (Node.untried_actions cur))
        by (by destruct cur).
      destruct (Node.untried_actions cur) eqn:Hu.
      { injection Hp as <- <-. eauto. }
      destruct (Node.children cur) eqn:Hc.
      - inv_bind Hp acts Hacts. destruct (random_shuffle acts r) as [acts' r2].
        injection Hp as <- <-. eauto.
      - injection Hp as <- <-. eauto. }
    right. destruct (Node.untried_actions (Node.with_untried_actions cur u1))
      as [untried|] eqn:Hu; [|done].
    destruct (last untried) as [e1|] eqn:Hlast.
    + injection H as <- <- <-. exists cur, (Some (removelast untried)).
      split; [done|]. split; [done|]. by destruct cur.
    + inv_bind H scores Hscores. inv_bind H i Hi. inv_bind H c Hc.
      inv_bind H child Hchild. destruct (Node.action child); [|done].
      injection H as <- <- <-. exists cur, u1. by repeat split.
Qed.

Lemma Tree_select_action_progress ucb (t0 t t' : Tree.t) g r e r' :
  game_progress t0 t → Tree.select_action ucb t g r = Ok (e, t', r') →
  game_progress t0 t'.
Proof.
  intros Hp H.
  destruct (Tree_select_action_frame ucb t t' g r e r' H)
    as [->|(cur & u & Hcur & Hmode & ->)]; [done|].
  unfold game_progress in *. simpl. by rewrite length_insert.
Qed.

(** *** The trees of the coordinator *)

Lemma each_tree_Ok f (d d' : list (string * Tree.t)) :
  Simulators.each_tree f d = Ok d' → all_trees (λ t t', f t = Ok t') d d'.
Proof.
  unfold Simulators.each_tree. intros H%mapM_Ok.
  eapply Forall2_impl; [exact H|]. intros [k t] [k' t'] Hkv. simpl in *.
  inv_bind Hkv v Hv. by injection Hkv as <- <-.
Qed.

Lemma update_tree_related (d : list (string * Tree.t)) k t v :
  Simulators.lookup_tree d k = Ok t →
  all_trees (λ t1 t2, t2 = t1 ∨ (t1 = t ∧ t2 = v)) d (Simulators.update_tree d k v).
Proof.
  induction d as [|[k' t'] d IH]; [done|]. simpl. case_decide as Hk.
  - intros [= ->]. constructor; [simpl; auto|].
    apply Forall2_same_length_lookup_2; [done|].
    intros i x y Hx Hy. simplify_eq. auto.
  - intros H. constructor; [simpl; auto|]. by apply IH.
Qed.

Lemma all_trees_step (P Q : Tree.t → Tree.t → Prop) (d0 d d' : list (string * Tree.t)) :
  (∀ t0 t t', P t0 t → Q t t' → P t0 t') →
  all_trees P d0 d → all_trees Q d d' → all_trees P d0 d'.
Proof.
  intros HPQ H. revert d'. induction H as [|[k0 t0] [k t] d0 d [Hk HP] H IH];
    intros d' H'; inversion H' as [|? [k' t'] ? d1 [Hk' HQ] H1]; subst; [constructor|].
  constructor; [|by apply IH]. simpl in *. split; [congruence|by eapply HPQ].
Qed.

Lemma all_trees_refl (P : Tree.t → Tree.t → Prop) (d : list (string * Tree.t)) :
  Forall (λ kv, P kv.2 kv.2) d → all_trees P d d.
Proof. induction 1; constructor; auto. Qed.

Lemma Simulators_apply_event_trees (s s' : Simulators.t) e :
  Simulators.apply_event s e = Ok s' →
  Kariba.apply_event (Simulators.game s) e = Ok (Simulators.game s')
  ∧ Simulators.reset_state s' = Simulators.reset_state s
  ∧ all_trees (λ t t', Tree.apply_event t (Simulators.game s') e = Ok t')
      (Simulators.tree_dict s) (Simulators.tree_dict s').
Proof.
  unfold Simulators.apply_event. intros H.
  inv_bind H g' Hg. inv_bind H d Hd. injection H as <-. simpl.
  split; [done|]. split; [done|]. by apply each_tree_Ok.
Qed.

Lemma Simulators_select_action_trees ucb (s s' : Simulators.t) r e r' :
  Simulators.select_action ucb s r = Ok (e, s', r') →
  Simulators.game s' = Simulators.game s
  ∧ Simulators.reset_state s' = Simulators.reset_state s
  ∧ ∃ turn t t' r0,
      Kariba.whose_turn (Simulators.game s) = Ok turn
      ∧ Simulators.lookup_tree (Simulators.tree_dict s) turn = Ok t
      ∧ Tree.select_action ucb t (Simulators.game s) r0 = Ok (e, t', r')
      ∧ all_trees (λ t1 t2, t2 = t1 ∨ (t1 = t ∧ t2 = t'))
          (Simulators.tree_dict s) (Simulators.tree_dict s').
Proof.
  unfold Simulators.select_action, Simulators.whose_turn. intros H.
  inv_bind H turn Hturn. inv_bind H t Ht. inv_bind H p Hp.
  destruct p as [[e1 t'] r1]. injection H as <- <- <-. simpl.
  split; [done|]. split; [done|]. exists turn, t, t', r.
  repeat split; [done..|]. by apply update_tree_related.
Qed.

Lemma play_turn_progress ucb (d0 : list (string * Tree.t)) (s s' : Simulators.t) r r' :
  all_trees game_progress d0 (Simulators.tree_dict s) →
  play_turn ucb s r = Ok (s', r') →
  all_trees game_progress d0 (Simulators.tree_dict s').
Proof.
  intros H0 H. unfold play_turn in H.
  inv_bind H p Hdraw. destruct p as [draw r1].
  inv_bind H s1 Hs1. inv_bind H p Hsel. destruct p as [[act s2] r2].
  inv_bind H s3 Hs3. inv_bind H s4 Hs4. injection H as <- <-.
  apply Simulators_apply_event_trees in Hs1 as (_ & _ & H1).
  apply Simulators_select_action_trees in Hsel
    as (_ & _ & turn & t & t' & r0 & _ & _ & Hsel & H2).
  apply Simulators_apply_event_trees in Hs3 as (_ & _ & H3).
  unfold Simulators.next_turn in Hs4. inv_bind Hs4 g' Hg'. injection Hs4 as <-. simpl.
  eapply all_trees_step; [|eapply all_trees_step; [|eapply all_trees_step;
    [|exact H0|exact H1]|exact H2]|exact H3].
  - intros ???. apply Tree_apply_event_progress.
  - intros t0 t1 t2 Hp [->|[-> ->]]; [done|].
    by eapply Tree_select_action_progress.
  - intros ???. apply Tree_apply_event_progress.
Qed.

Lemma play_game_progress ucb (fuel : nat) (d0 : list (string * Tree.t))
    (s s' : Simulators.t) r r' :
  all_trees game_progress d0 (Simulators.tree_dict s) →
  play_game ucb fuel s r = Ok (s', r') →
  all_trees game_progress d0 (Simulators.tree_dict s').
Proof.
  revert s r. induction fuel as [|fuel IH]; intros s r H0 H; simpl in H.
  - inv_bind H final Hfinal. destruct final; [|done]. by injection H as <- <-.
  - inv_bind H final Hfinal. destruct final; [by injection H as <- <-|].
    inv_bind H p Hp. destruct p as [s1 r1].
    eapply IH; [|exact H]. by eapply play_turn_progress.
Qed.

Lemma find_equivalent_first (l : list Node.t) new_node pre i post nd :
  (∀ c, c ∈ pre → ∃ ndc, l !! c = Some ndc ∧ is_equivalent_node ndc new_node = false) →
  l !! i = Some nd → is_equivalent_node nd new_node = true →
  Tree.find_equivalent l new_node (pre ++ i :: post) = Ok (Some i).
Proof.
  intros Hpre Hi Heq. induction pre as [|c pre IH]; simpl.
  - apply get_node_Ok in Hi. rewrite (bind_Ok_l _ _ _ Hi). by rewrite Heq.
  - destruct (Hpre c) as (ndc & Hc & Hne); [by left|].
    apply get_node_Ok in Hc. rewrite (bind_Ok_l _ _ _ Hc), Hne.
    apply IH. intros c' Hc'. apply Hpre. by right.
Qed.

Lemma find_equivalent_no_match (l : list Node.t) new_node cands :
  (∀ c, c ∈ cands → ∃ ndc, l !! c = Some ndc ∧ is_equivalent_node ndc new_node = false) →
  Tree.find_equivalent l new_node cands = Ok None.
Proof.
  intros Hall. induction cands as [|c cands IH]; [done|]. simpl.
  destruct (Hall c) as (ndc & Hc & Hne); [by left|].
  apply get_node_Ok in Hc. rewrite (bind_Ok_l _ _ _ Hc), Hne.
  apply IH. intros c' Hc'. apply Hall. by right.
Qed.

(** C5, as the code has it.  While a tree is rolling out, [apply_event]
    leaves it as it is.  While it is selecting, [apply_event] builds the
    candidate node and compares it with the current node and then with its
    children, in this order: with the first of them that is equivalent to the
    candidate, it only moves the cursor there (same nodes, still selecting);
    when none is, it appends the candidate as the last child of the current
    node, moves the cursor to it and switches to rolling out.  So a step of a
    selecting tree keeps the mode and the nodes, or switches the mode and
    adds one node.  Hence at the end of a simulated game that every tree
    began selecting, each tree is still selecting and has the nodes it began
    with, or it is rolling out and has exactly one node more: at most one
    node is added per tree and game. *)
Theorem one_expansion_per_game (ucb : list (Z * Z * Z) → nat) :
  (∀ t g e, Tree.is_on_rollout_policy t = true → Tree.apply_event t g e = Ok t)
  ∧ (∀ t g e cur new_node,
       Tree.is_on_rollout_policy t = false →
       Tree.nodes t !! Tree.current_node t = Some cur →
       Node.init g (Tree.player t) (Some e) (Some (Tree.current_node t)) = Ok new_node →
       (∀ c, c ∈ Node.children cur → is_Some (Tree.nodes t !! c)) →
       (∀ pre i post nd,
          Tree.current_node t :: Node.children cur = pre ++ i :: post →
          Tree.nodes t !! i = Some nd →
          is_equivalent_node nd new_node = true →
          (∀ c ndc, c ∈ pre → Tree.nodes t !! c = Some ndc →
                    is_equivalent_node ndc new_node = false) →
          Tree.apply_event t g e = Ok (Tree.with_current_node t i))
       ∧ ((∀ c ndc, c ∈ Tree.current_node t :: Node.children cur →
                    Tree.nodes t !! c = Some ndc →
                    is_equivalent_node ndc new_node = false) →
          Tree.apply_event t g e
          = Ok (Tree.mk (Tree.player t)
                  (<[Tree.current_node t :=
                       Node.with_children cur
                         (Node.children cur ++ [length (Tree.nodes t)])]>
                     (Tree.nodes t) ++ [new_node])
                  (Tree.root_node t) (length (Tree.nodes t)) true)))
  ∧ (∀ t g e t',
       Tree.is_on_rollout_policy t = false → Tree.apply_event t g e = Ok t' →
       (Tree.is_on_rollout_policy t' = false ∧ Tree.nodes t' = Tree.nodes t)
       ∨ (Tree.is_on_rollout_policy t' = true
          ∧ Tree.current_node t' = length (Tree.nodes t)
          ∧ length (Tree.nodes t') = S (length (Tree.nodes t))))
  ∧ (∀ fuel s r s' r',
       all_selecting (Simulators.tree_dict s) →
       play_game ucb fuel s r = Ok (s', r') →
       all_trees game_progress (Simulators.tree_dict s) (Simulators.tree_dict s')).
Proof.
  split; [|split; [|split]].
  - intros t g e. apply Tree_apply_event_rollout.
  - intros t g e cur new_node Hmode Hcur Hnew Hchildren.
    assert (Hcands : ∀ c, c ∈ Tree.current_node t :: Node.children cur →
              is_Some (Tree.nodes t !! c)).
    { intros c [->|Hc]%elem_of_cons; [by eexists|by apply Hchildren]. }
    pose proof Hcur as Hget. apply get_node_Ok in Hget.
    unfold Tree.apply_event. rewrite Hmode.
    rewrite (bind_Ok_l _ _ _ Hnew), (bind_Ok_l _ _ _ Hget). split.
    + intros pre i post nd Hsplit Hi Heq Hpre. rewrite Hsplit.
      rewrite (find_equivalent_first _ _ pre i post nd); [done| |done|done].
      intros c Hc. destruct (Hcands c) as [ndc Hndc].
      { rewrite Hsplit. apply elem_of_app. by left. }
      exists ndc. split; [done|]. by eapply Hpre.
    + intros Hnone. rewrite find_equivalent_no_match; [done|].
      intros c Hc. destruct (Hcands c Hc) as [ndc Hndc].
      exists ndc. split; [done|]. by eapply Hnone.
  - intros t g e t' Hmode H.
    destruct (Tree_apply_event_selecting t t' g e Hmode H)
      as (cur & new_node & Hcur & Hnew & [(i & nd & -> & _)|[_ ->]]).
    + by left.
    + right. simpl. rewrite length_app, length_insert. simpl.
      repeat split; lia.
  - intros fuel s r s' r' Hsel H.
    eapply play_game_progress; [|exact H].
    apply all_trees_refl. eapply Forall_impl; [exact Hsel|].
    intros kv Hkv. by left.
Qed.

Example sims_root44_init : Simulators.init root44 = Ok sims_root44.
Proof. vm_compute. reflexivity. Qed.

Lemma one_expansion_per_game_witness :
  (∃ s' r', play_game first_child 100 sims_root44 (const_rng 0) = Ok (s', r')
     ∧ all_trees game_progress (Simulators.tree_dict sims_root44) (Simulators.tree_dict s')
     ∧ tree_sizes s' = [("player0", 2, true); ("player1", 2, true)])
  ∧ Tree.apply_event dealt_tree dealt draw_nothing = Ok (Tree.with_current_node dealt_tree 0)
  ∧ Tree.apply_event dealt_tree depleted play0
    = Ok (Tree.mk "player0"
            [Node.with_children dealt_root_node [1];
             Node.mk "player0" (Some 0) [] "player0" [1; 0]%Z [3; 3]%Z [0; 1]%Z 0
                     false true None (Some play0) (Some 0%Z)]
            0 1 true).
Proof.
  split; [|split].
  - destruct (play_game first_child 100 sims_root44 (const_rng 0)) as [[s' r']| |] eqn:Hrun;
      [|vm_compute in Hrun; discriminate..].
    exists s', r'. split; [reflexivity|]. split.
    + refine (proj2 (proj2 (proj2 (one_expansion_per_game first_child))) 100 sims_root44
                (const_rng 0) s' r' _ Hrun).
      repeat constructor.
    + vm_compute in Hrun. injection Hrun as <- _. reflexivity.
  - refine (proj1 (proj1 (proj2 (one_expansion_per_game first_child))
              dealt_tree dealt draw_nothing dealt_root_node
              (Node.mk "player0" (Some 0) [] "player0" [1; 1]%Z [0; 0]%Z [3; 3]%Z 0
                       false false None None None)
              eq_refl eq_refl _ _) [] 0 [] dealt_root_node eq_refl eq_refl _ _).
    + vm_compute. reflexivity.
    + intros c Hc. by apply not_elem_of_nil in Hc.
    + vm_compute. reflexivity.
    + intros c ndc Hc. by apply not_elem_of_nil in Hc.
  - refine (proj2 (proj1 (proj2 (one_expansion_per_game first_child))
              dealt_tree depleted play0 dealt_root_node
              (Node.mk "player0" (Some 0) [] "player0" [1; 0]%Z [3; 3]%Z [0; 1]%Z 0
                       false true None (Some play0) (Some 0%Z))
              eq_refl eq_refl _ _) _).
    + vm_compute. reflexivity.
    + intros c Hc. by apply not_elem_of_nil in Hc.
    + intros c ndc Hc Hndc. apply list_elem_of_singleton in Hc. subst c.
      injection Hndc as <-. vm_compute. reflexivity.
Defined.

(** C5, the claim as stated fails: a game can add no node at all.  On
    [depleted] every player holds one card and the deck is empty.  The first
    game adds one node to each tree; the second game walks through these
    nodes, adds nothing, and leaves both trees selecting. *)
Lemma second_game_adds_no_node :
  (s0 ← Simulators.init depleted;
   '(s1, r1) ← iteration first_child 10 s0 (const_rng 0);
   '(s2, _) ← play_game first_child 10 s1 r1;
   Ok (tree_sizes s0, tree_sizes s1, tree_sizes s2))
  = Ok ([("player0", 1, false); ("player1", 1, false)],
        [("player0", 2, false); ("player1", 2, false)],
        [("player0", 2, false); ("player1", 2, false)]).
Proof. vm_compute. reflexivity. Qed.

(** ** Legal actions *)

Lemma mapM_fmap_Ok {A B} (f : A → result B) (g : A → B) (l : list A) :
  (∀ x, x ∈ l → f x = Ok (g x)) → mapM f l = Ok (g <$> l).
Proof.
  intros H. apply mapM_Ok. apply Forall2_fmap_r, Forall_Forall2_diag, Forall_forall.
  exact H.
Qed.

Lemma elem_of_py_range lo hi k : k ∈ py_range lo hi ↔ (lo ≤ k < hi)%Z.
Proof.
  unfold py_range. rewrite list_elem_of_fmap. split.
  - intros (i & -> & Hi%elem_of_seq). lia.
  - intros Hk. exists (Z.to_nat (k - lo)). split; [lia|]. apply elem_of_seq. lia.
Qed.

Lemma allowed_actions_Ok (g : Kariba.t) p (hand : vec) :
  Kariba.hands g !! p = Some hand → length hand = Kariba.n_species g →
  Kariba.allowed_actions g p = Ok (actions_of_hand (Kariba.n_species g) p hand).
Proof.
  intros Hhand Hlen. unfold Kariba.allowed_actions, actions_of_hand.
  apply dict_get_Ok in Hhand. rewrite (bind_Ok_l _ _ _ Hhand).
  rewrite (mapM_fmap_Ok _
    (λ idx, (λ n, np_scale n (one_hot idx (Kariba.n_species g)))
              <$> py_range 1 (hand !!! idx + 1))); [done|].
  intros idx Hidx%elem_of_seq. simpl.
  destruct (lookup_lt_is_Some_2 hand idx) as [h Hh]; [lia|].
  rewrite (list_lookup_total_correct _ _ _ Hh).
  apply py_getitem_nat in Hh. by rewrite (bind_Ok_l _ _ _ Hh).
Qed.

Lemma elem_of_actions_of_hand (n : nat) p (hand : vec) e :
  e ∈ actions_of_hand n p hand ↔
  ∃ idx k, idx < n ∧ (1 ≤ k ≤ hand !!! idx)%Z
           ∧ e = mkEvent kind_action p (np_scale k (one_hot idx n)).
Proof.
  unfold actions_of_hand. rewrite list_elem_of_fmap. split.
  - intros (cs & -> & Hcs). apply list_elem_of_In, in_concat in Hcs as (l & Hl & Hcs).
    apply list_elem_of_In, list_elem_of_fmap in Hl as (idx & -> & Hidx%elem_of_seq).
    apply list_elem_of_In, list_elem_of_fmap in Hcs as (k & -> & Hk%elem_of_py_range).
    exists idx, k. split; [lia|]. split; [lia|done].
  - intros (idx & k & Hidx & Hk & ->). eexists. split; [done|].
    apply list_elem_of_In, in_concat. eexists. split.
    + apply list_elem_of_In, list_elem_of_fmap. exists idx. split; [done|].
      apply elem_of_seq. lia.
    + apply list_elem_of_In, list_elem_of_fmap. exists k. split; [done|].
      apply elem_of_py_range. lia.
Qed.

Lemma np_sum_nonneg_zero (v : vec) :
  Forall (λ x, 0 ≤ x)%Z v → np_sum v = 0%Z → Forall (λ x, x = 0%Z) v.
Proof.
  induction 1 as [|x v Hx Hv IH]; [done|]. rewrite np_sum_cons. intros Hs.
  assert (0 ≤ np_sum v)%Z.
  { clear -Hv. induction Hv; [done|]. rewrite np_sum_cons. lia. }
  constructor; [lia|]. apply IH. lia.
Qed.

Lemma np_sum_nonneg (v : vec) : Forall (λ x, 0 ≤ x)%Z v → (0 ≤ np_sum v)%Z.
Proof. induction 1; [done|]. rewrite np_sum_cons. lia. Qed.


(** The cards of a legal action. *)
Lemma np_scale_one_hot_lookup k idx n j :
  j < n → np_scale k (one_hot idx n) !! j = Some (if decide (idx = j) then k else 0%Z).
Proof.
  intros Hj. unfold np_scale. rewrite list_lookup_fmap, one_hot_lookup by done.
  simpl. case_decide; f_equal; lia.
Qed.

Lemma length_np_scale_one_hot k idx n : length (np_scale k (one_hot idx n)) = n.
Proof. unfold np_scale. by rewrite length_fmap, length_one_hot. Qed.

Lemma np_sum_np_scale k (v : vec) : np_sum (np_scale k v) = (k * np_sum v)%Z.
Proof.
  unfold np_scale. induction v as [|x v IH]; [simpl; unfold np_sum; simpl; lia|].
  rewrite fmap_cons, !np_sum_cons, IH. lia.
Qed.

Lemma single_species_np_scale k idx n :
  idx < n → k ≠ 0%Z → single_species n (np_scale k (one_hot idx n)) idx.
Proof.
  intros Hidx Hk. split; [apply length_np_scale_one_hot|]. split.
  - exists k. split; [|done]. rewrite np_scale_one_hot_lookup by done.
    by rewrite decide_True.
  - intros j y Hj Hy.
    assert (j < n) by (apply lookup_lt_Some in Hy; by rewrite length_np_scale_one_hot in Hy).
    rewrite np_scale_one_hot_lookup in Hy by done.
    rewrite decide_False in Hy by done. congruence.
Qed.

(** ** The steps of a game on well-formed states *)

Lemma whose_turn_seated (g : Kariba.t) :
  seated g →
  ∃ turn, Kariba.whose_turn g = Ok turn
    ∧ Kariba.player_names g !! Z.to_nat (Kariba.whose_turn_ g) = Some turn
    ∧ turn ∈ Kariba.player_names g
    ∧ is_Some (Kariba.hands g !! turn)
    ∧ is_Some (Kariba.scoreboard g !! turn).
Proof.
  intros (Hh & Hs & Ht). unfold Kariba.n_players in Ht.
  destruct (lookup_lt_is_Some_2 (Kariba.player_names g) (Z.to_nat (Kariba.whose_turn_ g)))
    as [turn Hturn]; [lia|].
  exists turn. assert (turn ∈ Kariba.player_names g) by (by eapply list_elem_of_lookup_2).
  split; [|split; [done|split; [done|split; [by apply Hh|by apply Hs]]]].
  unfold Kariba.whose_turn. by apply py_getitem_nonneg; [lia|].
Qed.

Lemma fear_animal_bound n (field : vec) a :
  a < n →
  Kariba.fear_animal n field a = (-1)%Z
  ∨ (0 ≤ Kariba.fear_animal n field a < Z.of_nat n)%Z.
Proof.
  intros Ha. unfold Kariba.fear_animal. case_decide; [right; lia|].
  set (l := (Z.of_nat <$> filter (λ idx, idx < a) (np_nonzero field)) ++ [(-1)%Z]).
  destruct (py_max_spec l) as [Hin _]; [subst l; by destruct (Z.of_nat <$> _)|].
  apply elem_of_app in Hin as [Hin|Hin].
  - apply list_elem_of_fmap in Hin as (idx & -> & Hidx).
    apply list_elem_of_filter in Hidx as [Hlt _]. right. lia.
  - apply list_elem_of_singleton in Hin. by left.
Qed.

Lemma game_ok_after_action (g0 g : Kariba.t) turn (hand cs f' : vec) (sb' : gmap string Z) :
  game_ok g0 g →
  Kariba.hands g !! turn = Some hand →
  vec_le cs hand →
  length f' = Kariba.n_species g →
  (∀ q, is_Some (sb' !! q) ↔ is_Some (Kariba.scoreboard g !! q)) →
  game_ok g0 (Kariba.mk (Kariba.n_species g) (Kariba.max_n_hand g) (Kariba.whose_turn_ g)
                (Kariba.player_names g) (Kariba.deck g) f'
                (<[turn := zip_with Z.sub hand cs]> (Kariba.hands g)) sb').
Proof.
  intros (HS & Hm & Hn & (Hd & Hf & Hh) & (Hsh & Hss & Ht) & Hdn & Hhn) Hhand Hle Hf' Hsb.
  pose proof (Forall2_length _ _ _ Hle) as Hlen.
  split; [done|]. split; [done|]. split; [done|]. split; [|split; [|split; [done|]]].
  - split; [done|]. split; [done|]. simpl.
    intros q h Hq. apply lookup_insert_Some in Hq as [[_ <-]|[_ Hq]]; [|by eapply Hh].
    rewrite length_zip_with. rewrite (Hh _ _ Hhand) in *. lia.
  - split; [|split; [|done]]; simpl.
    + intros q. rewrite Hsh. destruct (decide (turn = q)) as [->|].
      * rewrite lookup_insert_eq. split; eauto.
      * by rewrite lookup_insert_ne.
    + intros q. rewrite Hss. symmetry. apply Hsb.
  - simpl. intros q h Hq.
    apply lookup_insert_Some in Hq as [[_ <-]|[_ Hq]]; [|by eapply Hhn].
    apply Forall_lookup. intros i x Hx.
    apply lookup_zip_with_Some in Hx as (a & b & -> & Ha & Hb).
    pose proof (vec_le_lookup _ _ _ _ _ Hle Hb Ha). lia.
Qed.

(** A legal action applies; it moves its cards out of the hand of the player
    on turn and leaves the deck and the turn as they are. *)
Lemma action_step (g0 g : Kariba.t) turn (hand : vec) e :
  game_ok g0 g →
  Kariba.whose_turn g = Ok turn →
  Kariba.hands g !! turn = Some hand →
  e ∈ actions_of_hand (Kariba.n_species g) turn hand →
  ∃ g', Kariba.apply_event g e = Ok g'
    ∧ game_ok g0 g'
    ∧ Kariba.whose_turn_ g' = Kariba.whose_turn_ g
    ∧ Kariba.deck g' = Kariba.deck g
    ∧ Kariba.hands g' = <[turn := zip_with Z.sub hand (cards e)]> (Kariba.hands g)
    ∧ kind e = kind_action ∧ who e = turn
    ∧ length (cards e) = Kariba.n_species g
    ∧ (1 ≤ np_sum (cards e))%Z.
Proof.
  intros Hok Hturn Hhand He.
  pose proof Hok as (HS & Hm & Hn & Hshaped & Hseated & Hdn & Hhn).
  pose proof Hshaped as (Hd & Hf & Hh).
  apply elem_of_actions_of_hand in He as (idx & k & Hidx & Hk & ->). simpl.
  set (cs := np_scale k (one_hot idx (Kariba.n_species g))).
  set (e := mkEvent kind_action turn cs).
  assert (Hsingle : single_species (Kariba.n_species g) (cards e) idx)
    by (apply single_species_np_scale; [done|lia]).
  assert (Hcs : length cs = Kariba.n_species g) by apply length_np_scale_one_hot.
  assert (Hle : vec_le cs hand).
  { apply vec_le_intro; [rewrite (Hh _ _ Hhand); lia|].
    intros j x y Hx Hy. subst cs.
    rewrite np_scale_one_hot_lookup in Hx by (apply lookup_lt_Some in Hy; rewrite (Hh _ _ Hhand) in Hy; lia).
    injection Hx as <-.
    pose proof (Hhn _ _ Hhand) as Hnn. rewrite Forall_lookup in Hnn.
    specialize (Hnn j y Hy). simpl in Hnn.
    case_decide; [|lia]. subst j. rewrite (list_lookup_total_correct _ _ _ Hy) in Hk. lia. }
  set (moved := moved_state g (who e) hand (cards e)).
  assert (Hflen : length (Kariba.field moved) = Kariba.n_species g).
  { subst moved. simpl. rewrite length_zip_with. lia. }
  destruct (lookup_lt_is_Some_2 (Kariba.field moved) idx) as [count Hcount]; [lia|].
  pose proof (apply_action_unfold g e idx hand count Hshaped eq_refl Hhand Hsingle Hcount)
    as Hgo. cbn zeta in Hgo. fold moved in Hgo.
  assert (Hsum : (1 ≤ np_sum cs)%Z).
  { subst cs. rewrite np_sum_np_scale, np_sum_one_hot by done. lia. }
  assert (Hmoved : game_ok g0 moved).
  { apply (game_ok_after_action g0 g turn hand cs); try done.
    all: simpl; rewrite length_zip_with; lia. }
  destruct (3 <=? count)%Z.
  2:{ exists moved. by split_and!. }
  destruct (fear_animal_bound (Kariba.n_species g) (Kariba.field moved) idx Hidx)
    as [Hfear|Hfear].
  { rewrite Hfear in Hgo. exists moved. by split_and!. }
  destruct (Z.leb_spec 0 (Kariba.fear_animal (Kariba.n_species g) (Kariba.field moved) idx));
    [|lia].
  destruct (whose_turn_seated g Hseated) as (turn' & Hturn' & _ & _ & _ & [score Hscore]).
  rewrite Hturn in Hturn'. injection Hturn' as <-.
  apply dict_get_Ok in Hscore.
  rewrite (bind_Ok_l _ _ _ Hturn), (bind_Ok_l _ _ _ Hscore) in Hgo.
  destruct (lookup_lt_is_Some_2 (Kariba.field moved)
              (Z.to_nat (Kariba.fear_animal (Kariba.n_species g) (Kariba.field moved) idx)))
    as [chased Hchased]; [lia|].
  apply py_getitem_nonneg in Hchased; [|lia].
  rewrite (bind_Ok_l _ _ _ Hchased) in Hgo.
  eexists. split; [exact Hgo|]. split_and!; try done.
  apply (game_ok_after_action g0 g turn hand cs); try done.
  - simpl. rewrite length_insert, length_zip_with. lia.
  - intros q. simpl. apply dict_get_Ok in Hscore.
    destruct (decide (turn = q)) as [->|].
    + rewrite lookup_insert_eq. split; eauto.
    + by rewrite lookup_insert_ne.
Qed.

Lemma zip_with_sub_zeros (v cs : vec) :
  length cs = length v → Forall (λ x, x = 0%Z) cs → zip_with Z.sub v cs = v.
Proof.
  revert cs. induction v as [|x v IH]; intros [|c cs] [=] Hz; [done|].
  inversion Hz; subst. simpl. rewrite IH by done. f_equal. lia.
Qed.

Lemma zip_with_add_zeros (v cs : vec) :
  length cs = length v → Forall (λ x, x = 0%Z) cs → zip_with Z.add v cs = v.
Proof.
  revert cs. induction v as [|x v IH]; intros [|c cs] [=] Hz; [done|].
  inversion Hz; subst. simpl. rewrite IH by done. f_equal. lia.
Qed.

Lemma vec_le_zeros_nonneg (n : nat) (cs : vec) :
  vec_le (np_zeros n) cs → Forall (λ x, 0 ≤ x)%Z cs.
Proof.
  intros H. apply Forall_lookup. intros i x Hx.
  assert (Hi : i < n).
  { apply lookup_lt_Some in Hx. rewrite <- (Forall2_length _ _ _ H) in Hx.
    unfold np_zeros in Hx. by rewrite length_replicate in Hx. }
  eapply (vec_le_lookup _ _ i 0%Z x H); [|done]. by apply lookup_replicate_2.
Qed.

(** The draw of the player on turn applies.  It moves as many cards as
    [n_to_draw] says from the deck to the hand, and nothing else. *)
Lemma draw_step (g0 g : Kariba.t) turn (hand : vec) (r : rng) :
  game_ok g0 g →
  Kariba.whose_turn g = Ok turn →
  Kariba.hands g !! turn = Some hand →
  ∃ cs r' g',
    Kariba.random_card_draw g r = Ok (mkEvent kind_deck_draw turn cs, r')
    ∧ Kariba.apply_event g (mkEvent kind_deck_draw turn cs) = Ok g'
    ∧ game_ok g0 g'
    ∧ np_sum cs = Z.max 0 (Z.min (Kariba.max_n_hand g - np_sum hand) (np_sum (Kariba.deck g)))
    ∧ length cs = Kariba.n_species g
    ∧ g' = Kariba.with_hands (Kariba.with_deck g (zip_with Z.sub (Kariba.deck g) cs))
             (<[turn := zip_with Z.add hand cs]> (Kariba.hands g))
    ∧ (np_sum cs = 0%Z → g' = g).
Proof.
  intros (HS & Hm & Hn & Hshaped & Hseated & Hdn & Hhn) Hturn Hhand.
  pose proof Hshaped as (Hd & Hf & Hh).
  set (n := Z.to_nat (Kariba.n_to_draw g (np_sum hand))).
  assert (Hzeros : vec_le (np_zeros (Kariba.n_species g)) (Kariba.deck g)).
  { apply vec_le_intro; [unfold np_zeros; rewrite length_replicate; lia|].
    intros i x y Hx Hy. apply lookup_replicate in Hx as [-> _].
    rewrite Forall_lookup in Hdn. by apply (Hdn i y). }
  pose proof (vec_le_sum _ _ Hzeros) as Hsum0. rewrite np_sum_zeros in Hsum0.
  destruct (draw_loop_total g n (np_zeros (Kariba.n_species g)) r Hd Hzeros)
    as (cs & r' & Hloop & Hle & Hle').
  { rewrite np_sum_zeros. subst n. unfold Kariba.n_to_draw. lia. }
  destruct (draw_loop_sum g n (np_zeros (Kariba.n_species g)) cs r r' Hd) as [Hl Hs];
    [unfold np_zeros; by rewrite length_replicate|done|].
  rewrite np_sum_zeros in Hs.
  pose proof (vec_le_zeros_nonneg _ _ Hle) as Hcs.
  set (g' := Kariba.with_hands (Kariba.with_deck g (zip_with Z.sub (Kariba.deck g) cs))
               (<[turn := zip_with Z.add hand cs]> (Kariba.hands g))).
  exists cs, r', g'. split_and!.
  - unfold Kariba.random_card_draw. pose proof Hhand as Hget. apply dict_get_Ok in Hget.
    rewrite (bind_Ok_l _ _ _ Hturn), (bind_Ok_l _ _ _ Hget).
    cbn zeta. fold n. by rewrite Hloop.
  - unfold Kariba.apply_event, Kariba.apply_deck_draw. simpl.
    rewrite np_iop_same_length by lia. rewrite bind_ret_l.
    pose proof Hhand as Hget. apply dict_get_Ok in Hget.
    rewrite (bind_Ok_l _ _ _ Hget).
    rewrite np_iop_same_length by (rewrite (Hh _ _ Hhand); lia). done.
  - split; [done|]. split; [done|]. split; [done|].
    split; [|split; [|split]].
    + split; [simpl; rewrite length_zip_with; lia|]. split; [done|]. simpl.
      intros q h Hq. apply lookup_insert_Some in Hq as [[_ <-]|[_ Hq]]; [|by eapply Hh].
      rewrite length_zip_with. rewrite (Hh _ _ Hhand). lia.
    + destruct Hseated as (Hsh & Hss & Ht). split; [|split; [done|done]]. simpl.
      intros q. rewrite Hsh. destruct (decide (turn = q)) as [->|].
      * rewrite lookup_insert_eq. split; eauto.
      * by rewrite lookup_insert_ne.
    + simpl. apply Forall_lookup. intros i x Hx.
      apply lookup_zip_with_Some in Hx as (a & b & -> & Ha & Hb).
      pose proof (vec_le_lookup _ _ _ _ _ Hle' Hb Ha). lia.
    + simpl. intros q h Hq.
      apply lookup_insert_Some in Hq as [[_ <-]|[_ Hq]]; [|by eapply Hhn].
      apply Forall_lookup. intros i x Hx.
      apply lookup_zip_with_Some in Hx as (a & b & -> & Ha & Hb).
      pose proof (Hhn _ _ Hhand) as Hnn. rewrite Forall_lookup in Hnn, Hcs.
      specialize (Hnn i a Ha). specialize (Hcs i b Hb). simpl in *. lia.
  - subst n. unfold Kariba.n_to_draw in Hs. lia.
  - done.
  - done.
  - intros Hz. pose proof (np_sum_nonneg_zero cs Hcs Hz) as Hall.
    subst g'. rewrite zip_with_sub_zeros, zip_with_add_zeros; [| |done|lia|done].
    + rewrite insert_id by done. by destruct g.
    + rewrite (Hh _ _ Hhand). lia.
Qed.




(** ** The jungle *)

Lemma others_at_insert_fresh (m : gmap string (list Z)) q (h : vec) p i :
  m !! q = None →
  others_at (<[q := h]> m) p i
  = if decide (q = p) then others_at m p i else (h !!! i + others_at m p i)%Z.
Proof.
  intros Hq. unfold others_at. rewrite map_fold_insert_L; [done| |done].
  intros. repeat case_decide; lia.
Qed.

Lemma others_at_delete (m : gmap string (list Z)) q (h : vec) p i :
  m !! q = Some h →
  others_at m p i
  = if decide (q = p) then others_at (delete q m) p i
    else (h !!! i + others_at (delete q m) p i)%Z.
Proof.
  intros Hq. rewrite <- (insert_delete_id m q h Hq) at 1.
  apply others_at_insert_fresh, lookup_delete_eq.
Qed.

Lemma others_at_insert (m : gmap string (list Z)) q (h h' : vec) p i :
  m !! q = Some h →
  others_at (<[q := h']> m) p i
  = if decide (q = p) then others_at m p i
    else (others_at m p i - h !!! i + h' !!! i)%Z.
Proof.
  intros Hq. rewrite <- insert_delete_eq.
  rewrite others_at_insert_fresh by apply lookup_delete_eq.
  rewrite (others_at_delete m q h p i Hq). case_decide; lia.
Qed.

Lemma lookup_total_zip_with_add (a b : vec) i :
  i < length a → length a = length b →
  zip_with Z.add a b !!! i = (a !!! i + b !!! i)%Z.
Proof.
  intros Hi Hl.
  destruct (lookup_lt_is_Some_2 a i) as [x Hx]; [done|].
  destruct (lookup_lt_is_Some_2 b i) as [y Hy]; [lia|].
  rewrite (list_lookup_total_correct _ _ _ Hx), (list_lookup_total_correct _ _ _ Hy).
  apply list_lookup_total_correct, lookup_zip_with_Some. eauto.
Qed.

Lemma fmap_lookup_total_seq (v : vec) : (λ i, v !!! i) <$> seq 0 (length v) = v.
Proof.
  apply list_eq. intros i. rewrite list_lookup_fmap.
  destruct (v !! i) as [x|] eqn:Hx.
  - rewrite lookup_seq_lt by (by eapply lookup_lt_Some). simpl.
    by rewrite (list_lookup_total_correct _ _ _ Hx).
  - rewrite lookup_seq_ge; [done|]. by apply lookup_ge_None.
Qed.

Lemma jungle_fold (p : string) (n : nat) (L : list (string * list Z)) (init : vec) :
  Forall (λ kv, length kv.2 = n) L → length init = n →
  foldl (λ acc h, a ← acc; np_op Z.add a h) (Ok init)
        (snd <$> filter (λ kv, kv.1 ≠ p) L)
  = Ok ((λ i, (init !!! i
               + foldr (uncurry (λ (q : string) (h : list Z) acc,
                          if decide (q = p) then acc else (h !!! i + acc)%Z)) 0%Z L)%Z)
          <$> seq 0 n).
Proof.
  intros HL. revert init. induction HL as [|[q h] L Hh HL IH]; intros init Hinit.
  - simpl. f_equal. rewrite <- (fmap_lookup_total_seq init) at 1. rewrite Hinit.
    apply list_fmap_ext. intros _ i _. lia.
  - simpl in Hh. destruct (decide (q = p)) as [->|Hq].
    + rewrite filter_cons_False by (simpl; tauto).
      rewrite IH by done. f_equal. apply list_fmap_ext. intros _ i _. simpl.
      by rewrite decide_True.
    + rewrite filter_cons_True by done. simpl.
      rewrite np_op_same_length by lia.
      rewrite IH by (rewrite length_zip_with; lia).
      f_equal. apply list_fmap_ext. intros j i Hi. simpl.
      rewrite decide_False by done.
      apply lookup_seq in Hi as [-> Hi].
      rewrite lookup_total_zip_with_add by lia. lia.
Qed.

Lemma jungle_Ok (g : Kariba.t) p : shaped g → Kariba.jungle g p = Ok (jungle_vec g p).
Proof.
  intros (Hd & Hf & Hh). unfold Kariba.jungle, jungle_vec.
  rewrite (jungle_fold p (Kariba.n_species g)); [|apply Forall_forall|done].
  - f_equal. apply list_fmap_ext. intros _ i _. unfold others_at.
    by rewrite map_fold_foldr.
  - intros [q h] Hin%elem_of_map_to_list. by eapply Hh.
Qed.






(** A draw by another player does not change the jungle. *)
Lemma jungle_vec_draw_other (g : Kariba.t) p q (hq cs : vec) :
  shaped g → q ≠ p → Kariba.hands g !! q = Some hq → length cs = Kariba.n_species g →
  jungle_vec (Kariba.with_hands (Kariba.with_deck g (zip_with Z.sub (Kariba.deck g) cs))
                (<[q := zip_with Z.add hq cs]> (Kariba.hands g))) p
  = jungle_vec g p.
Proof.
  intros (Hd & Hf & Hh) Hne Hq Hcs. unfold jungle_vec. simpl.
  apply list_fmap_ext. intros i' i Hi. apply lookup_seq in Hi as [Heq Hi].
  simpl in Heq. subst i'.
  rewrite (others_at_insert _ _ _ _ _ _ Hq), decide_False by done.
  rewrite lookup_total_zip_with_add by (rewrite (Hh _ _ Hq); lia).
  destruct (lookup_lt_is_Some_2 (Kariba.deck g) i) as [d Hdi]; [lia|].
  destruct (lookup_lt_is_Some_2 cs i) as [c Hci]; [lia|].
  rewrite (list_lookup_total_correct _ _ _ Hdi), (list_lookup_total_correct _ _ _ Hci).
  erewrite (list_lookup_total_correct (zip_with Z.sub _ _));
    [|apply lookup_zip_with_Some; eauto]. lia.
Qed.

(** ** The sizes of a state *)

Lemma hand_size_sizes_of (g : Kariba.t) q (h : vec) :
  Kariba.hands g !! q = Some h → hand_size (sizes_of g) q = np_sum h.
Proof. intros H. unfold hand_size, sizes_of. simpl. by rewrite lookup_fmap, H. Qed.

Lemma turn_name_sizes_of (g0 g : Kariba.t) turn :
  game_ok g0 g → Kariba.whose_turn g = Ok turn → turn_name g0 (sizes_of g) = turn.
Proof.
  intros (_ & _ & Hn & _ & Hseated & _) Hturn.
  destruct (whose_turn_seated g Hseated) as (turn' & Hturn' & Hlook & _).
  rewrite Hturn in Hturn'. injection Hturn' as <-.
  unfold turn_name. simpl. by rewrite <- Hn, Hlook.
Qed.

Lemma total_size_sizes_of (g : Kariba.t) : total_size (sizes_of g) = cards_in_play g.
Proof.
  unfold total_size, cards_in_play, sizes_of, scores_total, hands_total. simpl.
  by rewrite map_fold_fmap.
Qed.



Lemma sizes_of_action (g0 g g' : Kariba.t) turn (hand cs : vec) :
  game_ok g0 g → Kariba.whose_turn g = Ok turn → Kariba.hands g !! turn = Some hand →
  length cs = Kariba.n_species g →
  Kariba.whose_turn_ g' = Kariba.whose_turn_ g →
  Kariba.deck g' = Kariba.deck g →
  Kariba.hands g' = <[turn := zip_with Z.sub hand cs]> (Kariba.hands g) →
  sizes_of g' = played g0 (sizes_of g) (np_sum cs).
Proof.
  intros Hok Hturn Hhand Hcs Ht Hd Hh. unfold played, sizes_of at 1.
  rewrite Ht, Hd, Hh.
  rewrite (turn_name_sizes_of g0 g turn Hok Hturn), (hand_size_sizes_of g turn hand Hhand).
  destruct Hok as (_ & _ & _ & (_ & _ & Hlen) & _).
  rewrite fmap_insert. by rewrite np_sum_zip_sub by (rewrite (Hlen _ _ Hhand); lia).
Qed.


Lemma total_size_played (g0 : Kariba.t) (z : sizes) k :
  is_Some (sz_hands z !! turn_name g0 z) →
  total_size (played g0 z k) = (total_size z - k)%Z.
Proof.
  intros [h Hh]. unfold total_size, played, hand_size. simpl.
  rewrite (scores_total_insert _ _ _ _ Hh), Hh. simpl. lia.
Qed.

Lemma total_size_after_draw (g0 : Kariba.t) (z : sizes) :
  is_Some (sz_hands z !! turn_name g0 z) →
  total_size (after_draw g0 z) = total_size z.
Proof.
  intros [h Hh]. unfold total_size, after_draw, hand_size. simpl.
  rewrite (scores_total_insert _ _ _ _ Hh), Hh. simpl. lia.
Qed.


Lemma hand_size_played (g0 : Kariba.t) (z : sizes) k q :
  hand_size (played g0 z k) q
  = if decide (turn_name g0 z = q) then (hand_size z q - k)%Z else hand_size z q.
Proof.
  unfold hand_size, played. simpl. case_decide as Hq.
  - subst q. by rewrite lookup_insert_eq.
  - by rewrite lookup_insert_ne.
Qed.

Lemma hand_size_after_draw (g0 : Kariba.t) (z : sizes) q :
  hand_size (after_draw g0 z) q
  = if decide (turn_name g0 z = q) then (hand_size z q + draw_count g0 z)%Z
    else hand_size z q.
Proof.
  unfold hand_size, after_draw. simpl. case_decide as Hq.
  - subst q. by rewrite lookup_insert_eq.
  - by rewrite lookup_insert_ne.
Qed.

Lemma hand_size_turned (g0 : Kariba.t) (z : sizes) q :
  hand_size (turned g0 z) q = hand_size z q.
Proof. done. Qed.


(** ** Ghosts *)


Lemma turn_name_elem_of (g0 : Kariba.t) (G : ghost) :
  ghost_ok g0 G → turn_name g0 G.1 ∈ Kariba.player_names g0.
Proof.
  intros [_ Ht]. unfold turn_name.
  destruct (lookup_lt_is_Some_2 (Kariba.player_names g0) (Z.to_nat (sz_turn G.1)))
    as [q Hq]; [lia|].
  rewrite Hq. simpl. by eapply list_elem_of_lookup_2.
Qed.

Lemma turn_name_is_Some (g0 : Kariba.t) (G : ghost) :
  ghost_ok g0 G → is_Some (sz_hands G.1 !! turn_name g0 G.1).
Proof. intros H. apply H. by apply turn_name_elem_of. Qed.

Lemma ghost_ok_insert (g0 : Kariba.t) (z : sizes) ph ph' t x :
  ghost_ok g0 (z, ph) →
  (0 ≤ t < Z.of_nat (length (Kariba.player_names g0)))%Z →
  ghost_ok g0 (mkSizes t (sz_deck z) (<[turn_name g0 z := x]> (sz_hands z)), ph').
Proof.
  intros Hok Ht. pose proof (turn_name_is_Some g0 (z, ph) Hok) as Hsome.
  destruct Hok as [Hh _]. split; [|done]. simpl in *.
  intros q. rewrite Hh. destruct (decide (turn_name g0 z = q)) as [<-|].
  - rewrite lookup_insert_eq. split; eauto.
  - by rewrite lookup_insert_ne.
Qed.


Lemma ghost_ok_played (g0 : Kariba.t) (z : sizes) ph ph' k :
  ghost_ok g0 (z, ph) → ghost_ok g0 (played g0 z k, ph').
Proof.
  intros Hok. pose proof (turn_name_is_Some g0 (z, ph) Hok) as Hsome.
  destruct Hok as [Hh Ht]. split; [|done]. simpl in *.
  intros q. rewrite Hh. destruct (decide (turn_name g0 z = q)) as [<-|].
  - rewrite lookup_insert_eq. split; eauto.
  - by rewrite lookup_insert_ne.
Qed.



Lemma total_size_act_sizes (g0 : Kariba.t) (G : ghost) :
  ghost_ok g0 G → total_size (act_sizes g0 G) = total_size G.1.
Proof.
  intros Hok. destruct G as [z [|]]; unfold act_sizes; simpl; [|done].
  apply total_size_after_draw. by apply (turn_name_is_Some g0 (z, ph_draw)).
Qed.

(** ** Nodes *)



(** ** Shuffling and popping *)





Lemma last_None_nil {A} (l : list A) : last l = None → l = [].
Proof. destruct l as [|x l] using rev_ind; [done|]. by rewrite last_snoc. Qed.


(** ** The static invariant of a tree *)








(** ** The steps of a tree *)













(** ** Selecting an action *)









(** ** Backpropagation *)

Lemma with_stats_id (nd : Node.t) : Node.with_stats nd (Node.n nd) (Node.w nd) = nd.
Proof. by destruct nd. Qed.

Lemma stats_ext_refl l : stats_ext l l.
Proof.
  split; [done|]. intros i nd Hi. exists (Node.n nd), (Node.w nd).
  by rewrite with_stats_id.
Qed.




Lemma Node_visit_Ok (nd : Node.t) winner :
  (Node.is_post_action_node nd = true → is_Some (Node.w nd)) →
  ∃ w', Node.visit nd winner = Ok (Node.with_stats nd (Node.n nd + 1) w')
        ∧ (is_Some (Node.w nd) → is_Some w').
Proof.
  intros Hw. unfold Node.visit. destruct (Node.is_post_action_node nd).
  - destruct (Hw eq_refl) as [w0 Hw0]. rewrite Hw0. by eexists.
  - by eexists.
Qed.



(** ** The dict of trees *)






Lemma trees_rel_lookup R d d' k t' :
  trees_rel R d d' → Simulators.lookup_tree d' k = Ok t' →
  ∃ t, Simulators.lookup_tree d k = Ok t ∧ R k t t'.
Proof.
  induction 1 as [|[k1 t1] [k1' t1'] d d' [Hk Ht] _ IH]; [done|].
  simpl in *. subst k1'. case_decide; [|done].
  intros [= ->]. subst k1. by exists t1.
Qed.



(** ** One turn of a simulated game *)





(** ** A simulated game *)



(** ** The coordinator *)

Lemma elem_of_dict_keys (l : list string) k : k ∈ dict_keys l ↔ k ∈ l.
Proof.
  induction l as [|x l IH]; [done|]. simpl. rewrite !elem_of_cons, list_elem_of_filter, IH.
  split.
  - intros [->|[Hne Hin]]; [by left|by right].
  - intros [->|Hin]; [by left|].
    destruct (decide (k = x)) as [->|Hne]; [by left|]. right. by split.
Qed.








(** ** One iteration *)


(** ** The iterations *)


Lemma lookup_tree_Forall (P : string → Tree.t → Prop) d k :
  k ∈ d.*1 → Forall (λ kv, P kv.1 kv.2) d →
  ∃ t, Simulators.lookup_tree d k = Ok t ∧ P k t.
Proof.
  intros Hin Hall. induction Hall as [|[k' t'] d HP _ IH]; simpl in *.
  { by apply not_elem_of_nil in Hin. }
  case_decide as Hdec.
  - subst k'. by exists t'.
  - apply elem_of_cons in Hin as [Hin|Hin]; [done|]. by apply IH.
Qed.



(** ** The answer of the search *)


Lemma seated_intro (g : Kariba.t) :
  Forall (λ p, is_Some (Kariba.hands g !! p) ∧ is_Some (Kariba.scoreboard g !! p))
    (Kariba.player_names g) →
  map_Forall (λ p _, p ∈ Kariba.player_names g) (Kariba.hands g) →
  map_Forall (λ p _, p ∈ Kariba.player_names g) (Kariba.scoreboard g) →
  (0 ≤ Kariba.whose_turn_ g < Kariba.n_players g)%Z →
  seated g.
Proof.
  intros Hnames Hhands Hscore Hturn. rewrite Forall_forall in Hnames.
  split; [|split; [|done]].
  - intros p. split; [intros Hp; by apply Hnames|]. intros [h Hh]. by apply (Hhands p h).
  - intros p. split; [intros Hp; by apply Hnames|]. intros [h Hh]. by apply (Hscore p h).
Qed.

Lemma dealt_root_dealt : dealt_root dealt.
Proof.
  assert (Hshaped : shaped dealt).
  { apply shaped_intro; [reflexivity..|].
    apply (bool_decide_unpack _). vm_compute. exact I. }
  assert (Hseated : seated dealt).
  { apply seated_intro.
    - apply (bool_decide_unpack _). vm_compute. exact I.
    - apply (bool_decide_unpack _). vm_compute. exact I.
    - apply (bool_decide_unpack _). vm_compute. exact I.
    - vm_compute. by split. }
  split_and!.
  - split_and!; [done|done|done|done|done| |].
    + apply (bool_decide_unpack _). vm_compute. exact I.
    + change (map_Forall (λ _ h, Forall (λ x, 0 ≤ x)%Z h) (Kariba.hands dealt)).
      apply (bool_decide_unpack _). vm_compute. exact I.
  - apply (bool_decide_unpack _). vm_compute. exact I.
  - vm_compute. discriminate.
  - vm_compute. reflexivity.
  - vm_compute. reflexivity.
Defined.




(** * Further properties of the module *)

(** ** [Kariba.allowed_actions] *)

Lemma sum_list_lookup_total (hand : vec) :
  Forall (λ x, 0 ≤ x)%Z hand →
  sum_list ((λ idx, Z.to_nat (hand !!! idx)) <$> seq 0 (length hand))
  = Z.to_nat (np_sum hand).
Proof.
  induction 1 as [|x hand Hx Hhand IH]; [done|].
  cbn [length seq]. rewrite fmap_cons, <- fmap_S_seq, <- list_fmap_compose.
  rewrite np_sum_cons. cbn [sum_list]. simpl.
  erewrite list_fmap_ext; [rewrite IH|done].
  pose proof (np_sum_nonneg hand Hhand). lia.
Qed.

Lemma length_py_range lo hi : length (py_range lo hi) = Z.to_nat (hi - lo).
Proof. unfold py_range. by rewrite length_fmap, length_seq. Qed.

Lemma length_actions_of_hand p (hand : vec) :
  Forall (λ x, 0 ≤ x)%Z hand →
  length (actions_of_hand (length hand) p hand) = Z.to_nat (np_sum hand).
Proof.
  intros Hhand. unfold actions_of_hand.
  rewrite length_fmap, length_concat, <- list_fmap_compose.
  rewrite <- (sum_list_lookup_total hand Hhand). f_equal.
  apply list_fmap_ext. intros i idx _. simpl.
  rewrite length_fmap, length_py_range. f_equal. lia.
Qed.

(** X1.  [allowed_actions(player)] raises [KeyError] for a player without a
    hand.  On a hand of [n_species] counts, none negative, it returns the
    actions of [player] that play [k] cards of one species [idx], for every
    species and every [k] from one up to the number held, and nothing else:
    as many actions as the hand holds cards, none on an empty hand. *)
Theorem allowed_actions_enumerates (g : Kariba.t) (p : string) :
  (Kariba.hands g !! p = None → Kariba.allowed_actions g p = Raise KeyError)
  ∧ (∀ hand : vec,
       Kariba.hands g !! p = Some hand →
       length hand = Kariba.n_species g →
       Forall (λ x, 0 ≤ x)%Z hand →
       ∃ acts, Kariba.allowed_actions g p = Ok acts
         ∧ (∀ e, e ∈ acts ↔
              ∃ idx held k, hand !! idx = Some held ∧ (1 ≤ k ≤ held)%Z
                ∧ e = mkEvent kind_action p
                        (np_scale k (one_hot idx (Kariba.n_species g))))
         ∧ Z.of_nat (length acts) = np_sum hand
         ∧ (acts = [] ↔ np_sum hand = 0%Z)).
Proof.
  split.
  { intros Hnone. unfold Kariba.allowed_actions, dict_get. by rewrite Hnone. }
  intros hand Hhand Hlen Hnn.
  exists (actions_of_hand (Kariba.n_species g) p hand).
  pose proof (np_sum_nonneg hand Hnn) as Hsum.
  assert (Hcount : Z.of_nat (length (actions_of_hand (Kariba.n_species g) p hand))
                   = np_sum hand).
  { rewrite <- Hlen, length_actions_of_hand by done. lia. }
  split_and!; [by apply allowed_actions_Ok| |done|].
  - intros e. rewrite elem_of_actions_of_hand. split.
    + intros (idx & k & Hidx & Hk & ->).
      destruct (lookup_lt_is_Some_2 hand idx) as [held Hheld]; [lia|].
      exists idx, held, k. rewrite (list_lookup_total_correct _ _ _ Hheld) in Hk. done.
    + intros (idx & held & k & Hheld & Hk & ->). exists idx, k.
      rewrite (list_lookup_total_correct _ _ _ Hheld).
      split; [|done]. rewrite <- Hlen. by eapply lookup_lt_Some.
  - split; [intros Hnil; rewrite Hnil in Hcount; simpl in Hcount; lia|].
    intros Hzero. apply nil_length_inv. lia.
Qed.

Lemma allowed_actions_enumerates_witness :
  ∃ acts, Kariba.allowed_actions dealt "player0" = Ok acts
    ∧ Z.of_nat (length acts) = 2%Z
    ∧ Kariba.allowed_actions dealt "nobody" = Raise KeyError.
Proof.
  destruct (allowed_actions_enumerates dealt "player0") as [_ H].
  destruct (H [1; 1]%Z) as (acts & Hacts & _ & Hlen & _).
  - reflexivity.
  - reflexivity.
  - repeat constructor; lia.
  - exists acts. split; [done|]. split; [done|].
    apply (allowed_actions_enumerates dealt "nobody"). reflexivity.
Defined.

(** ** Whose turn it is *)

(** X2.  [whose_turn] indexes [player_names] with [whose_turn_] as Python
    does: an index from [-n_players] up to [n_players - 1] denotes the name
    at [whose_turn_ mod n_players] (a negative index counts from the end),
    and any other index raises [IndexError]. *)
Theorem whose_turn_index (g : Kariba.t) :
  ((-Kariba.n_players g ≤ Kariba.whose_turn_ g < Kariba.n_players g)%Z →
   ∃ name, Kariba.whose_turn g = Ok name
     ∧ Kariba.player_names g
         !! Z.to_nat (Kariba.whose_turn_ g `mod` Kariba.n_players g) = Some name)
  ∧ ((Kariba.whose_turn_ g < -Kariba.n_players g
      ∨ Kariba.n_players g ≤ Kariba.whose_turn_ g)%Z →
     Kariba.whose_turn g = Raise IndexError).
Proof.
  unfold Kariba.whose_turn, Kariba.n_players, py_getitem.
  set (n := Z.of_nat (length (Kariba.player_names g))).
  set (i := Kariba.whose_turn_ g). split.
  - intros Hi. destruct (Z.ltb_spec i 0).
    + destruct (Z.ltb_spec (i + n) 0); [lia|].
      replace (i `mod` n)%Z with (i + n)%Z
        by (apply Z.mod_unique with (-1)%Z; lia).
      destruct (lookup_lt_is_Some_2 (Kariba.player_names g) (Z.to_nat (i + n)))
        as [name Hname]; [lia|].
      exists name. by rewrite Hname.
    + destruct (Z.ltb_spec i 0); [lia|].
      rewrite Z.mod_small by lia.
      destruct (lookup_lt_is_Some_2 (Kariba.player_names g) (Z.to_nat i))
        as [name Hname]; [lia|].
      exists name. by rewrite Hname.
  - intros Hi. destruct (Z.ltb_spec i 0).
    + destruct (Z.ltb_spec (i + n) 0); [done|]. lia.
    + destruct (Z.ltb_spec i 0); [lia|].
      rewrite lookup_ge_None_2; [done|lia].
Qed.

Lemma whose_turn_index_witness :
  Kariba.whose_turn (Kariba.with_whose_turn_ root44 (-1)) = Ok "player1"
  ∧ Kariba.whose_turn (Kariba.with_whose_turn_ root44 2) = Raise IndexError.
Proof.
  split.
  - destruct (proj1 (whose_turn_index (Kariba.with_whose_turn_ root44 (-1))))
      as (name & Hname & Hat); [vm_compute; split; [discriminate|reflexivity]|].
    rewrite Hname. f_equal. vm_compute in Hat. by injection Hat as <-.
  - apply (proj2 (whose_turn_index (Kariba.with_whose_turn_ root44 2))).
    right. vm_compute. discriminate.
Defined.

Lemma with_whose_turn_id (g : Kariba.t) :
  Kariba.with_whose_turn_ g (Kariba.whose_turn_ g) = g.
Proof. by destruct g. Qed.

Lemma next_turns_run (g : Kariba.t) (k : nat) :
  Kariba.player_names g ≠ [] →
  (0 ≤ Kariba.whose_turn_ g < Kariba.n_players g)%Z →
  run_steps g (replicate k step_next_turn)
  = Ok (Kariba.with_whose_turn_ g
          ((Kariba.whose_turn_ g + Z.of_nat k) `mod` Kariba.n_players g)).
Proof.
  intros Hne. revert g Hne. induction k as [|k IH]; intros g Hne Hi.
  - simpl. rewrite Z.add_0_r, Z.mod_small by done. by rewrite with_whose_turn_id.
  - assert (Hn : Kariba.n_players g ≠ 0%Z).
    { unfold Kariba.n_players. destruct (Kariba.player_names g); [done|]. simpl. lia. }
    cbn [replicate run_steps run_step].
    unfold Kariba.next_turn, Kariba.who_next_turn_.
    rewrite decide_False by done. simpl.
    rewrite IH; [|done|].
    + simpl. unfold Kariba.n_players. simpl. f_equal.
      destruct g as [? ? i names ? ? ? ?]. unfold Kariba.with_whose_turn_. simpl in *.
      f_equal. rewrite Zplus_mod_idemp_l. f_equal. lia.
    + simpl. unfold Kariba.n_players in *. simpl. apply Z.mod_pos_bound. lia.
Qed.

(** X3.  [next_turn] only changes [whose_turn_].  Without players it raises
    [ZeroDivisionError]; otherwise the new index is
    [(whose_turn_ + 1) mod n_players], which denotes a player whatever the
    index was before.  From an index that denotes a player from the front,
    one turn per player leads back to the same state. *)
Theorem next_turn_round (g : Kariba.t) :
  (Kariba.player_names g = [] → Kariba.next_turn g = Raise ZeroDivisionError)
  ∧ (Kariba.player_names g ≠ [] →
     ∃ i, Kariba.next_turn g = Ok (Kariba.with_whose_turn_ g i)
       ∧ i = ((Kariba.whose_turn_ g + 1) `mod` Kariba.n_players g)%Z
       ∧ (0 ≤ i < Kariba.n_players g)%Z)
  ∧ (Kariba.player_names g ≠ [] →
     (0 ≤ Kariba.whose_turn_ g < Kariba.n_players g)%Z →
     run_steps g (replicate (length (Kariba.player_names g)) step_next_turn) = Ok g).
Proof.
  split_and!.
  - intros Hnil. unfold Kariba.next_turn, Kariba.who_next_turn_, Kariba.n_players.
    rewrite Hnil. by rewrite decide_True.
  - intros Hne.
    assert (Hn : (0 < Kariba.n_players g)%Z).
    { unfold Kariba.n_players. destruct (Kariba.player_names g); [done|]. simpl. lia. }
    eexists. unfold Kariba.next_turn, Kariba.who_next_turn_.
    rewrite decide_False by lia. simpl. split; [done|]. split; [done|].
    apply Z.mod_pos_bound. lia.
  - intros Hne Hi. rewrite next_turns_run by done.
    fold (Kariba.n_players g).
    rewrite <- (Z.mul_1_l (Kariba.n_players g)) at 1.
    rewrite Z.mod_add by lia. rewrite Z.mod_small by done.
    by rewrite with_whose_turn_id.
Qed.

Lemma next_turn_round_witness :
  run_steps dealt [step_next_turn; step_next_turn] = Ok dealt.
Proof.
  apply (proj2 (proj2 (next_turn_round dealt))).
  - discriminate.
  - vm_compute. split; [discriminate|reflexivity].
Defined.

(** ** [Kariba.is_final] *)

Lemma any_empty_hand_spec (hands : gmap string (list Z)) (names : list string) :
  (∀ p, p ∈ names → is_Some (hands !! p)) →
  ∃ l, mapM (λ player, h ← dict_get hands player; Ok (bool_decide (np_sum h = 0%Z))) names
       = Ok l
    ∧ (existsb id l = true ↔ ∃ p h, p ∈ names ∧ hands !! p = Some h ∧ np_sum h = 0%Z).
Proof.
  induction names as [|p names IH]; intros Hall.
  - exists []. split; [done|]. simpl. split; [done|].
    intros (p & h & Hp & _). by apply not_elem_of_nil in Hp.
  - destruct IH as (l & Hl & Hspec); [intros q Hq; apply Hall; by right|].
    destruct (Hall p) as [h Hh]; [by left|].
    exists (bool_decide (np_sum h = 0%Z) :: l). cbn [mapM].
    rewrite (proj2 (dict_get_Ok _ _ _) Hh). simpl. rewrite Hl. simpl. split; [done|].
    change (bool_decide (np_sum h = 0%Z) || existsb id l = true ↔
            ∃ p0 h0, p0 ∈ p :: names ∧ hands !! p0 = Some h0 ∧ np_sum h0 = 0%Z).
    rewrite orb_true_iff, Hspec, bool_decide_eq_true. split.
    + intros [Hz|(q & hq & Hq & Hhq & Hz)].
      * exists p, h. split; [by left|done].
      * exists q, hq. split; [by right|done].
    + intros (q & hq & Hq & Hhq & Hz). apply elem_of_cons in Hq as [->|Hq].
      * left. rewrite Hh in Hhq. by injection Hhq as ->.
      * right. by exists q, hq.
Qed.

Lemma any_empty_hand_KeyError (hands : gmap string (list Z)) (names : list string) :
  (∃ p, p ∈ names ∧ hands !! p = None) →
  mapM (λ player, h ← dict_get hands player; Ok (bool_decide (np_sum h = 0%Z))) names
  = Raise KeyError.
Proof.
  induction names as [|q names IH]; intros (p & Hp & Hnone).
  - by apply not_elem_of_nil in Hp.
  - cbn [mapM]. destruct (hands !! q) as [h|] eqn:Hq.
    2:{ unfold dict_get. by rewrite Hq. }
    rewrite (proj2 (dict_get_Ok _ _ _) Hq). simpl. rewrite IH; [done|]. apply elem_of_cons in Hp as [->|Hp]; [congruence|].
    by exists p.
Qed.

(** X4.  The sum of the deck is a 64-bit integer, as numpy has it.
    [is_final] tests the deck first: while the deck holds a card the state is
    not final, and the hands are not looked at, so a player without a hand
    raises nothing.  With the deck used up, every player of [player_names]
    is looked up: a player without a hand raises [KeyError]; otherwise, the
    sums of the hands being 64-bit integers too, the state is final exactly
    when the hand of some player sums to zero. *)
Theorem is_final_cases (g : Kariba.t) :
  in_int64 (np_sum (Kariba.deck g)) →
  (np_sum (Kariba.deck g) ≠ 0%Z → Kariba.is_final g = Ok false)
  ∧ (np_sum (Kariba.deck g) = 0%Z →
     (∀ p, p ∈ Kariba.player_names g →
        ∃ h, Kariba.hands g !! p = Some h ∧ in_int64 (np_sum h)) →
     ∃ b, Kariba.is_final g = Ok b
       ∧ (b = true ↔ ∃ p h, p ∈ Kariba.player_names g
                            ∧ Kariba.hands g !! p = Some h ∧ np_sum h = 0%Z))
  ∧ (np_sum (Kariba.deck g) = 0%Z →
     (∃ p, p ∈ Kariba.player_names g ∧ Kariba.hands g !! p = None) →
     Kariba.is_final g = Raise KeyError).
Proof.
  intros _. unfold Kariba.is_final, Kariba.any_empty_hand. split_and!.
  - intros Hdeck. by rewrite decide_False.
  - intros Hdeck Hall. rewrite decide_True by done.
    destruct (any_empty_hand_spec (Kariba.hands g) (Kariba.player_names g))
      as (l & Hl & Hspec).
    { intros p Hp. destruct (Hall p Hp) as (h & Hh & _). by exists h. }
    rewrite Hl. simpl. by eexists.
  - intros Hdeck Hmissing. rewrite decide_True by done.
    by rewrite any_empty_hand_KeyError.
Qed.

Lemma is_final_cases_witness :
  Kariba.is_final dealt = Ok false
  ∧ Kariba.is_final (Kariba.with_deck root44 [0; 0]%Z) = Ok true
  ∧ Kariba.is_final
      (Kariba.with_hands (Kariba.with_deck root44 [0; 0]%Z) ∅) = Raise KeyError.
Proof.
  split_and!.
  - apply (proj1 (is_final_cases dealt ltac:(vm_compute; split; [discriminate|reflexivity]))).
    vm_compute. discriminate.
  - destruct (proj1 (proj2 (is_final_cases (Kariba.with_deck root44 [0; 0]%Z)
                              ltac:(vm_compute; split; [discriminate|reflexivity]))))
      as (b & Hb & Htrue).
    + reflexivity.
    + intros p Hp. apply elem_of_cons in Hp as [->|Hp].
      { exists [0; 0]%Z. split; [reflexivity|]. vm_compute. split; [discriminate|reflexivity]. }
      apply list_elem_of_singleton in Hp. subst p.
      exists [0; 0]%Z. split; [reflexivity|]. vm_compute. split; [discriminate|reflexivity].
    + rewrite Hb. f_equal. apply Htrue. exists "player0", [0; 0]%Z.
      split_and!; [by left|reflexivity|reflexivity].
  - apply (proj2 (proj2 (is_final_cases
             (Kariba.with_hands (Kariba.with_deck root44 [0; 0]%Z) ∅)
             ltac:(vm_compute; split; [discriminate|reflexivity])))).
    + reflexivity.
    + exists "player0". split; [by left|reflexivity].
Defined.

(** ** [Kariba.jungle] *)



(** X6.  A draw by another player is hidden from [p]: after [apply_event]
    on a deck-draw event of [q], the hand of [p], the field and the jungle of
    [p] are what they were, and the node that the tree of [p] builds for
    the event is the node it would have built before the event. *)
Theorem draw_hidden_from_others (g g' : Kariba.t) (q p : string) (cs : vec) :
  shaped g →
  length cs = Kariba.n_species g →
  q ≠ p →
  Kariba.apply_event g (mkEvent kind_deck_draw q cs) = Ok g' →
  Kariba.hands g' !! p = Kariba.hands g !! p
  ∧ Kariba.field g' = Kariba.field g
  ∧ Kariba.jungle g' p = Kariba.jungle g p
  ∧ ∀ parent, Node.init g' p (Some (mkEvent kind_deck_draw q cs)) parent
              = Node.init g p (Some (mkEvent kind_deck_draw q cs)) parent.
Proof.
  intros Hshaped Hlen Hne Happ. pose proof Hshaped as (Hd & Hf & Hh).
  unfold Kariba.apply_event, Kariba.apply_deck_draw in Happ. simpl in Happ.
  rewrite np_iop_same_length, bind_ret_l in Happ by lia.
  destruct (Kariba.hands g !! q) as [hq|] eqn:Hq.
  2:{ unfold dict_get in Happ. by rewrite Hq in Happ. }
  rewrite (proj2 (dict_get_Ok _ _ _) Hq), bind_ret_l in Happ.
  rewrite np_iop_same_length, bind_ret_l in Happ by (rewrite (Hh _ _ Hq); lia).
  injection Happ as <-.
  assert (Hshaped' : shaped (Kariba.with_hands
            (Kariba.with_deck g (zip_with Z.sub (Kariba.deck g) cs))
            (<[q := zip_with Z.add hq cs]> (Kariba.hands g)))).
  { split; [simpl; rewrite length_zip_with; lia|]. split; [done|]. simpl.
    intros k h Hk. apply lookup_insert_Some in Hk as [[_ <-]|[_ Hk]]; [|by eapply Hh].
    rewrite length_zip_with, (Hh _ _ Hq). lia. }
  assert (Hhands : Kariba.hands (Kariba.with_hands
            (Kariba.with_deck g (zip_with Z.sub (Kariba.deck g) cs))
            (<[q := zip_with Z.add hq cs]> (Kariba.hands g))) !! p
          = Kariba.hands g !! p) by (simpl; by rewrite lookup_insert_ne).
  assert (Hjungle : Kariba.jungle (Kariba.with_hands
            (Kariba.with_deck g (zip_with Z.sub (Kariba.deck g) cs))
            (<[q := zip_with Z.add hq cs]> (Kariba.hands g))) p
          = Kariba.jungle g p).
  { rewrite !jungle_Ok by done. f_equal. by apply jungle_vec_draw_other. }
  split_and!; [done|done|done|].
  intros parent. unfold Node.init. rewrite Hjungle. unfold dict_get. by rewrite Hhands.
Qed.

Lemma draw_hidden_from_others_witness :
  Kariba.jungle
    (Kariba.with_hands (Kariba.with_deck dealt [2; 2]%Z)
       (<["player1" := [1; 1]%Z]> (Kariba.hands dealt))) "player0"
  = Kariba.jungle dealt "player0".
Proof.
  refine (proj1 (proj2 (proj2 (draw_hidden_from_others dealt _ "player1" "player0"
            [0; 1]%Z _ _ _ _)))).
  - apply shaped_intro; [reflexivity..|].
    apply (bool_decide_unpack _). vm_compute. exact I.
  - reflexivity.
  - discriminate.
  - vm_compute. reflexivity.
Defined.

(** ** A turn of the game *)

Lemma game_ok_intro (g : Kariba.t) :
  shaped g → seated g →
  Forall (λ x, 0 ≤ x)%Z (Kariba.deck g) →
  map_Forall (λ _ h, Forall (λ x, 0 ≤ x)%Z h) (Kariba.hands g) →
  game_ok g g.
Proof. intros. by split_and!. Qed.

(** X7.  The state has [n_species] entries in the deck, the field and every
    hand, its players are those of [player_names], and no count of the deck
    or of a hand is negative; the player on turn holds at most
    [max_n_hand] cards, and [max_n_hand] and the sum of the deck are below
    [2^63], so that numpy computes the sums and the difference without
    wrap-around.  Then [random_card_draw] followed by [apply_event] fills the
    hand of the player on turn up to [max_n_hand], or uses the deck up: the
    cards only move from the deck to that hand, and the state keeps its shape
    and has no negative count. *)
Theorem draw_fills_hand (g : Kariba.t) (turn : string) (hand : vec) (r : rng) :
  game_ok g g →
  Kariba.whose_turn g = Ok turn →
  Kariba.hands g !! turn = Some hand →
  (np_sum hand ≤ Kariba.max_n_hand g)%Z →
  (Kariba.max_n_hand g < 2 ^ 63)%Z →
  (np_sum (Kariba.deck g) < 2 ^ 63)%Z →
  ∃ e r' g' hand',
    Kariba.random_card_draw g r = Ok (e, r')
    ∧ Kariba.apply_event g e = Ok g'
    ∧ game_ok g g'
    ∧ Kariba.hands g' !! turn = Some hand'
    ∧ (np_sum hand' = Kariba.max_n_hand g ∨ np_sum (Kariba.deck g') = 0%Z)
    ∧ (np_sum hand' + np_sum (Kariba.deck g')
       = np_sum hand + np_sum (Kariba.deck g))%Z
    ∧ (∀ q, q ≠ turn → Kariba.hands g' !! q = Kariba.hands g !! q)
    ∧ Kariba.field g' = Kariba.field g
    ∧ Kariba.scoreboard g' = Kariba.scoreboard g
    ∧ Kariba.whose_turn_ g' = Kariba.whose_turn_ g.
Proof.
  intros Hok Hturn Hhand Hcap _ _.
  destruct (draw_step g g turn hand r Hok Hturn Hhand)
    as (cs & r' & g' & Hdraw & Happ & Hok' & Hsum & Hlen & Hg' & _).
  pose proof Hok as (_ & _ & _ & (Hd & _ & Hh) & _ & Hdn & _).
  pose proof (np_sum_nonneg _ Hdn) as Hdeck.
  exists (mkEvent kind_deck_draw turn cs), r', g', (zip_with Z.add hand cs).
  split_and!; try done.
  - rewrite Hg'. simpl. apply lookup_insert_eq.
  - rewrite Hg'. simpl.
    rewrite np_sum_zip_add, np_sum_zip_sub by (rewrite ?(Hh _ _ Hhand); lia). lia.
  - rewrite Hg'. simpl.
    rewrite np_sum_zip_add, np_sum_zip_sub by (rewrite ?(Hh _ _ Hhand); lia). lia.
  - intros q Hq. rewrite Hg'. simpl. by rewrite lookup_insert_ne.
  - by rewrite Hg'.
  - by rewrite Hg'.
  - by rewrite Hg'.
Qed.

Lemma game_ok_dealt : game_ok dealt dealt.
Proof. apply dealt_root_dealt. Defined.

Lemma draw_fills_hand_witness :
  ∃ e r' g' hand',
    Kariba.random_card_draw
      (Kariba.with_whose_turn_ dealt 1) (const_rng 0) = Ok (e, r')
    ∧ Kariba.apply_event (Kariba.with_whose_turn_ dealt 1) e = Ok g'
    ∧ Kariba.hands g' !! "player1" = Some hand'
    ∧ (np_sum hand' = 2%Z ∨ np_sum (Kariba.deck g') = 0%Z).
Proof.
  destruct (draw_fills_hand (Kariba.with_whose_turn_ dealt 1) "player1" [1; 0]%Z
              (const_rng 0))
    as (e & r' & g' & hand' & Hdraw & Happ & _ & Hhand' & Hfull & _).
  - apply game_ok_intro.
    + apply shaped_intro; [reflexivity..|].
      apply (bool_decide_unpack _). vm_compute. exact I.
    + apply seated_intro.
      * apply (bool_decide_unpack _). vm_compute. exact I.
      * apply (bool_decide_unpack _). vm_compute. exact I.
      * apply (bool_decide_unpack _). vm_compute. exact I.
      * vm_compute. split; [discriminate|reflexivity].
    + apply (bool_decide_unpack _). vm_compute. exact I.
    + apply (bool_decide_unpack _). vm_compute. exact I.
  - reflexivity.
  - reflexivity.
  - vm_compute. discriminate.
  - reflexivity.
  - reflexivity.
  - exists e, r', g', hand'. exact (conj Hdraw (conj Happ (conj Hhand' Hfull))).
Defined.

(** X8.  On a state as in X7, every action that [allowed_actions] lists for
    the player on turn is accepted by [apply_event]: no error is raised, the
    action plays at least one card, the cards of deck and hands are fewer by
    just the cards played, the deck and the turn are left alone, and the
    state keeps its shape and has no negative count. *)
Theorem allowed_action_applies (g : Kariba.t) (turn : string) (acts : list Event)
    (e : Event) :
  game_ok g g →
  Kariba.whose_turn g = Ok turn →
  Kariba.allowed_actions g turn = Ok acts →
  e ∈ acts →
  ∃ g', Kariba.apply_event g e = Ok g'
    ∧ game_ok g g'
    ∧ (1 ≤ np_sum (cards e))%Z
    ∧ cards_in_play g' = (cards_in_play g - np_sum (cards e))%Z
    ∧ Kariba.deck g' = Kariba.deck g
    ∧ Kariba.whose_turn_ g' = Kariba.whose_turn_ g.
Proof.
  intros Hok Hturn Hacts He.
  pose proof Hok as (_ & _ & _ & Hshaped & Hseated & _ & _).
  destruct (whose_turn_seated g Hseated) as (turn' & Hturn' & _ & _ & [hand Hhand] & _).
  rewrite Hturn in Hturn'. injection Hturn' as <-.
  rewrite (allowed_actions_Ok g turn hand Hhand) in Hacts
    by (destruct Hshaped as (_ & _ & Hh); by eapply Hh).
  injection Hacts as <-.
  destruct (action_step g g turn hand e Hok Hturn Hhand He)
    as (g' & Happ & Hok' & Hwt & Hdeck & Hhands & Hkind & Hwho & Hlen & Hpos).
  exists g'. split_and!; try done.
  rewrite <- !total_size_sizes_of.
  rewrite (sizes_of_action g g g' turn hand (cards e)) by done.
  rewrite total_size_played; [done|].
  rewrite (turn_name_sizes_of g g turn) by done. simpl.
  rewrite lookup_fmap, Hhand. by eexists.
Qed.

Lemma allowed_action_applies_witness :
  ∃ g', Kariba.apply_event dealt play0 = Ok g' ∧ cards_in_play g' = 7%Z.
Proof.
  destruct (allowed_action_applies dealt "player0"
              (actions_of_hand 2 "player0" [1; 1]%Z) play0)
    as (g' & Happ & _ & _ & Hcards & _).
  - exact game_ok_dealt.
  - reflexivity.
  - vm_compute. reflexivity.
  - vm_compute. apply elem_of_cons. by left.
  - exists g'. split; [done|]. rewrite Hcards. vm_compute. reflexivity.
Defined.

(** ** An action without cards *)

Lemma np_nonzero_zeros (cs : vec) : Forall (λ x, x = 0%Z) cs → np_nonzero cs = [].
Proof.
  intros Hz. unfold np_nonzero.
  assert (Hin : ∀ i, i ∈ seq 0 (length cs) → i < length cs).
  { intros i Hi. apply elem_of_seq in Hi. lia. }
  induction (seq 0 (length cs)) as [|i l IH]; [done|].
  rewrite filter_cons, IH by (intros j Hj; apply Hin; by right).
  rewrite decide_False; [done|].
  intros Hne. apply Hne. rewrite Forall_lookup in Hz.
  destruct (lookup_lt_is_Some_2 cs i) as [x Hx]; [apply Hin; by left|].
  rewrite (list_lookup_total_correct _ _ _ Hx). by eapply Hz.
Qed.

(** X9.  [apply_event] on an action that plays no card (all counts zero)
    raises [IndexError]: the species played is read from the first nonzero
    entry of the cards, and there is none.  The actor has a hand and the
    cards have the length of the hand and of the field. *)
Theorem empty_action_raises (g : Kariba.t) (e : Event) (hand : vec) :
  kind e = kind_action →
  Kariba.hands g !! who e = Some hand →
  length (cards e) = length hand →
  length (cards e) = length (Kariba.field g) →
  Forall (λ x, x = 0%Z) (cards e) →
  Kariba.apply_event g e = Raise IndexError.
Proof.
  intros Hkind Hhand Hlh Hlf Hz.
  unfold Kariba.apply_event, Kariba.apply_action. rewrite Hkind.
  rewrite (proj2 (dict_get_Ok _ _ _) Hhand), bind_ret_l.
  rewrite !np_iop_same_length, !bind_ret_l by done.
  by rewrite np_nonzero_zeros.
Qed.

Lemma empty_action_raises_witness :
  Kariba.apply_event dealt (mkEvent kind_action "player0" [0; 0]%Z) = Raise IndexError.
Proof.
  apply (empty_action_raises dealt _ [1; 1]%Z); try reflexivity.
  repeat constructor.
Defined.

(** ** [Node.backpropagate] along the path to the root *)

Lemma path_to_root_le fuel : ∀ l i j,
  linked l → j ∈ path_to_root fuel l i → j ≤ i.
Proof.
  induction fuel as [|fuel IH]; intros l i j Hwf Hj; simpl in Hj.
  { by apply not_elem_of_nil in Hj. }
  apply elem_of_cons in Hj as [->|Hj]; [done|].
  destruct (l !! i) as [nd|] eqn:Hnd; [|by apply not_elem_of_nil in Hj].
  destruct (Hwf i nd Hnd) as [Hpar _].
  destruct (Node.parent nd) as [k|]; [|by apply not_elem_of_nil in Hj].
  specialize (IH l k j Hwf Hj). lia.
Qed.

Lemma path_to_root_ext fuel : ∀ l l' i,
  (∀ j, Node.parent <$> l' !! j = Node.parent <$> l !! j) →
  path_to_root fuel l' i = path_to_root fuel l i.
Proof.
  induction fuel as [|fuel IH]; intros l l' i Hpar; [done|]. simpl.
  specialize (Hpar i) as Hi.
  destruct (l !! i) as [nd|], (l' !! i) as [nd'|]; simpl in Hi; try done.
  injection Hi as ->. destruct (Node.parent nd); [|done]. by rewrite (IH l l').
Qed.

Lemma backpropagate_from_path winner fuel : ∀ l i,
  i < fuel → i < length l → linked l →
  ∃ l', Tree.backpropagate_from fuel l i winner = Ok l'
    ∧ length l' = length l
    ∧ ∀ j nd, l !! j = Some nd →
        (j ∈ path_to_root fuel l i →
         ∃ nd', Node.visit nd winner = Ok nd' ∧ l' !! j = Some nd')
        ∧ (j ∉ path_to_root fuel l i → l' !! j = Some nd).
Proof.
  induction fuel as [|fuel IH]; intros l i Hfuel Hlen Hwf; [lia|].
  destruct (lookup_lt_is_Some_2 l i Hlen) as [nd Hnd].
  destruct (Hwf i nd Hnd) as [Hpar Hw].
  destruct (Node_visit_Ok nd winner Hw) as (w' & Hvisit & Hw').
  set (nd1 := Node.with_stats nd (Node.n nd + 1) w') in *.
  cbn [Tree.backpropagate_from path_to_root].
  rewrite (bind_Ok_l _ _ _ (proj2 (get_node_Ok _ _ _) Hnd)).
  rewrite (bind_Ok_l _ _ _ Hvisit). rewrite Hnd.
  assert (Hi1 : <[i := nd1]> l !! i = Some nd1) by (by apply list_lookup_insert_eq).
  destruct (Node.parent nd) as [k|] eqn:Hk.
  - assert (Hwf1 : linked (<[i := nd1]> l)).
    { intros j ndj Hj. destruct (decide (j = i)) as [->|Hne].
      - rewrite Hi1 in Hj. injection Hj as <-. simpl. rewrite Hk.
        split; [done|]. intros Hpost. by apply Hw', Hw.
      - rewrite list_lookup_insert_ne in Hj by done. by apply Hwf. }
    assert (Hpath : path_to_root fuel (<[i := nd1]> l) k = path_to_root fuel l k).
    { apply path_to_root_ext. intros j. destruct (decide (j = i)) as [->|Hne].
      - rewrite Hi1, Hnd. done.
      - by rewrite list_lookup_insert_ne. }
    destruct (IH (<[i := nd1]> l) k) as (l' & Hrun & Hlen' & Hspec);
      [lia|rewrite length_insert; lia|done|].
    rewrite Hpath in Hspec.
    assert (Hnotin : i ∉ path_to_root fuel l k).
    { intros Hin. apply (path_to_root_le _ _ _ _ Hwf) in Hin. lia. }
    exists l'. split; [done|]. split; [by rewrite Hlen', length_insert|].
    intros j ndj Hj. destruct (decide (j = i)) as [->|Hne].
    + rewrite Hnd in Hj. injection Hj as <-. split.
      * intros _. exists nd1. split; [done|]. by apply (Hspec i nd1 Hi1).
      * intros Hout. exfalso. apply Hout. by left.
    + assert (Hj1 : <[i := nd1]> l !! j = Some ndj) by (by rewrite list_lookup_insert_ne).
      destruct (Hspec j ndj Hj1) as [Hin Hout]. split.
      * intros Hjin. apply elem_of_cons in Hjin as [->|Hjin]; [done|]. by apply Hin.
      * intros Hjout. apply Hout. intros Hjin. apply Hjout. by right.
  - exists (<[i := nd1]> l). split; [done|]. split; [by rewrite length_insert|].
    intros j ndj Hj. destruct (decide (j = i)) as [->|Hne].
    + rewrite Hnd in Hj. injection Hj as <-. split.
      * intros _. by exists nd1.
      * intros Hout. exfalso. apply Hout. by left.
    + split.
      * intros Hjin. apply elem_of_cons in Hjin as [->|Hjin]; [done|].
        by apply not_elem_of_nil in Hjin.
      * intros _. by rewrite list_lookup_insert_ne.
Qed.

(** X10.  In an arena in which the parent of a node comes before the node
    and every post-action node has a reward, [Tree.backpropagate] raises
    nothing.  It visits the current node and each of its ancestors up to the
    root once: the count of visits [n] goes up by one and, on a post-action
    node of the winner, so does the reward [w].  The other nodes, the cursor
    and the mode of the tree are left as they are. *)
Theorem backpropagate_visits_path (t : Tree.t) (winner : string) :
  linked (Tree.nodes t) →
  Tree.current_node t < length (Tree.nodes t) →
  ∃ l', Tree.backpropagate t winner = Ok (Tree.with_nodes t l')
    ∧ length l' = length (Tree.nodes t)
    ∧ ∀ j nd, Tree.nodes t !! j = Some nd →
        if decide (j ∈ path_to_root (length (Tree.nodes t)) (Tree.nodes t)
                         (Tree.current_node t))
        then l' !! j = Some
               (Node.with_stats nd (Node.n nd + 1)
                  (if Node.is_post_action_node nd
                   then (λ w, w + if bool_decide (winner = Node.player nd)
                                  then 1 else 0)%Z <$> Node.w nd
                   else Node.w nd))
        else l' !! j = Some nd.
Proof.
  intros Hwf Hcur.
  destruct (backpropagate_from_path winner (length (Tree.nodes t)) (Tree.nodes t)
              (Tree.current_node t) Hcur Hcur Hwf) as (l' & Hrun & Hlen & Hspec).
  exists l'. unfold Tree.backpropagate. rewrite Hrun. split; [done|]. split; [done|].
  intros j nd Hj. destruct (Hspec j nd Hj) as [Hin Hout]. case_decide as Hdec.
  - destruct (Hin Hdec) as (nd' & Hvisit & Hj'). rewrite Hj'. f_equal.
    destruct (Hwf j nd Hj) as [_ Hw]. unfold Node.visit in Hvisit.
    destruct (Node.is_post_action_node nd).
    + destruct (Hw eq_refl) as [w0 Hw0]. rewrite Hw0 in *. by injection Hvisit as <-.
    + by injection Hvisit as <-.
  - by apply Hout.
Qed.

Lemma backpropagate_visits_path_witness :
  ∃ l', Tree.backpropagate (Tree.with_current_node tree_after_draw 1) "player0"
        = Ok (Tree.with_nodes (Tree.with_current_node tree_after_draw 1) l')
    ∧ length l' = 2.
Proof.
  destruct (backpropagate_visits_path (Tree.with_current_node tree_after_draw 1)
              "player0") as (l' & Hrun & Hlen & _).
  - intros [|[|j]] nd Hj; [| |done]; injection Hj as <-; simpl; split; (done || lia).
  - simpl. lia.
  - by exists l'.
Defined.

(** ** The coordinator at its construction *)

Lemma py_getitem_elem_of {A} (l : list A) (i : Z) (x : A) :
  py_getitem l i = Ok x → x ∈ l.
Proof.
  unfold py_getitem. destruct (_ <? 0)%Z; [done|].
  destruct (l !! _) as [y|] eqn:Hy; [|done]. intros [= <-].
  by eapply list_elem_of_lookup_2.
Qed.

(** X11.  [Simulators(game)] on a state with [n_species] entries in the deck
    and every hand, and with a player on turn: when every player of
    [player_names] has a hand, the coordinator holds the game, a snapshot of
    it, and one tree per player, in the order of [player_names] (a name that
    is repeated counts once, at the place of its first occurrence); the tree
    of a player is a single root node without a child and without a visit,
    that shows the hand of the player, the field and the jungle of the
    player, and the tree is at its root and selecting.  When some player has
    no hand, the construction raises [KeyError]. *)
Theorem Simulators_init_trees (g : Kariba.t) (turn : string) :
  shaped g →
  Kariba.whose_turn g = Ok turn →
  ((∀ p, p ∈ Kariba.player_names g → is_Some (Kariba.hands g !! p)) →
   ∃ d, Simulators.init g = Ok (Simulators.mk g g d)
     ∧ d.*1 = dict_keys (Kariba.player_names g)
     ∧ ∀ p t, (p, t) ∈ d →
         ∃ hand j, Kariba.hands g !! p = Some hand
           ∧ Kariba.jungle g p = Ok j
           ∧ t = Tree.mk p
                   [Node.mk p None [] turn hand (Kariba.field g) j 0 true false
                            None None None] 0 0 false)
  ∧ ((∃ p, p ∈ Kariba.player_names g ∧ Kariba.hands g !! p = None) →
     Simulators.init g = Raise KeyError).
Proof.
  intros Hshaped Hturn. unfold Simulators.init.
  assert (Hone : ∀ p hand, Kariba.hands g !! p = Some hand →
            Tree.init g p
            = Ok (Tree.mk p [Node.mk p None [] turn hand (Kariba.field g)
                               (jungle_vec g p) 0 true false None None None] 0 0 false)).
  { intros p hand Hhand. unfold Tree.init, Node.init.
    rewrite (bind_Ok_l _ _ _ Hturn), (bind_Ok_l _ _ _ (proj2 (dict_get_Ok _ _ _) Hhand)).
    by rewrite (bind_Ok_l _ _ _ (jungle_Ok g p Hshaped)). }
  assert (Hmiss : ∀ p, Kariba.hands g !! p = None → Tree.init g p = Raise KeyError).
  { intros p Hnone. unfold Tree.init, Node.init.
    rewrite (bind_Ok_l _ _ _ Hturn). unfold dict_get. by rewrite Hnone. }
  split.
  - intros Hall.
    assert (Hd : ∀ names, (∀ p, p ∈ names → is_Some (Kariba.hands g !! p)) →
              ∃ d, mapM (λ player, tree ← Tree.init g player; Ok (player, tree)) names = Ok d
                ∧ d.*1 = names
                ∧ ∀ p t, (p, t) ∈ d →
                    ∃ hand j, Kariba.hands g !! p = Some hand
                      ∧ Kariba.jungle g p = Ok j
                      ∧ t = Tree.mk p
                              [Node.mk p None [] turn hand (Kariba.field g) j 0 true false
                                       None None None] 0 0 false).
    { induction names as [|p names IH]; intros Hnames.
      - exists []. split_and!; [done|done|]. intros p t Hin. by apply not_elem_of_nil in Hin.
      - destruct IH as (d & Hrun & Hkeys & Hspec); [intros q Hq; apply Hnames; by right|].
        destruct (Hnames p) as [hand Hhand]; [by left|].
        eexists ((p, _) :: d). cbn [mapM]. rewrite (Hone p hand Hhand). simpl.
        rewrite Hrun. simpl. split; [done|]. split; [f_equal; exact Hkeys|].
        intros q t Hin. apply elem_of_cons in Hin as [Heq|Hin]; [|by apply Hspec].
        injection Heq as -> ->.
        exists hand, (jungle_vec g p). split; [done|]. split; [by apply jungle_Ok|done]. }
    destruct (Hd (dict_keys (Kariba.player_names g))) as (d & Hrun & Hkeys & Hspec).
    { intros p Hp. apply Hall. by apply elem_of_dict_keys. }
    exists d. rewrite Hrun. done.
  - intros (p & Hp & Hnone). apply elem_of_dict_keys in Hp.
    assert (Hd : ∀ names, p ∈ names →
              mapM (λ player, tree ← Tree.init g player; Ok (player, tree)) names
              = Raise KeyError).
    { induction names as [|q names IH]; intros Hin; [by apply not_elem_of_nil in Hin|].
      cbn [mapM]. destruct (Kariba.hands g !! q) as [hand|] eqn:Hq.
      - rewrite (Hone q hand Hq). simpl. rewrite IH; [done|].
        apply elem_of_cons in Hin as [->|Hin]; [congruence|done].
      - by rewrite (Hmiss q Hq). }
    by rewrite (Hd _ Hp).
Qed.

Lemma Simulators_init_trees_witness :
  (∃ d, Simulators.init dealt = Ok (Simulators.mk dealt dealt d)
     ∧ d.*1 = ["player0"; "player1"])
  ∧ ∃ d, Simulators.init (Kariba.init (Some [4; 4]%Z) 0 ["a"; "b"; "a"] 2 2)
         = Ok (Simulators.mk (Kariba.init (Some [4; 4]%Z) 0 ["a"; "b"; "a"] 2 2)
                 (Kariba.init (Some [4; 4]%Z) 0 ["a"; "b"; "a"] 2 2) d)
      ∧ d.*1 = ["a"; "b"].
Proof.
  split.
  - destruct (proj1 (Simulators_init_trees dealt "player0"
                       ltac:(apply shaped_intro; [reflexivity..|];
                             apply (bool_decide_unpack _); vm_compute; exact I)
                       eq_refl))
      as (d & Hinit & Hkeys & _).
    + apply Forall_forall. apply (bool_decide_unpack _). vm_compute. exact I.
    + exists d. split; [exact Hinit|]. rewrite Hkeys. vm_compute. reflexivity.
  - destruct (proj1 (Simulators_init_trees
                       (Kariba.init (Some [4; 4]%Z) 0 ["a"; "b"; "a"] 2 2) "a"
                       ltac:(apply shaped_intro; [reflexivity..|];
                             apply (bool_decide_unpack _); vm_compute; exact I)
                       eq_refl))
      as (d & Hinit & Hkeys & _).
    + apply Forall_forall. apply (bool_decide_unpack _). vm_compute. exact I.
    + exists d. split; [exact Hinit|]. rewrite Hkeys. vm_compute. reflexivity.
Defined.

(** X12.  Without an iteration the search has nothing to read: on a state
    as in X11 on which every player has a hand, [moismcts(root_state, 0)]
    raises the [ValueError] of [np.argmax] on the empty list of the children
    of the root. *)
Theorem moismcts_no_iteration ucb (fuel : nat) (g : Kariba.t) (r : rng) (turn : string) :
  shaped g →
  Kariba.whose_turn g = Ok turn →
  (∀ p, p ∈ Kariba.player_names g → is_Some (Kariba.hands g !! p)) →
  moismcts ucb fuel g 0 r
  = Raise (ValueError "attempt to get an argmax of an empty sequence").
Proof.
  intros Hshaped Hturn Hall.
  assert (Hone : ∀ p hand, Kariba.hands g !! p = Some hand →
            Tree.init g p
            = Ok (Tree.mk p [Node.mk p None [] turn hand (Kariba.field g)
                               (jungle_vec g p) 0 true false None None None] 0 0 false)).
  { intros p hand Hhand. unfold Tree.init, Node.init.
    rewrite (bind_Ok_l _ _ _ Hturn), (bind_Ok_l _ _ _ (proj2 (dict_get_Ok _ _ _) Hhand)).
    by rewrite (bind_Ok_l _ _ _ (jungle_Ok g p Hshaped)). }
  assert (Hd : ∀ names, (∀ p, p ∈ names → is_Some (Kariba.hands g !! p)) →
            ∃ d, mapM (λ player, tree ← Tree.init g player; Ok (player, tree)) names = Ok d
              ∧ d.*1 = names
              ∧ Forall (λ kv, Tree.select_best_action kv.2
                  = Raise (ValueError "attempt to get an argmax of an empty sequence")) d).
  { induction names as [|p names IH]; intros Hnames.
    - exists []. by split_and!.
    - destruct IH as (d & Hrun & Hkeys & Hspec); [intros q Hq; apply Hnames; by right|].
      destruct (Hnames p) as [hand Hhand]; [by left|].
      eexists ((p, _) :: d). cbn [mapM]. rewrite (Hone p hand Hhand). simpl.
      rewrite Hrun. simpl. split; [done|]. split; [f_equal; exact Hkeys|].
      constructor; [|done]. reflexivity. }
  destruct (Hd (dict_keys (Kariba.player_names g))) as (d & Hrun & Hkeys & Hspec).
  { intros p Hp. apply Hall. by apply elem_of_dict_keys. }
  unfold moismcts, Simulators.init. rewrite Hrun. simpl.
  unfold Simulators.select_best_action, Simulators.whose_turn. simpl. rewrite Hturn. simpl.
  destruct (lookup_tree_Forall
              (λ _ t, Tree.select_best_action t
                 = Raise (ValueError "attempt to get an argmax of an empty sequence"))
              d turn) as (t & Ht & Hbest); [|done|].
  { rewrite Hkeys. apply elem_of_dict_keys. by eapply py_getitem_elem_of. }
  by rewrite Ht.
Qed.

Lemma moismcts_no_iteration_witness :
  moismcts first_child 8 dealt 0 (const_rng 0)
  = Raise (ValueError "attempt to get an argmax of an empty sequence").
Proof.
  apply (moismcts_no_iteration first_child 8 dealt (const_rng 0) "player0").
  - apply shaped_intro; [reflexivity..|].
    apply (bool_decide_unpack _). vm_compute. exact I.
  - reflexivity.
  - apply Forall_forall. apply (bool_decide_unpack _). vm_compute. exact I.
Defined.

(** ** The simulated games of the search *)






(** ** The statistics of the trees *)

Lemma same_stats_refl l : same_stats l l.
Proof. intros j nd Hj. by exists nd. Qed.

Lemma same_stats_trans l1 l2 l3 : same_stats l1 l2 → same_stats l2 l3 → same_stats l1 l3.
Proof.
  intros H12 H23 j nd Hj. destruct (H12 j nd Hj) as (nd2 & Hj2 & Hn2 & Hw2).
  destruct (H23 j nd2 Hj2) as (nd3 & Hj3 & Hn3 & Hw3).
  exists nd3. split; [done|]. split; congruence.
Qed.

Lemma game_keeps_refl t : game_keeps t t.
Proof. split; [apply same_stats_refl|done]. Qed.

Lemma game_keeps_trans t1 t2 t3 : game_keeps t1 t2 → game_keeps t2 t3 → game_keeps t1 t3.
Proof. intros [H12 F12] [H23 F23]. split; [by eapply same_stats_trans|auto]. Qed.

Lemma Node_init_stats g p event parent nd :
  Node.init g p event parent = Ok nd →
  Node.n nd = 0%Z ∧ (Node.w nd = None ∨ Node.w nd = Some 0%Z).
Proof.
  unfold Node.init. intros H. inv_bind H turn Hturn. inv_bind H hand Hhand.
  inv_bind H j Hj. injection H as <-. simpl. split; [done|].
  destruct (match event with Some _ => _ | None => _ end); auto.
Qed.

Lemma stats_ok_insert l i nd nd' :
  l !! i = Some nd → Node.n nd' = Node.n nd → Node.w nd' = Node.w nd →
  Forall stats_ok l → Forall stats_ok (<[i := nd']> l).
Proof.
  intros Hi Hn Hw Hall. apply Forall_insert; [done|].
  rewrite Forall_lookup in Hall. specialize (Hall i nd Hi).
  unfold stats_ok in *. by rewrite Hn, Hw.
Qed.

Lemma same_stats_insert l i nd nd' :
  l !! i = Some nd → Node.n nd' = Node.n nd → Node.w nd' = Node.w nd →
  same_stats l (<[i := nd']> l).
Proof.
  intros Hi Hn Hw j ndj Hj. destruct (decide (j = i)) as [->|Hne].
  - rewrite Hi in Hj. injection Hj as <-. exists nd'.
    rewrite list_lookup_insert_eq by (by eapply lookup_lt_Some). done.
  - exists ndj. by rewrite list_lookup_insert_ne.
Qed.

Lemma Tree_apply_event_keeps (t t' : Tree.t) g e :
  Tree.apply_event t g e = Ok t' → game_keeps t t'.
Proof.
  destruct (Tree.is_on_rollout_policy t) eqn:Hmode.
  { rewrite Tree_apply_event_rollout by done. intros [= <-]. apply game_keeps_refl. }
  intros H. destruct (Tree_apply_event_selecting t t' g e Hmode H)
    as (cur & new_node & Hcur & Hnew & [(i & nd & -> & _)|[_ ->]]).
  { split; [apply same_stats_refl|done]. }
  destruct (Node_init_stats _ _ _ _ _ Hnew) as [Hn0 Hw0]. split; simpl.
  - intros j nd Hj.
    destruct (same_stats_insert (Tree.nodes t) (Tree.current_node t) cur
                (Node.with_children cur (Node.children cur ++ [length (Tree.nodes t)]))
                Hcur eq_refl eq_refl j nd Hj) as (nd' & Hj' & Hn & Hw).
    exists nd'. split; [|done]. by apply lookup_app_l_Some.
  - intros Hall. apply Forall_app. split.
    + by apply (stats_ok_insert _ _ cur).
    + constructor; [|done]. split; [lia|]. intros w Hw.
      destruct Hw0 as [Hw0|Hw0]; rewrite Hw0 in Hw; [done|]. injection Hw as <-. lia.
Qed.

Lemma Tree_select_action_keeps ucb (t t' : Tree.t) g r e r' :
  Tree.select_action ucb t g r = Ok (e, t', r') → game_keeps t t'.
Proof.
  intros H. destruct (Tree_select_action_frame ucb t t' g r e r' H)
    as [->|(cur & u & Hcur & Hmode & ->)]; [apply game_keeps_refl|].
  split; simpl.
  - by apply (same_stats_insert _ _ cur).
  - by apply (stats_ok_insert _ _ cur).
Qed.

Lemma play_turn_keeps ucb (d0 : list (string * Tree.t)) (s s' : Simulators.t) r r' :
  all_trees game_keeps d0 (Simulators.tree_dict s) →
  play_turn ucb s r = Ok (s', r') →
  all_trees game_keeps d0 (Simulators.tree_dict s').
Proof.
  intros H0 H. unfold play_turn in H.
  inv_bind H p Hdraw. destruct p as [draw r1].
  inv_bind H s1 Hs1. inv_bind H p Hsel. destruct p as [[act s2] r2].
  inv_bind H s3 Hs3. inv_bind H s4 Hs4. injection H as <- <-.
  apply Simulators_apply_event_trees in Hs1 as (_ & _ & H1).
  apply Simulators_select_action_trees in Hsel
    as (_ & _ & turn & t & t' & r0 & _ & _ & Hsel & H2).
  apply Simulators_apply_event_trees in Hs3 as (_ & _ & H3).
  unfold Simulators.next_turn in Hs4. inv_bind Hs4 g' Hg'. injection Hs4 as <-. simpl.
  eapply all_trees_step; [|eapply all_trees_step; [|eapply all_trees_step;
    [|exact H0|exact H1]|exact H2]|exact H3].
  - intros t0 t1 t2 Hk Hrun. eapply game_keeps_trans; [exact Hk|].
    exact (Tree_apply_event_keeps _ _ _ _ Hrun).
  - intros t0 t1 t2 Hk [->|[-> ->]]; [done|].
    eapply game_keeps_trans; [exact Hk|].
    exact (Tree_select_action_keeps _ _ _ _ _ _ _ Hsel).
  - intros t0 t1 t2 Hk Hrun. eapply game_keeps_trans; [exact Hk|].
    exact (Tree_apply_event_keeps _ _ _ _ Hrun).
Qed.

Lemma play_game_keeps ucb (fuel : nat) (d0 : list (string * Tree.t))
    (s s' : Simulators.t) r r' :
  all_trees game_keeps d0 (Simulators.tree_dict s) →
  play_game ucb fuel s r = Ok (s', r') →
  all_trees game_keeps d0 (Simulators.tree_dict s').
Proof.
  revert s r. induction fuel as [|fuel IH]; intros s r H0 H; simpl in H.
  - inv_bind H final Hfinal. destruct final; [|done]. by injection H as <- <-.
  - inv_bind H final Hfinal. destruct final; [by injection H as <- <-|].
    inv_bind H p Hp. destruct p as [s1 r1].
    eapply IH; [|exact H]. by eapply play_turn_keeps.
Qed.




Lemma all_trees_trans (R1 R2 R3 : Tree.t → Tree.t → Prop) d1 d2 d3 :
  (∀ t1 t2 t3, R1 t1 t2 → R2 t2 t3 → R3 t1 t3) →
  all_trees R1 d1 d2 → all_trees R2 d2 d3 → all_trees R3 d1 d3.
Proof.
  intros HR H. revert d3.
  induction H as [|[k1 t1] [k2 t2] d1 d2 [Hk Ht] _ IH]; intros d3 H23;
    inversion H23 as [|? [k3 t3] ? d3' [Hk' Ht'] Hrest]; subst; constructor; simpl in *.
  - split; [congruence|]. by eapply HR.
  - by apply IH.
Qed.


Lemma all_trees_fmap (R R' : Tree.t → Tree.t → Prop) (f : Tree.t → Tree.t) d0 d :
  (∀ t0 t, R t0 t → R' t0 (f t)) →
  all_trees R d0 d → all_trees R' d0 (prod_map id f <$> d).
Proof.
  intros HR. induction 1 as [|[k0 t0] [k t] d0 d [Hk Ht] _ IH]; [constructor|].
  rewrite fmap_cons. constructor; [|done]. simpl in *. split; [done|]. by apply HR.
Qed.


Lemma visited_times_keeps k t0 t1 t2 :
  visited_times k t0 t1 → game_keeps t1 t2 → visited_times k t0 t2.
Proof.
  intros [Hroot Hok] [Hsame Hok']. split; [|auto].
  intros root Hr. destruct (Hroot root Hr) as (root1 & Hr1 & Hn1).
  destruct (Hsame 0 root1 Hr1) as (root2 & Hr2 & Hn2 & _).
  exists root2. split; [done|]. lia.
Qed.











(** ** What an event never does *)




(** ** [Tree.select_action] *)

Lemma insert_cons_perm {A} (l : list A) j (a y : A) :
  l !! j = Some y → y :: <[j := a]> l ≡ₚ a :: l.
Proof.
  revert j. induction l as [|b l IH]; intros [|j] Hj; simplify_eq/=.
  - apply perm_swap.
  - rewrite perm_swap, (IH j Hj). apply perm_swap.
Qed.

Lemma swap_perm {A} (l : list A) i j : swap l i j ≡ₚ l.
Proof.
  unfold swap. destruct (l !! i) as [x|] eqn:Hx; [|done].
  destruct (l !! j) as [y|] eqn:Hy; [|done].
  destruct (decide (i = j)) as [->|Hne].
  - rewrite Hx in Hy. injection Hy as <-.
    by rewrite (list_insert_id l j x Hx), (list_insert_id l j x Hx).
  - apply (Permutation_cons_inv (a := x)).
    rewrite (insert_cons_perm (<[j := x]> l) i y x)
      by (by rewrite list_lookup_insert_ne).
    by apply insert_cons_perm.
Qed.

Lemma shuffle_from_perm {A} (i : nat) (l : list A) (r : rng) :
  (shuffle_from i l r).1 ≡ₚ l.
Proof.
  revert l r. induction i as [|i IH]; intros l r; [done|].
  change (shuffle_from (S i) l r)
    with (shuffle_from i (swap l (S i) (r 0 `mod` S (S i))) (λ k, r (S k))).
  rewrite IH. apply swap_perm.
Qed.

Lemma last_removelast {A} (l : list A) (x : A) :
  last l = Some x → removelast l ++ [x] = l.
Proof.
  destruct l as [|y l _] using rev_ind; [done|].
  rewrite last_snoc. intros [= ->]. by rewrite removelast_last.
Qed.

(** X17.  The owner of the tree holds no card (a hand of [n_species] zero
    counts).  Then [select_action] raises [ValueError]: while rolling out,
    from [np.random.choice] on the empty list of allowed actions; while
    selecting at a node that was never entered (no untried actions stored, no
    child), from [np.argmax] on the empty list of UCB scores, after the empty
    list of allowed actions has been stored as the untried actions. *)
Theorem select_action_empty_hand ucb (t : Tree.t) (g : Kariba.t) (r : rng) (hand : vec) :
  Kariba.hands g !! Tree.player t = Some hand →
  length hand = Kariba.n_species g →
  Forall (λ x, x = 0%Z) hand →
  (Tree.is_on_rollout_policy t = true →
   Tree.select_action ucb t g r = Raise (ValueError "a must be non-empty"))
  ∧ (∀ cur, Tree.is_on_rollout_policy t = false →
       Tree.nodes t !! Tree.current_node t = Some cur →
       Node.untried_actions cur = None → Node.children cur = [] →
       Tree.select_action ucb t g r
       = Raise (ValueError "attempt to get an argmax of an empty sequence")).
Proof.
  intros Hhand Hlen Hzero.
  assert (Hnn : Forall (λ x, 0 ≤ x)%Z hand).
  { eapply Forall_impl; [exact Hzero|]. simpl. intros x ->. lia. }
  assert (Hsum : np_sum hand = 0%Z).
  { clear Hhand Hlen Hnn. induction Hzero as [|x l -> _ IH]; [done|].
    rewrite np_sum_cons, IH. lia. }
  assert (Hacts : Kariba.allowed_actions g (Tree.player t) = Ok []).
  { rewrite (allowed_actions_Ok g _ hand Hhand Hlen). f_equal.
    apply nil_length_inv. rewrite <- Hlen, length_actions_of_hand by done.
    by rewrite Hsum. }
  unfold Tree.select_action. split.
  - intros ->. by rewrite Hacts.
  - intros cur -> Hcur Hun Hch.
    rewrite (bind_Ok_l _ _ _ (proj2 (get_node_Ok _ _ _) Hcur)).
    rewrite Hun, Hch, Hacts. simpl. by rewrite Hch.
Qed.

Lemma select_action_empty_hand_witness :
  Tree.select_action first_child
    (Tree.mk "player0"
       [Node.mk "player0" None [] "player0" [0; 0]%Z [0; 0]%Z [4; 4]%Z 0 true false
                None None None] 0 0 true)
    root44 (const_rng 0)
  = Raise (ValueError "a must be non-empty").
Proof.
  refine (proj1 (select_action_empty_hand first_child _ root44 (const_rng 0) [0; 0]%Z
                   _ _ _) _).
  - reflexivity.
  - reflexivity.
  - repeat constructor.
  - reflexivity.
Defined.

(** X18.  A selecting tree enters a node for the first time (no untried
    actions stored, no child) and its owner has an allowed action.  Then
    [select_action] returns one allowed action and stores the others as the
    untried actions of the node: the stored actions and the one returned are
    the allowed actions, each as often as it is allowed, in a shuffled order.
    Nothing else changes in the tree.  At a node that has untried actions
    stored, [select_action] hands out the last of them and stores the rest,
    without a look at the game or at the random source. *)
Theorem select_action_tries_each_once ucb (t : Tree.t) (g : Kariba.t) (r : rng)
    (cur : Node.t) :
  Tree.is_on_rollout_policy t = false →
  Tree.nodes t !! Tree.current_node t = Some cur →
  (∀ acts, Node.untried_actions cur = None → Node.children cur = [] →
     Kariba.allowed_actions g (Tree.player t) = Ok acts → acts ≠ [] →
     ∃ e rest r',
       Tree.select_action ucb t g r
       = Ok (e, Tree.with_nodes t
                  (<[Tree.current_node t := Node.with_untried_actions cur (Some rest)]>
                     (Tree.nodes t)), r')
       ∧ rest ++ [e] ≡ₚ acts)
  ∧ (∀ rest e, Node.untried_actions cur = Some (rest ++ [e]) →
       Tree.select_action ucb t g r
       = Ok (e, Tree.with_nodes t
                  (<[Tree.current_node t := Node.with_untried_actions cur (Some rest)]>
                     (Tree.nodes t)), r)).
Proof.
  intros Hmode Hcur. unfold Tree.select_action. rewrite Hmode.
  rewrite (bind_Ok_l _ _ _ (proj2 (get_node_Ok _ _ _) Hcur)). split.
  - intros acts Hun Hch Hacts Hne. rewrite Hun, Hch, Hacts. simpl.
    pose proof (shuffle_from_perm (length acts - 1) acts r) as Hperm.
    unfold random_shuffle. destruct (shuffle_from (length acts - 1) acts r) as [acts' r'].
    simpl in *. destruct (last acts') as [e|] eqn:Hlast.
    + exists e, (removelast acts'), r'. split; [by destruct cur|].
      by rewrite (last_removelast _ _ Hlast).
    + apply last_None_nil in Hlast. subst acts'.
      apply Permutation_nil_l in Hperm. by subst acts.
  - intros rest e Hun. rewrite Hun. cbn -[last removelast].
    rewrite Hun, last_snoc, removelast_last. by destruct cur.
Qed.

Lemma select_action_tries_each_once_witness :
  ∃ e rest r',
    Tree.select_action first_child dealt_tree dealt (const_rng 0)
    = Ok (e, Tree.with_nodes dealt_tree
               [Node.with_untried_actions dealt_root_node (Some rest)], r')
    ∧ rest ++ [e] ≡ₚ actions_of_hand 2 "player0" [1; 1]%Z.
Proof.
  destruct (proj1 (select_action_tries_each_once first_child dealt_tree dealt (const_rng 0)
                     dealt_root_node eq_refl eq_refl)
              (actions_of_hand 2 "player0" [1; 1]%Z))
    as (e & rest & r' & Hrun & Hperm).
  - reflexivity.
  - reflexivity.
  - vm_compute. reflexivity.
  - vm_compute. discriminate.
  - exists e, rest, r'. exact (conj Hrun Hperm).
Defined.

(** ** The constructor of [Kariba] *)

Lemma lookup_list_to_map_const {V} (names : list string) (v : V) (p : string) :
  (list_to_map ((λ q, (q, v)) <$> names) : gmap string V) !! p
  = if decide (p ∈ names) then Some v else None.
Proof.
  induction names as [|q names IH].
  - rewrite fmap_nil, list_to_map_nil, lookup_empty.
    destruct (decide (p ∈ [])) as [Hin|]; [by apply not_elem_of_nil in Hin|done].
  - rewrite fmap_cons, list_to_map_cons. cbn [fst snd].
    destruct (decide (q = p)) as [->|Hne].
    + rewrite lookup_insert_eq.
      destruct (decide (p ∈ p :: names)) as [|Hout]; [done|]. exfalso. apply Hout. by left.
    + rewrite lookup_insert_ne by done. rewrite IH.
      destruct (decide (p ∈ names)) as [Hin|Hout], (decide (p ∈ q :: names)) as [Hin'|Hout'];
        try done.
      * exfalso. apply Hout'. by right.
      * apply elem_of_cons in Hin' as [->|Hin']; done.
Qed.

Lemma np_sum_replicate n x : np_sum (replicate n x) = (Z.of_nat n * x)%Z.
Proof.
  induction n as [|n IH]; [done|]. cbn [replicate]. rewrite np_sum_cons, IH. lia.
Qed.

(** X19.  The constructor deals nothing: whatever the deck, every player of
    [player_names] has a hand of [n_species] zero counts and the score zero,
    other names have no hand, and the field is empty.  So no player has an
    allowed action, and, the sum of the deck being a 64-bit integer, the new
    game is final exactly when its deck sums to zero and it has a player.
    Without a deck given, the deck holds [max(3, n_species)] cards of every
    species. *)
Theorem init_deals_nothing (deck : option vec) (whose_turn_ : Z) (names : list string)
    (n_species : nat) (max_n_hand : Z) (p : string) :
  let g := Kariba.init deck whose_turn_ names n_species max_n_hand in
  (p ∈ names →
     Kariba.hands g !! p = Some (np_zeros n_species)
     ∧ Kariba.scoreboard g !! p = Some 0%Z
     ∧ Kariba.allowed_actions g p = Ok [])
  ∧ (p ∉ names → Kariba.hands g !! p = None)
  ∧ Kariba.field g = np_zeros n_species
  ∧ (deck = None →
     Kariba.deck g = replicate n_species (Z.max 3 (Z.of_nat n_species)))
  ∧ (in_int64 (np_sum (Kariba.deck g)) →
     Kariba.is_final g
     = Ok (bool_decide (np_sum (Kariba.deck g) = 0%Z ∧ names ≠ []))).
Proof.
  intros g.
  assert (Hhands : ∀ q, Kariba.hands g !! q
                        = if decide (q ∈ names) then Some (np_zeros n_species) else None).
  { intros q. apply lookup_list_to_map_const. }
  assert (Hzeros : Forall (λ x, 0 ≤ x)%Z (np_zeros n_species)).
  { apply Forall_replicate. lia. }
  assert (Hlz : length (np_zeros n_species) = n_species) by apply length_replicate.
  split_and!.
  - intros Hp. split_and!.
    + by rewrite Hhands, decide_True.
    + unfold g. simpl. by rewrite lookup_list_to_map_const, decide_True.
    + rewrite (allowed_actions_Ok g p (np_zeros n_species)); [|by rewrite Hhands, decide_True|done].
      f_equal. apply nil_length_inv. change (Kariba.n_species g) with n_species.
      rewrite <- Hlz at 1. rewrite length_actions_of_hand by done.
      unfold np_zeros. rewrite np_sum_replicate. lia.
  - intros Hp. by rewrite Hhands, decide_False.
  - done.
  - intros ->. unfold g. simpl. unfold np_scale.
    assert (Hdeck : Z.mul (Z.max 3 (Z.of_nat n_species)) <$> replicate n_species 1%Z
                    = replicate n_species (Z.max 3 (Z.of_nat n_species))).
    { rewrite fmap_replicate. f_equal. lia. }
    by rewrite Hdeck.
  - intros _. unfold Kariba.is_final. case_decide as Hdeck.
    + unfold Kariba.any_empty_hand.
      rewrite (mapM_fmap_Ok _ (λ _, true)).
      2:{ intros q Hq. unfold dict_get. change (Kariba.player_names g) with names in Hq.
          rewrite Hhands, decide_True by done. simpl.
          unfold np_zeros. rewrite np_sum_replicate. f_equal. apply bool_decide_eq_true. lia. }
      simpl. f_equal. change (Kariba.player_names g) with names.
      destruct names as [|q names]; simpl.
      * symmetry. apply bool_decide_eq_false. by intros [_ ?].
      * symmetry. apply bool_decide_eq_true. done.
    + f_equal. symmetry. apply bool_decide_eq_false. by intros [? _].
Qed.

Lemma init_deals_nothing_witness :
  Kariba.allowed_actions root44 "player0" = Ok []
  ∧ Kariba.hands root44 !! "nobody" = None.
Proof.
  destruct (init_deals_nothing (Some [4; 4]%Z) 0 ["player0"; "player1"] 2 2 "player0")
    as (Hin & _).
  destruct (init_deals_nothing (Some [4; 4]%Z) 0 ["player0"; "player1"] 2 2 "nobody")
    as (_ & Hout & _).
  split.
  - apply Hin. by left.
  - apply Hout. apply (bool_decide_unpack _). vm_compute. exact I.
Defined.

(** ** The links of a tree *)

Lemma Node_init_links g p event parent nd :
  Node.init g p event parent = Ok nd →
  Node.parent nd = parent ∧ Node.children nd = []
  ∧ (Node.is_post_action_node nd = true → is_Some (Node.w nd)).
Proof.
  unfold Node.init. intros H. inv_bind H turn Hturn. inv_bind H hand Hhand.
  inv_bind H j Hj. injection H as <-. simpl. split; [done|]. split; [done|].
  intros ->. by eexists.
Qed.

Lemma tree_wf_insert (t : Tree.t) (cur cur' : Node.t) :
  tree_wf t →
  Tree.nodes t !! Tree.current_node t = Some cur →
  Node.parent cur' = Node.parent cur →
  Node.children cur' = Node.children cur →
  (is_Some (Node.w cur) → is_Some (Node.w cur')) →
  Node.is_post_action_node cur' = Node.is_post_action_node cur →
  tree_wf (Tree.with_nodes t (<[Tree.current_node t := cur']> (Tree.nodes t))).
Proof.
  intros (Hlinked & Hch & Hcurlt & Hrootlt) Hcur Hpar Hchildren Hw Hpost.
  split_and!; simpl; [| |by rewrite length_insert..].
  - intros j nd Hj. destruct (decide (j = Tree.current_node t)) as [->|Hne].
    + rewrite list_lookup_insert_eq in Hj by done. injection Hj as <-.
      destruct (Hlinked _ _ Hcur) as [Hp Hpw]. rewrite Hpar, Hpost. split; [done|].
      intros Hpo. by apply Hw, Hpw.
    + rewrite list_lookup_insert_ne in Hj by done. by apply Hlinked.
  - intros j nd c Hj Hc.
    assert (∃ nd0, Tree.nodes t !! j = Some nd0 ∧ Node.children nd0 = Node.children nd)
      as (nd0 & Hj0 & Hc0).
    { destruct (decide (j = Tree.current_node t)) as [->|Hne].
      - rewrite list_lookup_insert_eq in Hj by done. injection Hj as <-. by exists cur.
      - rewrite list_lookup_insert_ne in Hj by done. by exists nd. }
    rewrite <- Hc0 in Hc. destruct (Hch j nd0 c Hj0 Hc) as (ndc & Hndc & Hparc).
    destruct (decide (c = Tree.current_node t)) as [->|Hne].
    + exists cur'. rewrite list_lookup_insert_eq by done. split; [done|].
      rewrite Hcur in Hndc. injection Hndc as <-. congruence.
    + exists ndc. by rewrite list_lookup_insert_ne.
Qed.

(** X20.  The links of a tree are kept consistent by every method: in the
    tree that [Tree.__init__] builds, and after [apply_event],
    [select_action], [backpropagate] and the reset of [reset_game] on a tree
    with consistent links, the parent of every node comes before the node in
    the arena, every child of a node is a node whose parent is that node,
    every post-action node has a reward, and the cursor and the root denote
    nodes. *)
Theorem tree_links_kept ucb :
  (∀ g p t, Tree.init g p = Ok t → tree_wf t)
  ∧ (∀ t g e t', tree_wf t → Tree.apply_event t g e = Ok t' → tree_wf t')
  ∧ (∀ t g r e t' r', tree_wf t → Tree.select_action ucb t g r = Ok (e, t', r') →
       tree_wf t')
  ∧ (∀ t winner, tree_wf t →
       ∃ t', Tree.backpropagate t winner = Ok t' ∧ tree_wf t')
  ∧ (∀ t, tree_wf t → tree_wf (Simulators.reset_tree t)).
Proof.
  split_and!.
  - intros g p t H. unfold Tree.init in H. inv_bind H root Hroot. injection H as <-.
    destruct (Node_init_links _ _ _ _ _ Hroot) as (Hpar & Hch & Hw).
    split_and!; simpl; [| |lia..].
    + intros [|j] nd Hj; [|done]. injection Hj as <-. by rewrite Hpar.
    + intros [|j] nd c Hj Hc; [|done]. injection Hj as <-. rewrite Hch in Hc.
      by apply not_elem_of_nil in Hc.
  - intros t g e t' Hwf H.
    destruct (Tree.is_on_rollout_policy t) eqn:Hmode.
    { rewrite Tree_apply_event_rollout in H by done. by injection H as <-. }
    destruct (Tree_apply_event_selecting t t' g e Hmode H)
      as (cur & new_node & Hcur & Hnew & [(i & nd & -> & _ & Hi & _)|[_ ->]]).
    { destruct Hwf as (? & ? & ? & ?). split_and!; simpl; try done.
      by eapply lookup_lt_Some. }
    destruct (Node_init_links _ _ _ _ _ Hnew) as (Hpar & Hchn & Hw).
    destruct Hwf as (Hlinked & Hch & Hcurlt & Hrootlt).
    split_and!; simpl.
    + intros j nd Hj. destruct (decide (j < length (Tree.nodes t))) as [Hlt|Hge].
      * rewrite lookup_app_l in Hj by (by rewrite length_insert).
        destruct (decide (j = Tree.current_node t)) as [->|Hne].
        -- rewrite list_lookup_insert_eq in Hj by done. injection Hj as <-. simpl.
           by apply Hlinked.
        -- rewrite list_lookup_insert_ne in Hj by done. by apply Hlinked.
      * assert (j = length (Tree.nodes t)) as ->.
        { apply lookup_lt_Some in Hj. rewrite length_app, length_insert in Hj.
          simpl in Hj. lia. }
        rewrite lookup_app_r in Hj by (by rewrite length_insert).
        rewrite length_insert, Nat.sub_diag in Hj. injection Hj as <-.
        rewrite Hpar. done.
    + intros j nd c Hj Hc. destruct (decide (j < length (Tree.nodes t))) as [Hlt|Hge].
      * rewrite lookup_app_l in Hj by (by rewrite length_insert).
        assert (Hold : ∀ nd0, Tree.nodes t !! j = Some nd0 → c ∈ Node.children nd0 →
                  ∃ ndc, (<[Tree.current_node t :=
                             Node.with_children cur
                               (Node.children cur ++ [length (Tree.nodes t)])]>
                            (Tree.nodes t) ++ [new_node]) !! c = Some ndc
                         ∧ Node.parent ndc = Some j).
        { intros nd0 Hj0 Hc0. destruct (Hch j nd0 c Hj0 Hc0) as (ndc & Hndc & Hparc).
          destruct (decide (c = Tree.current_node t)) as [->|Hne].
          - eexists. rewrite lookup_app_l by (by rewrite length_insert).
            rewrite list_lookup_insert_eq by done. split; [done|]. simpl.
            rewrite Hcur in Hndc. by injection Hndc as <-.
          - exists ndc. rewrite lookup_app_l
              by (rewrite length_insert; by eapply lookup_lt_Some).
            by rewrite list_lookup_insert_ne. }
        destruct (decide (j = Tree.current_node t)) as [->|Hne].
        -- rewrite list_lookup_insert_eq in Hj by done. injection Hj as <-. simpl in Hc.
           apply elem_of_app in Hc as [Hc|Hc]; [by apply (Hold cur)|].
           apply list_elem_of_singleton in Hc. subst c. exists new_node.
           rewrite lookup_app_r by (by rewrite length_insert).
           by rewrite length_insert, Nat.sub_diag.
        -- rewrite list_lookup_insert_ne in Hj by done. by apply (Hold nd).
      * assert (j = length (Tree.nodes t)) as ->.
        { apply lookup_lt_Some in Hj. rewrite length_app, length_insert in Hj.
          simpl in Hj. lia. }
        rewrite lookup_app_r in Hj by (by rewrite length_insert).
        rewrite length_insert, Nat.sub_diag in Hj. injection Hj as <-.
        rewrite Hchn in Hc. by apply not_elem_of_nil in Hc.
    + rewrite length_app, length_insert. simpl. lia.
    + rewrite length_app, length_insert. simpl. lia.
  - intros t g r e t' r' Hwf H.
    destruct (Tree_select_action_frame ucb t t' g r e r' H)
      as [->|(cur & u & Hcur & Hmode & ->)]; [done|].
    by apply (tree_wf_insert t cur).
  - intros t winner (Hlinked & Hch & Hcurlt & Hrootlt).
    destruct (backpropagate_from_path winner (length (Tree.nodes t)) (Tree.nodes t)
                (Tree.current_node t) Hcurlt Hcurlt Hlinked) as (l' & Hrun & Hlen & Hspec).
    exists (Tree.with_nodes t l'). unfold Tree.backpropagate. rewrite Hrun.
    split; [done|].
    assert (Hback : ∀ j nd', l' !! j = Some nd' →
              ∃ nd, Tree.nodes t !! j = Some nd
                ∧ Node.parent nd' = Node.parent nd
                ∧ Node.children nd' = Node.children nd
                ∧ Node.is_post_action_node nd' = Node.is_post_action_node nd
                ∧ (is_Some (Node.w nd) → is_Some (Node.w nd'))).
    { intros j nd' Hj'.
      destruct (lookup_lt_is_Some_2 (Tree.nodes t) j) as [nd Hj].
      { rewrite <- Hlen. by eapply lookup_lt_Some. }
      exists nd. split; [done|]. destruct (Hspec j nd Hj) as [Hin Hout].
      destruct (decide (j ∈ path_to_root (length (Tree.nodes t)) (Tree.nodes t)
                              (Tree.current_node t))) as [Hd|Hd].
      - destruct (Hin Hd) as (nd1 & Hvisit & Hj1). rewrite Hj' in Hj1.
        injection Hj1 as ->. unfold Node.visit in Hvisit.
        destruct (Node.is_post_action_node nd) eqn:Hpost.
        + destruct (Node.w nd); [|done]. injection Hvisit as <-. simpl.
          split_and!; try done; intros _; by eexists.
        + injection Hvisit as <-. simpl. by split_and!.
      - rewrite (Hout Hd) in Hj'. injection Hj' as <-. by split_and!. }
    split_and!; simpl; [| |by rewrite Hlen..].
    + intros j nd' Hj'. destruct (Hback j nd' Hj') as (nd & Hj & Hp & _ & Hpo & Hw).
      destruct (Hlinked j nd Hj) as [Hpar Hpw]. rewrite Hp, Hpo. split; [done|].
      intros Hpost. by apply Hw, Hpw.
    + intros j nd' c Hj' Hc. destruct (Hback j nd' Hj') as (nd & Hj & _ & Hcs & _).
      rewrite Hcs in Hc. destruct (Hch j nd c Hj Hc) as (ndc & Hndc & Hparc).
      destruct (lookup_lt_is_Some_2 l' c) as [ndc' Hndc'].
      { rewrite Hlen. by eapply lookup_lt_Some. }
      exists ndc'. split; [done|].
      destruct (Hback c ndc' Hndc') as (ndc0 & Hndc0 & Hp0 & _).
      rewrite Hndc in Hndc0. injection Hndc0 as <-. congruence.
  - intros t (Hlinked & Hch & Hcurlt & Hrootlt). by split_and!.
Qed.

Lemma tree_links_kept_witness :
  tree_wf dealt_tree
  ∧ ∃ t', Tree.backpropagate dealt_tree "player0" = Ok t' ∧ tree_wf t'.
Proof.
  assert (Hwf : tree_wf dealt_tree).
  { apply (proj1 (tree_links_kept first_child) dealt "player0").
    vm_compute. reflexivity. }
  split; [exact Hwf|].
  exact (proj1 (proj2 (proj2 (proj2 (tree_links_kept first_child))))
           dealt_tree "player0" Hwf).
Defined.

(** ** The UCB branch of [select_action] *)

(** X21.  A selecting tree stands at a node whose untried actions are used
    up, and the first child of the node is a post-action node that has a
    reward but no visit yet.  Then [select_action] raises
    [ZeroDivisionError]: the UCB score of that child divides by its count
    of visits. *)
Theorem select_action_unvisited_child ucb (t : Tree.t) (g : Kariba.t) (r : rng)
    (cur child : Node.t) (c : nat) (rest : list nat) :
  Tree.is_on_rollout_policy t = false →
  Tree.nodes t !! Tree.current_node t = Some cur →
  Node.untried_actions cur = Some [] →
  Node.children cur = c :: rest →
  Tree.nodes t !! c = Some child →
  Node.is_post_action_node child = true →
  is_Some (Node.w child) →
  Node.n child = 0%Z →
  Tree.select_action ucb t g r = Raise ZeroDivisionError.
Proof.
  intros Hmode Hcur Hun Hch Hchild Hpost [w0 Hw] Hn.
  unfold Tree.select_action. rewrite Hmode.
  rewrite (bind_Ok_l _ _ _ (proj2 (get_node_Ok _ _ _) Hcur)).
  rewrite Hun. cbn -[mapM]. rewrite Hun. cbn -[mapM]. rewrite Hch. cbn [mapM].
  rewrite (list_insert_id _ _ _ Hcur).
  rewrite (bind_Ok_l _ _ _ (proj2 (get_node_Ok _ _ _) Hchild)).
  assert (Hu : Tree.ucb (Tree.nodes t) child = Raise ZeroDivisionError).
  { unfold Tree.ucb. by rewrite Hpost, Hw, Hn. }
  cbn beta. by rewrite Hu.
Qed.

Lemma select_action_unvisited_child_witness :
  Tree.select_action first_child
    (Tree.mk "player0"
       [Node.mk "player0" None [1] "player0" [1; 1]%Z [0; 0]%Z [3; 3]%Z 0 true false
                (Some []) None None;
        Node.mk "player0" (Some 0) [] "player0" [0; 1]%Z [1; 0]%Z [3; 3]%Z 0 false true
                None (Some play0) (Some 0%Z)] 0 0 false)
    dealt (const_rng 0)
  = Raise ZeroDivisionError.
Proof.
  eapply (select_action_unvisited_child first_child _ dealt (const_rng 0) _ _ 1 []);
    try reflexivity.
  by eexists.
Defined.

(** ** What an iteration restores *)

Lemma all_trees_keys R d d' : all_trees R d d' → d'.*1 = d.*1.
Proof.
  induction 1 as [|[k t] [k' t'] d d' [Hk _] _ IH]; [done|].
  rewrite !fmap_cons. simpl in *. by f_equal.
Qed.

Lemma play_turn_reset_state ucb (s s' : Simulators.t) r r' :
  play_turn ucb s r = Ok (s', r') →
  Simulators.reset_state s' = Simulators.reset_state s.
Proof.
  intros H. unfold play_turn in H.
  inv_bind H p Hdraw. destruct p as [draw r1].
  inv_bind H s1 Hs1. inv_bind H p Hsel. destruct p as [[act s2] r2].
  inv_bind H s3 Hs3. inv_bind H s4 Hs4. injection H as <- <-.
  apply Simulators_apply_event_trees in Hs1 as (_ & H1 & _).
  apply Simulators_select_action_trees in Hsel as (_ & H2 & _).
  apply Simulators_apply_event_trees in Hs3 as (_ & H3 & _).
  unfold Simulators.next_turn in Hs4. inv_bind Hs4 g' Hg'. injection Hs4 as <-. simpl.
  congruence.
Qed.

Lemma play_game_reset_state ucb (fuel : nat) (s s' : Simulators.t) r r' :
  play_game ucb fuel s r = Ok (s', r') →
  Simulators.reset_state s' = Simulators.reset_state s.
Proof.
  revert s r. induction fuel as [|fuel IH]; intros s r H; simpl in H.
  - inv_bind H final Hfinal. destruct final; [|done]. by injection H as <- <-.
  - inv_bind H final Hfinal. destruct final; [by injection H as <- <-|].
    inv_bind H p Hp. destruct p as [s1 r1].
    rewrite (IH _ _ H). by eapply play_turn_reset_state.
Qed.

Lemma backpropagate_from_length winner fuel : ∀ l i l',
  Tree.backpropagate_from fuel l i winner = Ok l' → length l' = length l.
Proof.
  induction fuel as [|fuel IH]; intros l i l' H; [done|]. simpl in H.
  inv_bind H nd Hnd. inv_bind H nd' Hnd'.
  destruct (Node.parent nd) as [k|].
  - rewrite (IH _ _ _ H). by rewrite length_insert.
  - injection H as <-. by rewrite length_insert.
Qed.

Lemma same_stats_length l l' : same_stats l l' → length l ≤ length l'.
Proof.
  intros H. destruct (decide (length l ≤ length l')) as [|Hgt]; [done|].
  destruct (lookup_lt_is_Some_2 l (length l')) as [nd Hnd]; [lia|].
  destruct (H _ _ Hnd) as (nd' & Hnd' & _). apply lookup_lt_Some in Hnd'. lia.
Qed.

(** X22.  Whatever the coordinator holds, an iteration that raises nothing
    hands it back ready for the next one: the snapshot of the root state is
    the one it was and the game is a copy of it, there is a tree for the same
    players in the same order, every tree is at its root and selecting, and
    no tree has lost a node. *)
Theorem iteration_restores_root ucb (fuel : nat) (s s' : Simulators.t) (r r' : rng) :
  iteration ucb fuel s r = Ok (s', r') →
  Simulators.reset_state s' = Simulators.reset_state s
  ∧ Simulators.game s' = Simulators.reset_state s
  ∧ (Simulators.tree_dict s').*1 = (Simulators.tree_dict s).*1
  ∧ Forall (λ kv, Tree.current_node kv.2 = Tree.root_node kv.2
                  ∧ Tree.is_on_rollout_policy kv.2 = false)
      (Simulators.tree_dict s')
  ∧ all_trees (λ t t', length (Tree.nodes t) ≤ length (Tree.nodes t'))
      (Simulators.tree_dict s) (Simulators.tree_dict s').
Proof.
  intros H. unfold iteration in H. inv_bind H p Hplay. destruct p as [s1 r1].
  inv_bind H winner Hwinner. inv_bind H s2 Hback. injection H as <- <-.
  unfold Simulators.backpropagate in Hback. inv_bind Hback d2 Hd2.
  injection Hback as <-. apply each_tree_Ok in Hd2.
  pose proof (play_game_reset_state _ _ _ _ _ _ Hplay) as Hreset.
  pose proof (play_game_keeps ucb fuel (Simulators.tree_dict s) s s1 r r1
                (all_trees_refl _ _ ltac:(apply Forall_forall; intros; apply game_keeps_refl))
                Hplay) as Hkeeps.
  unfold Simulators.reset_game. simpl. rewrite Hreset. split_and!; [done|done| | |].
  - rewrite <- list_fmap_compose.
    rewrite <- (all_trees_keys _ _ _ Hkeeps), <- (all_trees_keys _ _ _ Hd2).
    apply list_fmap_ext. by intros i [k t] _.
  - apply Forall_fmap, Forall_forall. by intros [k t] _.
  - apply (all_trees_fmap (λ t t', length (Tree.nodes t) ≤ length (Tree.nodes t'))); [done|].
    eapply all_trees_trans; [|exact Hkeeps|exact Hd2].
    intros t1 t2 t3 [Hsame _] Hb. unfold Tree.backpropagate in Hb.
    inv_bind Hb l Hl. injection Hb as <-. simpl.
    rewrite (backpropagate_from_length _ _ _ _ _ Hl). by apply same_stats_length.
Qed.

Lemma iteration_restores_root_witness :
  ∃ s' r', iteration first_child 8 sims_root44 (const_rng 0) = Ok (s', r')
    ∧ Simulators.game s' = root44.
Proof.
  destruct (iteration first_child 8 sims_root44 (const_rng 0)) as [[s' r']| |] eqn:Hrun;
    [|vm_compute in Hrun; discriminate..].
  exists s', r'. split; [done|].
  exact (proj1 (proj2 (iteration_restores_root first_child 8 sims_root44 s'
                         (const_rng 0) r' Hrun))).
Defined.
